(** * Fairscale Compass: score aggregation, classification and gauge rendering

    A shallow embedding of the gauge engine of the repository
    (src/server.js, src/api/index.mjs, src/api/logout.js and the unnamed
    serverless handlers) and the properties its specification states.

    Number model.  A finite JavaScript number is the rational it denotes
    ([Q]); integers produced by [Math.round], [parseInt] and image sizes
    are [Z].  Module [Binary64] gives the rounding of IEEE-754 double
    arithmetic (to the nearest double, ties to the even mantissa), and the
    definitions whose result depends on it round as the source does: the
    score formula and its running sums ([Aggregator64]), the rescaled
    needle ([Geometry.r1n], [Geometry.r2n]) and [parseInt].  The other
    definitions compute on exact rationals: they are used where the
    values are whole or half numbers of pixel size, which doubles hold
    exactly, and for order relations.  [NaN] and the infinities are
    outside the model, except where a definition says otherwise ([intish]
    keeps the [Number.isFinite] test of the source, [Pagination.bound]
    an infinite post count).  [Math.PI] is the exact value of the double
    the runtime uses. *)

From Stdlib Require Import ZArith QArith Qround Qminmax Qabs Qpower.
From Stdlib Require Import List String Ascii Bool Lia Lqa Permutation.
Import ListNotations.

Set Warnings "-register-all".
Local Open Scope string_scope.
Local Open Scope Q_scope.

(* ------------------------------------------------------------------ *)
(** ** JavaScript primitives used by the source *)

Module JS.

(** [Math.round]: the nearest integer, halves rounded towards +infinity. *)
Definition Math_round (x : Q) : Z := Qfloor (x + (1 # 2)).

Definition Math_max (a b : Q) : Q := Qmax a b.
Definition Math_min (a b : Q) : Q := Qmin a b.

(** [a < b], [a <= b] and [a >= b] on numbers, as booleans. *)
Definition ltb (a b : Q) : bool := negb (Qle_bool b a).
Definition leb (a b : Q) : bool := Qle_bool a b.
Definition geb (a b : Q) : bool := Qle_bool b a.

(** Truthiness of a number: everything but zero (and NaN, not modelled). *)
Definition truthy (a : Q) : bool := negb (Qeq_bool a 0).

(** [a || b] on numbers. *)
Definition or_else (a b : Q) : Q := if truthy a then a else b.

(** The double closest to pi, [0x400921FB54442D18]. *)
Definition Math_PI : Q := 884279719003555 # 281474976710656.

(** A parsed JSON document, as [JSON.parse] returns it.  An object keeps
    its members in document order; on a repeated key the last member wins,
    as in [JSON.parse]. *)
Inductive json : Type :=
| JNull
| JBool (b : bool)
| JNum (q : Q)
| JStr (s : string)
| JArr (items : list json)
| JObj (members : list (string * json)).

(** [o[k]] on the members of an object: [None] is [undefined]. *)
Fixpoint get_member (members : list (string * json)) (k : string) : option json :=
  match members with
  | [] => None
  | (k', v) :: rest =>
      match get_member rest k with
      | Some v' => Some v'
      | None => if String.eqb k' k then Some v else None
      end
  end.

(** [v && typeof v === "object"]: a non-null object or array. *)
Definition is_object (v : json) : bool :=
  match v with
  | JArr _ | JObj _ => true
  | _ => false
  end.

(** [typeof v === "object"]: as above, and [null]. *)
Definition typeof_object (v : json) : bool :=
  match v with
  | JNull | JArr _ | JObj _ => true
  | _ => false
  end.

(** [typeof v.k === "number"] together with the value [v.k], for a
    non-null [v]; an array has no such property. *)
Definition number_prop (v : json) (k : string) : option Q :=
  match v with
  | JObj members =>
      match get_member members k with
      | Some (JNum q) => Some q
      | _ => None
      end
  | _ => None
  end.

End JS.

(* ------------------------------------------------------------------ *)
(** ** Double precision: the rounding of JavaScript arithmetic

    Every finite double is a rational, and IEEE 754 defines the result of
    [+], [-], [*] and [/] as the exact result rounded to the nearest
    double, ties going to the even mantissa.  Results that overflow to an
    infinity (magnitudes from [2^1024 - 2^970] on) are outside the
    model. *)

Module Binary64.

Definition pow2 (e : Z) : Q := 2 ^ e.

(** The exponent [e] with [2^e <= |x| < 2^(e+1)], for [x] other than
    zero. *)
Definition binade (x : Q) : Z :=
  let e0 := (Z.log2 (Z.abs (Qnum x)) - Z.log2 (Zpos (Qden x)))%Z in
  if Qle_bool (pow2 e0) (Qabs x) then e0 else (e0 - 1)%Z.

(** The unit in the last place of the 53-bit mantissa at [x]; below
    [2^-1022] the doubles are subnormal and evenly spaced. *)
Definition ulp (x : Q) : Q := pow2 (Z.max (binade x) (-1022) - 52).

(** The nearest integer, a tie going to the even one. *)
Definition round_even (y : Q) : Z :=
  let f := Qfloor y in
  match Qcompare (y - inject_Z f) (1 # 2) with
  | Lt => f
  | Gt => (f + 1)%Z
  | Eq => if Z.even f then f else (f + 1)%Z
  end.

(** The double nearest to [x]. *)
Definition rnd (x : Q) : Q :=
  if Qeq_bool x 0 then 0
  else Qred (inject_Z (round_even (x / ulp x)) * ulp x).

(** [a + b], [a - b], [a * b] and [a / b] on doubles. *)
Definition fadd (a b : Q) : Q := rnd (a + b).
Definition fsub (a b : Q) : Q := rnd (a - b).
Definition fmul (a b : Q) : Q := rnd (a * b).
Definition fdiv (a b : Q) : Q := rnd (a / b).

(** Half the distance from 1 to the next double, [2^-53]. *)
Definition eps : Q := pow2 (-53).

(** The double nearest to a whole number. *)
Definition to_double (n : Z) : Z := Qfloor (rnd (inject_Z n)).

End Binary64.

(* ------------------------------------------------------------------ *)
(** ** ScoreAggregator: the webhook response reduced to [displayScore] *)

Module Aggregator.
Import JS.

(** The three running sums [P], [Neut], [Neg]. *)
Record sums : Type := mkSums { sP : Q; sNeut : Q; sNeg : Q }.

Definition zero_sums : sums := mkSums 0 0 0.

(** One iteration of [for (const obj of parsedAny)]:
    [if (typeof obj.Positive === "number") P += obj.Positive;] and so on. *)
Definition add_tally (acc : sums) (obj : json) : sums :=
  if is_object obj then
    mkSums
      (match number_prop obj "Positive" with Some q => sP acc + q | None => sP acc end)
      (match number_prop obj "Neutral" with Some q => sNeut acc + q | None => sNeut acc end)
      (match number_prop obj "Negative" with Some q => sNeg acc + q | None => sNeg acc end)
  else acc.

(** The single-object branch assigns instead of adding. *)
Definition set_tally (obj : json) : sums :=
  mkSums
    (match number_prop obj "Positive" with Some q => q | None => 0 end)
    (match number_prop obj "Neutral" with Some q => q | None => 0 end)
    (match number_prop obj "Negative" with Some q => q | None => 0 end).

(** [P], [Neut], [Neg] after the array/object dispatch of the serverless
    handlers ([if (Array.isArray(..)) .. else if (typeof parsedAny ===
    "object" && parsedAny) ..]). *)
Definition tally_sums (parsedAny : json) : sums :=
  match parsedAny with
  | JArr items => fold_left add_tally items zero_sums
  | JObj _ => set_tally parsedAny
  | _ => zero_sums
  end.

(** [const T = P + Neut + Neg || tweetsToSend.length || 0]. *)
Definition denominator (s : sums) (sent : nat) : Q :=
  or_else (sP s + sNeut s + sNeg s) (or_else (inject_Z (Z.of_nat sent)) 0).

(** [if (T > 0) displayScore = Math.round(((P - Neg + T) / (2 * T)) * 100)];
    [None] is the initial [null]. *)
Definition score_of_sums (s : sums) (sent : nat) : option Z :=
  let T := denominator s sent in
  if ltb 0 T
  then Some (Math_round (((sP s - sNeg s + T) / (2 * T)) * 100))
  else None.

(** The [try { JSON.parse .. } catch {}] block of the serverless handlers:
    [None] as input is a body that does not parse. *)
Definition displayScore (parsed : option json) (sent : nat) : option Z :=
  match parsed with
  | None => None
  | Some parsedAny => score_of_sums (tally_sums parsedAny) sent
  end.

(** The same block in src/server.js.  Its object branch tests only
    [typeof parsedAny === "object"], so a [null] body reaches
    [parsedAny.Positive], throws, and the [catch] leaves [null]. *)
Definition displayScore_server (parsed : option json) (sent : nat) : option Z :=
  match parsed with
  | None => None
  | Some JNull => None
  | Some parsedAny => score_of_sums (tally_sums parsedAny) sent
  end.

End Aggregator.

(* ------------------------------------------------------------------ *)
(** ** RenderConfig: raw environment strings to clamped values *)

Module Config.
Import JS.

Local Open Scope Z_scope.

Definition is_digit (c : ascii) : bool :=
  let n := Z.of_nat (nat_of_ascii c) in (48 <=? n) && (n <=? 57).

Definition digit_val (c : ascii) : Z := Z.of_nat (nat_of_ascii c) - 48.

(** The greedy [\d*] at the head of a string. *)
Fixpoint leading_digits (s : string) : list ascii :=
  match s with
  | EmptyString => []
  | String c rest => if is_digit c then c :: leading_digits rest else []
  end.

(** [s.match(/-?\d+/)]: the leftmost match, as its sign and its digits.
    At a ["-"] that no digit follows the optional sign backtracks to the
    empty string, the digits fail on the ["-"] itself, and the search
    moves on. *)
Fixpoint match_int (s : string) : option (bool * list ascii) :=
  match s with
  | EmptyString => None
  | String c rest =>
      if is_digit c then Some (false, c :: leading_digits rest)
      else
        match (if Ascii.eqb c "-" then leading_digits rest else []) with
        | [] => match_int rest
        | ds => Some (true, ds)
        end
  end.

(** The value of a run of decimal digits. *)
Definition digits_val (ds : list ascii) : Z :=
  fold_left (fun acc c => 10 * acc + digit_val c) ds 0.

(** [parseInt(m[0], 10)] on a match of [/-?\d+/]: the double nearest to
    the number the digits write, which is that number up to [2^53]. *)
Definition parseInt (m : bool * list ascii) : Z :=
  let (neg, ds) := m in
  Binary64.to_double (if neg then - digits_val ds else digits_val ds).

(** Magnitudes from here on round to an infinite double. *)
Definition double_overflow : Z := 2 ^ 1024 - 2 ^ 970.

(** [Number.isFinite(n)] for [n = parseInt(..)]. *)
Definition isFinite (n : Z) : bool := Z.abs n <? double_overflow.

(** [intish(v, def)], on the string [String(v ?? "")]. *)
Definition intish (v : string) (def : Z) : Z :=
  match match_int v with
  | Some m => if isFinite (parseInt m) then parseInt m else def
  | None => def
  end.

(** [Math.max(lo, Math.min(100, n))] on integers. *)
Definition clamp_from (lo n : Z) : Z := Z.max lo (Z.min 100 n).

Record thresholds : Type := mkThresholds { tSB : Z; tB : Z; tN : Z; tBU : Z }.

(** The threshold strings of the environment, after the destructuring
    defaults ["20"], ["40"], ["60"], ["80"] have replaced missing ones. *)
Record threshold_env : Type :=
  mkThresholdEnv { THRESH_SB : string; THRESH_B : string;
                   THRESH_N : string; THRESH_BU : string }.

Definition default_threshold_env : threshold_env :=
  mkThresholdEnv "20" "40" "60" "80".

(** The chained construction of [renderGaugeBuffer] (src/server.js),
    [renderCardPNG] (src/api/index.mjs) and the canvas handlers:
    [tB = Math.max(tSB, Math.min(100, intish(THRESH_B, 40)))], ... *)
Definition chained_thresholds (e : threshold_env) : thresholds :=
  let sb := clamp_from 0 (intish (THRESH_SB e) 20) in
  let b := clamp_from sb (intish (THRESH_B e) 40) in
  let n := clamp_from b (intish (THRESH_N e) 60) in
  let bu := clamp_from n (intish (THRESH_BU e) 80) in
  mkThresholds sb b n bu.

(** The [env] object the [/fetch] route of the canvas router
    (src/api/logout.js) hands to [gaugeHtml]: every threshold is
    [Math.max(0, Math.min(100, intish(..)))]. *)
Definition fetch_env_thresholds (e : threshold_env) : thresholds :=
  mkThresholds (clamp_from 0 (intish (THRESH_SB e) 20))
               (clamp_from 0 (intish (THRESH_B e) 40))
               (clamp_from 0 (intish (THRESH_N e) 60))
               (clamp_from 0 (intish (THRESH_BU e) 80)).

(** The invariant the data model asks of a threshold record. *)
Definition ordered (t : thresholds) : Prop :=
  0 <= tSB t /\ tSB t <= tB t /\ tB t <= tN t /\ tN t <= tBU t /\ tBU t <= 100.

Local Open Scope Q_scope.

(** [Math.max(lo, Number(v) || dflt)]; the argument is [Number(v)], with
    [None] for [NaN]. *)
Definition number_or_at_least (lo : Q) (n : option Q) (dflt : Q) : Q :=
  Math_max lo (match n with
               | Some q => or_else q dflt
               | None => dflt
               end).

(** Layout and overlay strings of the environment, the two needle
    variables already through [Number(..)]. *)
Record layout_env : Type :=
  mkLayoutEnv {
    GAUGE_LEFT : string; GAUGE_RIGHT : string;
    GAUGE_TOP : string; GAUGE_BOTTOM : string;
    NEEDLE_LEN_SCALE : option Q; NEEDLE_WIDTH_FRAC : option Q;
    PFP_X : string; PFP_Y : string; PFP_SIZE : string;
    HANDLE_X : string; HANDLE_Y : string; HANDLE_FONT_PX : string;
    HANDLE_COLOR : string }.

Definition default_layout_env : layout_env :=
  mkLayoutEnv "500" "500" "100" "400" (Some 1) (Some (25 # 1000))
              "175" "200" "100" "300" "200" "70" "#ffffff".

Record RenderConfig : Type :=
  mkRenderConfig {
    left : Z; right : Z; top : Z; bottom : Z;
    needleScale : Q; needleWidthFrac : Q;
    pfp_x : Z; pfp_y : Z; pfp_size : Z;
    handle_x : Z; handle_y : Z; handle_fontPx : Z; handle_color : string }.

(** [String(HANDLE_COLOR || "#ffffff")]. *)
Definition color_or_white (c : string) : string :=
  match c with EmptyString => "#ffffff" | _ => c end.

Definition render_config (e : layout_env) : RenderConfig :=
  mkRenderConfig
    (intish (GAUGE_LEFT e) 0) (intish (GAUGE_RIGHT e) 0)
    (intish (GAUGE_TOP e) 0) (intish (GAUGE_BOTTOM e) 0)
    (number_or_at_least (1 # 10) (NEEDLE_LEN_SCALE e) 1)
    (number_or_at_least (3 # 1000) (NEEDLE_WIDTH_FRAC e) (25 # 1000))
    (intish (PFP_X e) 32) (intish (PFP_Y e) 32) (Z.max 1 (intish (PFP_SIZE e) 96))
    (intish (HANDLE_X e) 144) (intish (HANDLE_Y e) 48)
    (Z.max 8 (intish (HANDLE_FONT_PX e) 36))
    (color_or_white (HANDLE_COLOR e)).

End Config.

(* ------------------------------------------------------------------ *)
(** ** StateClassifier: the background chosen for a score *)

Module Classifier.
Import JS Config.

Inductive SentimentState : Type :=
| StronglyBearish | Bearish | Neutral | Bullish | StronglyBullish.

(** The background asset of each state. *)
Definition background (st : SentimentState) : string :=
  match st with
  | StronglyBearish => "strongly-bearish.png"
  | Bearish => "bearish.png"
  | Neutral => "neutral.png"
  | Bullish => "bullish.png"
  | StronglyBullish => "strongly-bullish.png"
  end.

(** [Math.max(0, Math.min(100, score))]. *)
Definition clamp_score (score : Q) : Q := Math_max 0 (Math_min 100 score).

(** The [bgFile] chain, on the clamped score [s]. *)
Definition bgFile (s : Q) (t : thresholds) : string :=
  if geb s (inject_Z (tSB t)) && ltb s (inject_Z (tB t)) then "bearish.png"
  else if geb s (inject_Z (tB t)) && ltb s (inject_Z (tN t)) then "neutral.png"
  else if geb s (inject_Z (tN t)) && ltb s (inject_Z (tBU t)) then "bullish.png"
  else if geb s (inject_Z (tBU t)) then "strongly-bullish.png"
  else "strongly-bearish.png".

(** The band of the specification a state stands for. *)
Definition band (st : SentimentState) (s : Q) (t : thresholds) : Prop :=
  match st with
  | StronglyBearish => 0 <= s /\ s < inject_Z (tSB t)
  | Bearish => inject_Z (tSB t) <= s /\ s < inject_Z (tB t)
  | Neutral => inject_Z (tB t) <= s /\ s < inject_Z (tN t)
  | Bullish => inject_Z (tN t) <= s /\ s < inject_Z (tBU t)
  | StronglyBullish => inject_Z (tBU t) <= s /\ s <= 100
  end.

Definition default_thresholds : thresholds :=
  chained_thresholds default_threshold_env.

End Classifier.

(* ------------------------------------------------------------------ *)
(** ** GaugeGeometry: box, centre, radius, stroke widths, needle radii *)

Module Geometry.
Import JS Config.

Record rect : Type := mkRect { rect_x : Z; rect_y : Z; rect_w : Z; rect_h : Z }.

(** [rect = { x: left, y: top, w: Math.max(0, width - left - right),
    h: Math.max(0, height - top - bottom) }]. *)
Definition gauge_rect (width height : Z) (c : RenderConfig) : rect :=
  mkRect (left c) (top c)
         (Z.max 0 (width - left c - right c))
         (Z.max 0 (height - top c - bottom c)).

(** [rect.w / 2]. *)
Definition half_width (b : rect) : Q := inject_Z (rect_w b) / 2.

(** [r = Math.max(1, Math.min(rect.w / 2, rect.h))]. *)
Definition radius (b : rect) : Q :=
  Math_max 1 (Math_min (half_width b) (inject_Z (rect_h b))).

(** [cx = Math.round(rect.x + rect.w / 2)]. *)
Definition center_x (b : rect) : Z :=
  Math_round (inject_Z (rect_x b) + half_width b).

(** [cy = Math.round(rect.y + rect.h)]. *)
Definition center_y (b : rect) : Z :=
  Math_round (inject_Z (rect_y b) + inject_Z (rect_h b)).

(** [trackW = Math.max(6, Math.round(r * 0.11))]. *)
Definition trackW (r : Q) : Z := Z.max 6 (Math_round (r * (11 # 100))).

(** [valueW = Math.max(4, Math.round(r * 0.08))]. *)
Definition valueW (r : Q) : Z := Z.max 4 (Math_round (r * (8 # 100))).

Definition start_angle : Q := Math_PI.
Definition end_angle : Q := 2 * Math_PI.

(** [thetaEnd = start + (s / 100) * (end - start)], also the needle angle. *)
Definition thetaEnd (s : Q) : Q :=
  start_angle + (s / 100) * (end_angle - start_angle).

(** [capAngle = (valueW / 2) / r]. *)
Definition capAngle (r : Q) : Q := (inject_Z (valueW r) / 2) / r.

(** [r1_def = r - Math.max(10, Math.round(r * 0.30))]. *)
Definition r1_def (r : Q) : Q := r - inject_Z (Z.max 10 (Math_round (r * (30 # 100)))).

(** [r2_def = r + Math.max(8, Math.round(r * 0.05))]. *)
Definition r2_def (r : Q) : Q := r + inject_Z (Z.max 8 (Math_round (r * (5 # 100)))).

Definition mid_def (r : Q) : Q := (r1_def r + r2_def r) / 2.
Definition halfLen_def (r : Q) : Q := (r2_def r - r1_def r) / 2.

(** [halfLen_new = halfLen_def * needleScale], rounded to a double as the
    product of a quarter number and an arbitrary scale is. *)
Definition halfLen_new (r scale : Q) : Q :=
  Binary64.fmul (halfLen_def r) scale.

(** The rescaled needle radii [r1n = mid_def - halfLen_new] and
    [r2n = mid_def + halfLen_new], each rounded to a double. *)
Definition r1n (r scale : Q) : Q := Binary64.fsub (mid_def r) (halfLen_new r scale).
Definition r2n (r scale : Q) : Q := Binary64.fadd (mid_def r) (halfLen_new r scale).

(** [Math.max(2, Math.round(r * needleWidthFrac))]. *)
Definition needle_width (r frac : Q) : Z := Z.max 2 (Math_round (r * frac)).

End Geometry.

(* ------------------------------------------------------------------ *)
(** ** GaugeRenderer: the draw calls of the three renderers *)

Module Renderer.
Import JS Config Classifier Geometry.

Local Open Scope list_scope.

Inductive lineCap : Type := CapRound | CapButt.

Definition rgb : Type := (Z * Z * Z)%type.

(** A [strokeStyle]: ['rgb(r,g,b)'], a hex colour, or a conic gradient
    with its start angle and colour stops. *)
Inductive paint : Type :=
| Rgb (c : rgb)
| Hex (s : string)
| ConicGradient (startAngle : Q) (stops : list (Q * rgb)).

(** An image source: a background asset, by its file name under the
    assets directory, or the avatar. *)
Inductive image : Type :=
| BackgroundArt (file : string)
| Avatar.

(** One call on the 2D context, with the context state it is issued
    under ([lineCap], [lineWidth], [strokeStyle]) written out.  [Arc] is
    [beginPath(); arc(cx, cy, r, a0, a1, false); stroke()].  [Line] is the
    needle stroke from [(cx + cos(a) * r1, cy + sin(a) * r1)] to
    [(cx + cos(a) * r2, cy + sin(a) * r2)], kept in polar form.
    [FillText] carries the pixel size of [ctx.font], not its family. *)
Inductive drawop : Type :=
| ClearRect (w h : Z)
| DrawImage (img : image) (x y w h : Z)
| FillText (text : string) (x y fontPx : Z) (color : string)
| Arc (cap : lineCap) (width : Z) (style : paint) (cx cy : Z) (r a0 a1 : Q)
| Line (cap : lineCap) (width : Z) (style : paint) (cx cy : Z) (a r1 r2 : Q).

Definition C_RED : rgb := (217, 83, 79)%Z.
Definition C_ORG : rgb := (240, 173, 78)%Z.
Definition C_GRN : rgb := (92, 184, 92)%Z.

(** Centre and radius, as every renderer derives them from the image size
    and the insets. *)
Record frame : Type := mkFrame { f_cx : Z; f_cy : Z; f_r : Q }.

Definition frame_of (width height : Z) (c : RenderConfig) : frame :=
  let b := gauge_rect width height c in
  mkFrame (center_x b) (center_y b) (radius b).

(** *** The canvas script of the gauge page (client side) *)

Definition drawTrack (f : frame) : list drawop :=
  [Arc CapRound (trackW (f_r f)) (Hex "#090f00") (f_cx f) (f_cy f) (f_r f)
       start_angle end_angle].

Definition drawValue (f : frame) (v : Q) : list drawop :=
  let te := thetaEnd v in
  let cap := capAngle (f_r f) in
  let w := valueW (f_r f) in
  if leb te (start_angle + cap)
  then [Arc CapRound w (Rgb C_RED) (f_cx f) (f_cy f) (f_r f) start_angle te]
  else
    [Arc CapRound w (Rgb C_RED) (f_cx f) (f_cy f) (f_r f)
         start_angle (start_angle + cap);
     Arc CapButt w
         (ConicGradient (start_angle + cap + (1 # 10000))
                        [(0, C_RED); (1 # 2, C_ORG); (1, C_GRN)])
         (f_cx f) (f_cy f) (f_r f) (start_angle + cap) te].

Definition drawNeedle (f : frame) (c : RenderConfig) (v : Q) : list drawop :=
  [Line CapRound (needle_width (f_r f) (needleWidthFrac c)) (Hex "#e6e6e8")
        (f_cx f) (f_cy f) (thetaEnd v)
        (r1n (f_r f) (needleScale c)) (r2n (f_r f) (needleScale c))].

(** The avatar layer: drawn when the session has an avatar and it loaded. *)
Definition avatar_layer (c : RenderConfig) (drawn : bool) : list drawop :=
  if drawn
  then [DrawImage Avatar (pfp_x c) (pfp_y c) (pfp_size c) (pfp_size c)]
  else [].

(** The inline script of the gauge page of the canvas handler, run on a
    background of [width] x [height] pixels: [bg] is the asset behind
    [CFG.bg], [pfpPresent] is [CFG.pfp.present], [pfpLoaded] is
    [pfp.width && pfp.height]. *)
Definition canvas_script (displayScore : Z) (c : RenderConfig) (bg : string)
    (username : string) (pfpPresent pfpLoaded : bool) (width height : Z)
  : list drawop :=
  let value := clamp_score (inject_Z displayScore) in
  let f := frame_of width height c in
  [ClearRect width height; DrawImage (BackgroundArt bg) 0 0 width height]
    ++ avatar_layer c (pfpPresent && pfpLoaded)
    ++ [FillText ("@" ++ username)%string (handle_x c) (handle_y c) (handle_fontPx c)
                 (handle_color c)]
    ++ drawTrack f ++ drawValue f value ++ drawNeedle f c value.

(** What the canvas handler answers once the webhook has replied. *)
Inductive page : Type :=
| GaugePage (displayScore : Z) (bg : string) (c : RenderConfig)
| WebhookDebugPage.

(** [if (displayScore !== null) { .. gauge page .. }] and the plain page
    after it. *)
Definition fetch_page (parsed : option json) (sent : nat)
    (te : threshold_env) (le : layout_env) : page :=
  match Aggregator.displayScore parsed sent with
  | Some d =>
      GaugePage d (bgFile (clamp_score (inject_Z d)) (chained_thresholds te))
                (render_config le)
  | None => WebhookDebugPage
  end.

(** *** Server-side assets *)

Inductive render_error : Type :=
| MissingBackgroundAsset (file : string)
| ImageLoadError.

Inductive result (A : Type) : Type :=
| Ok (a : A)
| Err (e : render_error).
Arguments Ok {A} a.
Arguments Err {A} e.

(** The background file on disk: absent, present but rejected by
    [loadImage], or decoded with its size. *)
Inductive background_file : Type :=
| BgMissing
| BgUndecodable
| BgLoaded (w h : Z).

(** The avatar download: [fetch] throws, answers a non-2xx status, the
    bytes do not decode, or the image is there. *)
Inductive avatar_fetch : Type :=
| FetchThrows
| FetchNotOk
| DecodeThrows
| AvatarLoaded.

Record assets : Type := mkAssets { bg_file : background_file; avatar : avatar_fetch }.

(** The avatar block [if (url) { try { .. } catch { .. } }]: the image is
    drawn only when every step succeeded. *)
Definition avatar_drawn (url : string) (a : assets) : bool :=
  match url, avatar a with
  | EmptyString, _ => false
  | _, AvatarLoaded => true
  | _, _ => false
  end.

(** [w || dflt] on an image dimension. *)
Definition dim_or (w dflt : Z) : Z := if (w =? 0)%Z then dflt else w.

(** *** [renderCardPNG] (src/api/index.mjs) *)

Definition segs : Z := 24.

(** [c0 + (c1 - c0) * u], channel by channel. *)
Definition blend (c0 c1 : rgb) (u : Q) : Q * Q * Q :=
  let '(r0, g0, b0) := c0 in
  let '(r1, g1, b1) := c1 in
  (inject_Z r0 + (inject_Z r1 - inject_Z r0) * u,
   inject_Z g0 + (inject_Z g1 - inject_Z g0) * u,
   inject_Z b0 + (inject_Z b1 - inject_Z b0) * u).

(** [colAt(t)] over [gradStops]. *)
Definition colAt (t : Q) : Q * Q * Q :=
  if leb t (1 # 2)
  then blend C_RED C_ORG (t / (1 # 2))
  else blend C_ORG C_GRN ((t - (1 # 2)) / (1 # 2)).

(** The [mid] colour of [strokeArc]: the rounded mean of two colours. *)
Definition mid_color (c1 c2 : Q * Q * Q) : rgb :=
  let '(r0, g0, b0) := c1 in
  let '(r1, g1, b1) := c2 in
  (Math_round ((r0 + r1) / 2), Math_round ((g0 + g1) / 2),
   Math_round ((b0 + b1) / 2)).

(** [strokeArc(c1, c2, a0, a1)], under [lineCap = "round"] and
    [lineWidth = valueW]. *)
Definition strokeArc (f : frame) (c1 c2 : Q * Q * Q) (a0 a1 : Q) : drawop :=
  Arc CapRound (valueW (f_r f)) (Rgb (mid_color c1 c2))
      (f_cx f) (f_cy f) (f_r f) a0 a1.

(** The body of [for (let i = 0; i < segs; i++)], from index [i] with
    [todo = segs - i] iterations left. *)
Fixpoint segment_loop (todo : nat) (i : Z) (f : frame)
    (usableStart span te : Q) : list drawop :=
  match todo with
  | O => []
  | S todo' =>
      let t0 := inject_Z i / inject_Z segs in
      let t1 := inject_Z (i + 1) / inject_Z segs in
      let a0 := usableStart + t0 * span in
      let a1 := usableStart + t1 * span in
      if geb a0 te then []
      else
        strokeArc f (colAt t0) (colAt t1) a0 (Math_min a1 te)
          :: (if geb a1 te then []
              else segment_loop todo' (i + 1) f usableStart span te)
  end.

(** The slices after the cap segment: [if (thetaEnd > start + capAngle)]. *)
Definition value_segments (f : frame) (s : Q) : list drawop :=
  let te := thetaEnd s in
  let cap := capAngle (f_r f) in
  if ltb (start_angle + cap) te
  then segment_loop (Z.to_nat segs) 0 f (start_angle + cap)
                    ((end_angle - start_angle) - cap) te
  else [].

(** Track, cap segment and slices of [renderCardPNG]. *)
Definition card_track (f : frame) : list drawop :=
  [Arc CapRound (trackW (f_r f)) (Hex "#090f00") (f_cx f) (f_cy f) (f_r f)
       start_angle end_angle].

Definition card_value (f : frame) (s : Q) : list drawop :=
  Arc CapRound (valueW (f_r f)) (Rgb C_RED) (f_cx f) (f_cy f) (f_r f)
      start_angle (Math_min (thetaEnd s) (start_angle + capAngle (f_r f)))
    :: value_segments f s.

Definition card_needle (f : frame) (c : RenderConfig) (s : Q) : list drawop :=
  [Line CapRound (needle_width (f_r f) (needleWidthFrac c)) (Hex "#e6e6e8")
        (f_cx f) (f_cy f) (thetaEnd s)
        (r1n (f_r f) (needleScale c)) (r2n (f_r f) (needleScale c))].

(** [username ? `@${username}` : ""]. *)
Definition handleText (username : string) : string :=
  match username with
  | EmptyString => ""
  | _ => ("@" ++ username)%string
  end.

(** [renderCardPNG({ score, username, pfpUrl })]: the draw calls behind the
    PNG buffer, or the error the call rejects with. *)
Definition renderCardPNG (te : threshold_env) (le : layout_env)
    (score : Q) (username pfpUrl : string) (a : assets)
  : result (list drawop) :=
  let s := clamp_score (or_else score 0) in
  let file := bgFile s (chained_thresholds te) in
  match bg_file a with
  | BgMissing => Err (MissingBackgroundAsset file)
  | BgUndecodable => Err ImageLoadError
  | BgLoaded bw bh =>
      let width := dim_or bw 1200 in
      let height := dim_or bh 628 in
      let c := render_config le in
      let f := frame_of width height c in
      Ok ([DrawImage (BackgroundArt file) 0 0 width height]
            ++ avatar_layer c (avatar_drawn pfpUrl a)
            ++ [FillText (handleText username) (handle_x c) (handle_y c)
                         (handle_fontPx c) (handle_color c)]
            ++ card_track f ++ card_value f s ++ card_needle f c s)
  end.

(** *** [renderGaugeBuffer] and its routes (src/server.js) *)

(** The [lastScore] member of the session cookie after its JSON round
    trip: absent, [null], or a number. *)
Inductive stored_score : Type :=
| ScoreAbsent
| ScoreNull
| ScoreNum (z : Z).

Record session : Type :=
  mkSession { username : string; profileImageUrl : string;
              lastScore : stored_score }.

(** [s = Math.max(0, Math.min(100, Number(lastScore) || 0))] under the
    destructuring default [lastScore = 50], which replaces only a missing
    member; [Number(null)] is [0]. *)
Definition gauge_score (l : stored_score) : Q :=
  clamp_score
    (or_else (match l with
              | ScoreAbsent => 50
              | ScoreNull => 0
              | ScoreNum z => inject_Z z
              end) 0).

Definition renderGaugeBuffer (te : threshold_env) (le : layout_env)
    (sess : session) (a : assets) : result (list drawop) :=
  let s := gauge_score (lastScore sess) in
  let file := bgFile s (chained_thresholds te) in
  match bg_file a with
  | BgMissing | BgUndecodable => Err ImageLoadError
  | BgLoaded W H =>
      let c := render_config le in
      let f := frame_of W H c in
      Ok ([DrawImage (BackgroundArt file) 0 0 W H]
            ++ avatar_layer c (avatar_drawn (profileImageUrl sess) a)
            ++ [FillText ("@" ++ username sess)%string (handle_x c) (handle_y c)
                         (handle_fontPx c) (handle_color c)]
            ++ card_needle f c s)
  end.

Inductive response : Type :=
| Redirect (location : string)
| Html (p : page)
| Png (calls : list drawop)
| Status (code : Z).

(** [sess.lastScore = displayScore], as the cookie stores it. *)
Definition store_score (d : option Z) : stored_score :=
  match d with
  | Some z => ScoreNum z
  | None => ScoreNull
  end.

(** [app.get("/fetch")] past its session guard: the session it saves and
    its answer. *)
Definition server_fetch (sess : session) (parsed : option json) (sent : nat)
  : session * response :=
  let d := Aggregator.displayScore_server parsed sent in
  (mkSession (username sess) (profileImageUrl sess) (store_score d),
   match d with
   | None => Html WebhookDebugPage
   | Some _ => Redirect "/preview"
   end).

(** [app.get("/gauge")]. *)
Definition server_gauge (te : threshold_env) (le : layout_env)
    (sess : session) (a : assets) : response :=
  match username sess with
  | EmptyString => Redirect "/"
  | _ =>
      match renderGaugeBuffer te le sess a with
      | Ok calls => Png calls
      | Err _ => Status 500
      end
  end.

(** The [/card.png] route of src/api/index.mjs: the render cookie exists
    only after a [/fetch] that computed a score, and a cookie whose score
    is not a number is refused. *)
Definition card_png (te : threshold_env) (le : layout_env)
    (rc : option (option Z * string * string)) (a : assets) : response :=
  match rc with
  | Some (Some score, user, pfp) =>
      match renderCardPNG te le (inject_Z score) user pfp a with
      | Ok calls => Png calls
      | Err _ => Status 500
      end
  | _ => Status 400
  end.

(** *** Layers *)

Inductive layer : Type :=
| LBackground | LAvatar | LHandle | LTrack | LValue | LNeedle.

(** The layer a draw call paints: the track is the arc stroked in
    [#090f00], every other arc belongs to the value arc. *)
Definition layer_of (op : drawop) : layer :=
  match op with
  | ClearRect _ _ => LBackground
  | DrawImage (BackgroundArt _) _ _ _ _ => LBackground
  | DrawImage Avatar _ _ _ _ => LAvatar
  | FillText _ _ _ _ _ => LHandle
  | Arc _ _ (Hex _) _ _ _ _ _ => LTrack
  | Arc _ _ _ _ _ _ _ _ => LValue
  | Line _ _ _ _ _ _ _ _ => LNeedle
  end.

Definition layer_eqb (a b : layer) : bool :=
  match a, b with
  | LBackground, LBackground | LAvatar, LAvatar | LHandle, LHandle
  | LTrack, LTrack | LValue, LValue | LNeedle, LNeedle => true
  | _, _ => false
  end.

(** Runs of calls on one layer count once. *)
Fixpoint squash (ls : list layer) : list layer :=
  match ls with
  | [] => []
  | a :: rest =>
      match rest with
      | b :: _ => if layer_eqb a b then squash rest else a :: squash rest
      | [] => [a]
      end
  end.

Definition layers (calls : list drawop) : list layer :=
  squash (map layer_of calls).

(** The calls that paint one layer. *)
Definition on_layer (l : layer) (calls : list drawop) : list drawop :=
  filter (fun op => layer_eqb (layer_of op) l) calls.

(** The angles an arc call starts and ends at. *)
Definition arc_from (op : drawop) : option Q :=
  match op with
  | Arc _ _ _ _ _ _ a0 _ => Some a0
  | _ => None
  end.

Definition arc_to (op : drawop) : option Q :=
  match op with
  | Arc _ _ _ _ _ _ _ a1 => Some a1
  | _ => None
  end.

End Renderer.

(* ------------------------------------------------------------------ *)
(** ** The specification's reading of the aggregator *)

Module Spec.
Import JS.

(** A well-formed tally, as the scorer sends it. *)
Definition tally (p n g : Q) : json :=
  JObj [("Positive", JNum p); ("Neutral", JNum n); ("Negative", JNum g)].

(** A single object is a sequence of length one. *)
Definition tallies (input : json) : list json :=
  match input with
  | JArr items => items
  | JObj _ => [input]
  | _ => []
  end.

(** A field of a tally; a missing or non-numeric field contributes 0. *)
Definition field (k : string) (obj : json) : Q :=
  match number_prop obj k with
  | Some q => q
  | None => 0
  end.

(** The sum of one field over all the tallies of the input. *)
Definition total (k : string) (input : json) : Q :=
  fold_right Qplus 0 (map (field k) (tallies input)).

(** [round(((P - Neg + T) / (2T)) * 100)] with [T = P + Neu + Neg]. *)
Definition score (P Neu Neg : Q) : Z :=
  Math_round (((P - Neg + (P + Neu + Neg)) / (2 * (P + Neu + Neg))) * 100).






(** The slices of the segmented backend: slice [i] of [n] equal slices of
    the span that starts at [from] begins at [from + (i/n) * span]; the
    ramp position of its midpoint is [(i + 1/2) / n]. *)
Definition slice_start (from span : Q) (n i : Z) : Q :=
  from + inject_Z i / inject_Z n * span.


End Spec.

(* ------------------------------------------------------------------ *)
(** ** Concrete inputs *)

Module Examples.
Import JS Config Renderer.

(** Two scored posts: 5 positive, 1 neutral and 4 negative in all. *)
Definition two_tallies : json := JArr [Spec.tally 3 1 1; Spec.tally 2 0 3].


(** Thresholds given out of order: the second below the first. *)
Definition unordered_env : threshold_env := mkThresholdEnv "50" "40" "60" "80".

(** A signed-in user without avatar who has no score yet. *)
Definition fresh_session : session := mkSession "u" "" ScoreAbsent.

(** A 1600 x 900 background that loads; the avatar download is refused. *)
Definition good_background : assets := mkAssets (BgLoaded 1600 900) FetchNotOk.

(** The background file is not on disk; the avatar is fine. *)
Definition missing_background : assets := mkAssets BgMissing AvatarLoaded.

(** The frame of a 1600 x 900 background under the default insets:
    centre (800, 500), radius 300. *)
Definition default_frame : frame :=
  frame_of 1600 900 (render_config default_layout_env).

End Examples.

(* ------------------------------------------------------------------ *)
(** ** The order of the sentiment states *)

Module Bands.
Import Classifier.

(** The five states from most bearish to most bullish. *)
Definition rank (st : SentimentState) : nat :=
  match st with
  | StronglyBearish => 0
  | Bearish => 1
  | Neutral => 2
  | Bullish => 3
  | StronglyBullish => 4
  end.

End Bands.

(* ------------------------------------------------------------------ *)
(** ** Shapes of configuration strings *)

Module Shapes.
Import Config.

(** A string made of decimal digits only. *)
Definition all_digits (s : string) : bool :=
  forallb is_digit (list_ascii_of_string s).

(** A string that does not start with a digit. *)
Definition no_leading_digit (s : string) : bool :=
  match s with
  | EmptyString => true
  | String c _ => negb (is_digit c)
  end.

(** A string the search steps over one character at a time: it holds
    neither a digit nor a minus sign. *)
Definition skipped (s : string) : bool :=
  forallb (fun c => negb (is_digit c) && negb (Ascii.eqb c "-"))
          (list_ascii_of_string s).

(** No digit anywhere. *)
Definition digit_free (s : string) : bool :=
  negb (existsb is_digit (list_ascii_of_string s)).

End Shapes.

(* ------------------------------------------------------------------ *)
(** ** Collecting the posts: the paging loops of the [/fetch] routes *)

Module Pagination.
Import JS.

Local Open Scope list_scope.

(** One answer of the posts API: a failure ([!resp.ok], which the source
    turns into a throw), or a page with [data.tweets] (the empty list when
    it is not an array), the truthiness of [has_next_page], and
    [next_cursor], the empty string standing for a missing one. *)
Inductive api_reply : Type :=
| ApiFailure
| ApiPage (tweets : list json) (has_next_page : bool) (next_cursor : string).

(** The API as the loop sees it: its answer to call number [n], made with
    a cursor (the empty string when no cursor parameter is set). *)
Definition api : Type := nat -> string -> api_reply.

(** [desired = Math.max(1, Number(TWEET_COUNT) || 50)]. *)
Definition desired (tweet_count : option Q) : Q :=
  Config.number_or_at_least 1 tweet_count 50.

(** [collected.length < desired]. *)
Definition wants_more (collected : list json) (want : Q) : bool :=
  ltb (inject_Z (Z.of_nat (List.length collected))) want.

(** [!data.has_next_page || !data.next_cursor]. *)
Definition last_page (has_next : bool) (next : string) : bool :=
  negb has_next || String.eqb next "".

(** [collected.slice(0, desired)]: the end index is truncated to an
    integer. *)
Definition tweetsToSend (collected : list json) (want : Q) : list json :=
  firstn (Z.to_nat (Qfloor want)) collected.

Definition MAX_PAGES : nat := 5.

(** The posts collected so far and the cursors of the calls made. *)
Record fetched : Type :=
  mkFetched { collected : list json; requests : list string }.

(** The loop of the routers (src/api/index.mjs, src/api/logout.js), which
    counts its pages and sits in a [try] whose [catch] only logs.
    [left] is [MAX_PAGES - pages]: the loop breaks once [pages] reaches
    [MAX_PAGES]. *)
Fixpoint collect_router (left : nat) (a : api) (want : Q) (st : fetched)
    (cursor : string) : fetched :=
  match left with
  | O => st
  | S left' =>
      if wants_more (collected st) want then
        let asked := requests st ++ [cursor] in
        match a (List.length (requests st)) cursor with
        | ApiFailure => mkFetched (collected st) asked
        | ApiPage [] _ _ => mkFetched (collected st) asked
        | ApiPage page has_next next =>
            let st' := mkFetched (collected st ++ page) asked in
            if last_page has_next next then st'
            else collect_router left' a want st' next
        end
      else st
  end.

Definition router_fetch (a : api) (want : Q) : fetched :=
  collect_router MAX_PAGES a want (mkFetched [] []) "".

(** How a loop without page limit ends. *)
Inductive outcome : Type :=
| Collected (tweets : list json)
| Threw.

(** The loop of the canvas handlers (src/unnamed/part_000 and the like):
    no page limit, and a failure leaves through the outer [try].  [None]
    when [fuel] iterations did not end the loop; [call] numbers the
    requests. *)
Fixpoint collect_handler (fuel : nat) (a : api) (want : Q) (call : nat)
    (collected : list json) (cursor : string) : option outcome :=
  if wants_more collected want then
    match fuel with
    | O => None
    | S fuel' =>
        match a call cursor with
        | ApiFailure => Some Threw
        | ApiPage [] _ _ => Some (Collected collected)
        | ApiPage page has_next next =>
            if last_page has_next next then Some (Collected (collected ++ page))
            else collect_handler fuel' a want (S call) (collected ++ page) next
        end
    end
  else Some (Collected collected).

(** The loop of src/server.js: as above, without the break on an empty
    page. *)
Fixpoint collect_server (fuel : nat) (a : api) (want : Q) (call : nat)
    (collected : list json) (cursor : string) : option outcome :=
  if wants_more collected want then
    match fuel with
    | O => None
    | S fuel' =>
        match a call cursor with
        | ApiFailure => Some Threw
        | ApiPage page has_next next =>
            if last_page has_next next then Some (Collected (collected ++ page))
            else collect_server fuel' a want (S call) (collected ++ page) next
        end
    end
  else Some (Collected collected).

(** The pages the API hands out along a chain of calls. *)
Fixpoint pages_of (a : api) (call : nat) (cursors : list string) : list json :=
  match cursors with
  | [] => []
  | c :: rest =>
      match a call c with
      | ApiFailure => []
      | ApiPage page _ _ => page
      end ++ pages_of a (S call) rest
  end.

(** Each cursor after the first is the [next_cursor] of the answer
    before. *)
Fixpoint chained (a : api) (call : nat) (cursors : list string) : Prop :=
  match cursors with
  | [] => True
  | c :: rest =>
      match rest with
      | [] => True
      | c' :: _ =>
          (exists page has_next, a call c = ApiPage page has_next c')
          /\ chained a (S call) rest
      end
  end.

(** [Number(TWEET_COUNT)] in full: [NaN], a finite number, or an
    infinity (the strings ["Infinity"] and ["1e999"] give the positive
    one). *)
Inductive number : Type :=
| NaN
| Num (q : Q)
| PlusInfinity
| MinusInfinity.

(** The post count asked for: a finite number, or none when
    [Number(TWEET_COUNT)] is [Infinity]. *)
Inductive bound : Type :=
| Finite (want : Q)
| Unbounded.

(** [desired = Math.max(1, Number(TWEET_COUNT) || 50)] on every number:
    [NaN] is falsy, the infinities are truthy. *)
Definition desired_of (tweet_count : number) : bound :=
  match tweet_count with
  | NaN => Finite (desired None)
  | Num q => Finite (desired (Some q))
  | PlusInfinity => Unbounded
  | MinusInfinity => Finite 1
  end.

(** [collected.length < desired], also for [desired = Infinity]. *)
Definition wants_more_upto (collected : list json) (b : bound) : bool :=
  match b with
  | Finite want => wants_more collected want
  | Unbounded => true
  end.

(** The loop of the canvas handlers for every [desired]. *)
Fixpoint collect_handler_upto (fuel : nat) (a : api) (b : bound) (call : nat)
    (collected : list json) (cursor : string) : option outcome :=
  if wants_more_upto collected b then
    match fuel with
    | O => None
    | S fuel' =>
        match a call cursor with
        | ApiFailure => Some Threw
        | ApiPage [] _ _ => Some (Collected collected)
        | ApiPage page has_next next =>
            if last_page has_next next then Some (Collected (collected ++ page))
            else collect_handler_upto fuel' a b (S call) (collected ++ page) next
        end
    end
  else Some (Collected collected).

End Pagination.

(* ------------------------------------------------------------------ *)
(** ** Strings: the string methods the cookie and HTML helpers call

    A string is a sequence of one-byte characters, as header values and
    base64 text are. *)

Module Text.

Local Open Scope list_scope.

(** [s.split(sep)] for a one-character separator: never empty, the empty
    string giving one empty piece. *)
Fixpoint split_on (sep : ascii) (s : string) : list string :=
  match s with
  | EmptyString => [EmptyString]
  | String c rest =>
      if Ascii.eqb c sep then EmptyString :: split_on sep rest
      else
        match split_on sep rest with
        | piece :: pieces => String c piece :: pieces
        | [] => [String c EmptyString]
        end
  end.

(** [pieces.join(sep)]. *)
Definition join (sep : string) (pieces : list string) : string :=
  String.concat sep pieces.

(** The characters [trim()] removes, among those of one byte: tab, line
    feed, vertical tab, form feed, carriage return, space and the
    no-break space. *)
Definition is_space (c : ascii) : bool :=
  let n := nat_of_ascii c in
  ((9 <=? n) && (n <=? 13) || (n =? 32) || (n =? 160))%nat.

Fixpoint trim_start (s : string) : string :=
  match s with
  | EmptyString => EmptyString
  | String c rest => if is_space c then trim_start rest else s
  end.

Fixpoint trim_end (s : string) : string :=
  match s with
  | EmptyString => EmptyString
  | String c rest =>
      match trim_end rest with
      | EmptyString => if is_space c then EmptyString else String c EmptyString
      | kept => String c kept
      end
  end.

(** [s.trim()]. *)
Definition trim (s : string) : string := trim_end (trim_start s).

(** [s.lastIndexOf(c)], [-1] when [c] does not occur. *)
Fixpoint lastIndexOf (c : ascii) (s : string) : Z :=
  match s with
  | EmptyString => (-1)%Z
  | String c' rest =>
      let i := lastIndexOf c rest in
      if (0 <=? i)%Z then (i + 1)%Z
      else if Ascii.eqb c' c then 0%Z else (-1)%Z
  end.

(** [s.slice(0, to)] and [s.slice(from)], for indices within the string. *)
Definition slice_to (s : string) (to : Z) : string :=
  substring 0 (Z.to_nat to) s.

Definition slice_from (s : string) (from : Z) : string :=
  substring (Z.to_nat from) (String.length s - Z.to_nat from) s.

(** The character [c] occurs in [s]. *)
Definition occurs (c : ascii) (s : string) : bool :=
  existsb (Ascii.eqb c) (list_ascii_of_string s).

(** [s.replace(/c/g, d)]: every [c] becomes [d]. *)
Fixpoint replace_all (c d : ascii) (s : string) : string :=
  match s with
  | EmptyString => EmptyString
  | String x rest =>
      String (if Ascii.eqb x c then d else x) (replace_all c d rest)
  end.

End Text.

(* ------------------------------------------------------------------ *)
(** ** [escapeHtml] (src/api/index.mjs, src/api/logout.js) *)

Module Html.

Definition quot : ascii := ascii_of_nat 34.
Definition apos : ascii := ascii_of_nat 39.

(** The replacement of one character under the class of the source:
    ampersand, less-than, greater-than, double quote, apostrophe. *)
Definition entity (c : ascii) : string :=
  if Ascii.eqb c "&" then "&amp;"
  else if Ascii.eqb c "<" then "&lt;"
  else if Ascii.eqb c ">" then "&gt;"
  else if Ascii.eqb c quot then "&quot;"
  else if Ascii.eqb c apos then "&#39;"
  else String c EmptyString.

Fixpoint escapeHtml (s : string) : string :=
  match s with
  | EmptyString => EmptyString
  | String c rest => entity c ++ escapeHtml rest
  end.

(** [bodyText.replace(/</g, "&lt;")], the escaping of the plain page of
    src/server.js. *)
Fixpoint escape_lt (s : string) : string :=
  match s with
  | EmptyString => EmptyString
  | String c rest =>
      (if Ascii.eqb c "<" then "&lt;" else String c EmptyString) ++ escape_lt rest
  end.

(** The characters that open or close markup or an attribute value. *)
Definition markup (c : ascii) : bool :=
  Ascii.eqb c "<" || Ascii.eqb c ">" || Ascii.eqb c quot || Ascii.eqb c apos.

(** The characters [escapeHtml] rewrites. *)
Definition special (c : ascii) : bool := Ascii.eqb c "&" || markup c.

End Html.

(* ------------------------------------------------------------------ *)
(** ** The session token of the canvas handlers (api/_utils/session.js,
    in src/unnamed/part_001) *)

Module SessionCodec.
Import JS Text.

Local Open Scope list_scope.

(** [s.replace(/=+$/g, "")]: the run of [=] at the end goes. *)
Fixpoint strip_padding (s : string) : string :=
  match s with
  | EmptyString => EmptyString
  | String c rest =>
      match strip_padding rest with
      | EmptyString => if Ascii.eqb c "=" then EmptyString else String c EmptyString
      | kept => String c kept
      end
  end.

(** The three [replace] calls of [b64url], on the base64 text of the
    buffer. *)
Definition b64url_text (base64 : string) : string :=
  strip_padding (replace_all "/" "_" (replace_all "+" "-" base64)).

(** [while (s.length % 4) s += "="]: at most three passes. *)
Fixpoint pad_loop (passes : nat) (s : string) : string :=
  if (String.length s mod 4 =? 0)%nat then s
  else
    match passes with
    | O => s
    | S passes' => pad_loop passes' (s ++ "=")
    end.

(** The text [fromB64url] hands to the base64 decoder. *)
Definition base64_text (s : string) : string :=
  pad_loop 3 (replace_all "_" "/" (replace_all "-" "+" s)).

(** A character of the base64 alphabet. *)
Definition base64_char (c : ascii) : bool :=
  let n := nat_of_ascii c in
  ((65 <=? n) && (n <=? 90) || (97 <=? n) && (n <=? 122)
   || (48 <=? n) && (n <=? 57) || (n =? 43) || (n =? 47))%nat.

(** Base64 text as an encoder writes it: characters of the alphabet, then
    up to two [=], a multiple of four characters in all. *)
Fixpoint base64_body (s : string) : bool :=
  match s with
  | EmptyString => true
  | String c rest =>
      if base64_char c then base64_body rest
      else String.eqb s "=" || String.eqb s "=="
  end.

Definition base64_shape (s : string) : bool :=
  base64_body s && (String.length s mod 4 =? 0)%nat.

(** [v || null] on a parsed value: the falsy values are [null], [false],
    [0] and the empty string. *)
Definition or_null (v : json) : json :=
  match v with
  | JBool false => JNull
  | JNum q => if truthy q then v else JNull
  | JStr EmptyString => JNull
  | _ => v
  end.

(** [{ ...obj, iat }] on the members of an object without repeated keys:
    an [iat] member is overwritten in place, else added at the end. *)
Fixpoint put_member (members : list (string * json)) (k : string) (v : json)
  : list (string * json) :=
  match members with
  | [] => [(k, v)]
  | (k', v') :: rest =>
      if String.eqb k' k then (k, v) :: rest
      else (k', v') :: put_member rest k v
  end.

Section Primitives.

(** [Buffer.from(buf).toString("base64")] and [Buffer.from(s, "base64")],
    the HMAC-SHA256 of [crypto], and [JSON]; a buffer is the string of its
    bytes. *)
Variable base64_encode : string -> string.
Variable base64_decode : string -> string.
Variable hmac : string -> string -> string.
Variable JSON_stringify : json -> string.
Variable JSON_parse : string -> option json.

Definition b64url (buf : string) : string := b64url_text (base64_encode buf).

Definition fromB64url (s : string) : string := base64_decode (base64_text s).

(** The token [setSession] puts in the cookie, [now] being [Date.now()]. *)
Definition session_token (members : list (string * json)) (now : Z)
    (secret : string) : string :=
  let payload :=
    b64url (JSON_stringify
              (JObj (put_member members "iat" (JNum (inject_Z (now / 1000)))))) in
  payload ++ "." ++ b64url (hmac payload secret).

(** [getSession], from the value of the session cookie on ([None] when the
    cookie is missing); [JNull] is its [null]. *)
Definition getSession (token : option string) (secret : string) : json :=
  match token with
  | None => JNull
  | Some EmptyString => JNull
  | Some t =>
      match split_on "." t with
      | [payloadB64; sigB64] =>
          let expected := hmac payloadB64 secret in
          let got := fromB64url sigB64 in
          if (String.length expected =? String.length got)%nat
             && String.eqb expected got
          then
            match JSON_parse (fromB64url payloadB64) with
            | Some obj => or_null obj
            | None => JNull
            end
          else JNull
      | _ => JNull
      end
  end.

End Primitives.

End SessionCodec.

(* ------------------------------------------------------------------ *)
(** ** The signed cookies of the routers (src/api/index.mjs,
    src/api/logout.js) *)

Module Cookies.
Import JS Text.

Local Open Scope list_scope.

(** The cookies object: the pairs in the order they were assigned, a later
    assignment to a name overriding an earlier one.  Names that
    [Object.prototype] defines are outside the model. *)
Fixpoint cookie_value (cookies : list (string * string)) (name : string)
  : option string :=
  match cookies with
  | [] => None
  | (k, v) :: rest =>
      match cookie_value rest name with
      | Some v' => Some v'
      | None => if String.eqb k name then Some v else None
      end
  end.

(** The [Set-Cookie] header of a response: unset, one string, or an
    array. *)
Inductive set_cookie_header : Type :=
| NoHeader
| OneCookie (cookie : string)
| CookieList (cookies : list string).

(** The cookies a header carries. *)
Definition cookies_of (h : set_cookie_header) : list string :=
  match h with
  | NoHeader => []
  | OneCookie c => [c]
  | CookieList cs => cs
  end.

(** [if (prev) res.setHeader("Set-Cookie", Array.isArray(prev) ? [...prev,
    cookie] : [prev, cookie]); else res.setHeader("Set-Cookie", cookie)]:
    an empty string counts as unset, an empty array does not. *)
Definition add_cookie (prev : set_cookie_header) (cookie : string)
  : set_cookie_header :=
  match prev with
  | NoHeader => OneCookie cookie
  | OneCookie EmptyString => OneCookie cookie
  | OneCookie p => CookieList [p; cookie]
  | CookieList cs => CookieList (cs ++ [cookie])
  end.

(** The options of [setCookie], with their defaults; [maxAgeSec] is
    [None] when it is not a finite number. *)
Record cookie_options : Type :=
  mkCookieOptions { maxAgeSec : option Q; path : string; httpOnly : bool;
                    sameSite : string }.

Definition default_options (maxAge : option Q) : cookie_options :=
  mkCookieOptions maxAge "/" true "Lax".

(** The parts of the cookie string before [parts.join("; ")]; [useSecure]
    is the flag the source derives from the options and the request, and
    [max_age_text] is the text of [Math.max(0, Math.floor(maxAgeSec))]. *)
Definition cookie_parts (name value : string) (o : cookie_options)
    (useSecure : bool) (max_age_text : Z -> string) : list string :=
  [(name ++ "=" ++ value)%string; ("Path=" ++ path o)%string;
   ("SameSite=" ++ sameSite o)%string]
    ++ (if httpOnly o then ["HttpOnly"%string] else [])
    ++ (if useSecure then ["Secure"%string] else [])
    ++ match maxAgeSec o with
       | Some m => [("Max-Age=" ++ max_age_text (Z.max 0 (Qfloor m)))%string]
       | None => []
       end.

(** [parts.join("; ")]. *)
Definition cookie_string (name value : string) (o : cookie_options)
    (useSecure : bool) (max_age_text : Z -> string) : string :=
  join "; " (cookie_parts name value o useSecure max_age_text).

Definition setCookie (prev : set_cookie_header) (name value : string)
    (o : cookie_options) (useSecure : bool) (max_age_text : Z -> string)
  : set_cookie_header :=
  add_cookie prev (cookie_string name value o useSecure max_age_text).

(** One call of [setCookie]: the name, the value, the options and the
    [Secure] flag. *)
Record cookie_call : Type :=
  mkCookieCall { call_name : string; call_value : string;
                 call_options : cookie_options; call_secure : bool }.

(** A handler's calls of [setCookie] on one response, in order. *)
Definition set_cookies (max_age_text : Z -> string)
    (calls : list cookie_call) (h : set_cookie_header) : set_cookie_header :=
  fold_left
    (fun h c =>
       setCookie h (call_name c) (call_value c) (call_options c)
         (call_secure c) max_age_text)
    calls h.

(** A character [parseCookies] leaves where it is: no white space, no [;]
    and no [=]. *)
Definition token_char (c : ascii) : bool :=
  negb (is_space c) && negb (Ascii.eqb c ";") && negb (Ascii.eqb c "=").

Definition cookie_text (s : string) : bool :=
  forallb token_char (list_ascii_of_string s).

(** [clearCookie]: [setCookie(.., name, "", { maxAgeSec: 0 })]. *)
Definition clearCookie (prev : set_cookie_header) (name : string)
    (useSecure : bool) (max_age_text : Z -> string) : set_cookie_header :=
  setCookie prev name "" (default_options (Some 0)) useSecure max_age_text.

Section Primitives.

(** [decodeURIComponent] ([None] when it throws), the HMAC of [sign]
    already in base64url, [Buffer]'s base64url codec, and [JSON]. *)
Variable decodeURIComponent : string -> option string.
Variable sign : string -> string.
Variable b64url : string -> string.
Variable b64urlDecode : string -> string.
Variable JSON_stringify : json -> string.
Variable JSON_parse : string -> option json.

(** One pass of the loop of [parseCookies]:
    [[k, ...rest] = part.trim().split("=")] and
    [out[k] = decodeURIComponent(rest.join("=") || "")]. *)
Definition cookie_pair (part : string) : option (string * string) :=
  match split_on "=" (trim part) with
  | k :: rest =>
      match decodeURIComponent (join "=" rest) with
      | Some v => Some (k, v)
      | None => None
      end
  | [] => None
  end.

Fixpoint parse_parts (parts : list string) (out : list (string * string))
  : option (list (string * string)) :=
  match parts with
  | [] => Some out
  | part :: rest =>
      match cookie_pair part with
      | Some kv => parse_parts rest (out ++ [kv])
      | None => None
      end
  end.

(** [parseCookies(req)] on the [Cookie] header; [None] when
    [decodeURIComponent] throws. *)
Definition parseCookies (header : option string)
  : option (list (string * string)) :=
  match header with
  | None => Some []
  | Some EmptyString => Some []
  | Some h => parse_parts (split_on ";" h) []
  end.

(** [makeSignedCookie(payloadObj)]. *)
Definition makeSignedCookie (payloadObj : json) : string :=
  let payload := b64url (JSON_stringify payloadObj) in
  (payload ++ "." ++ sign payload)%string.

(** The body of [readSignedCookie] from [raw] on; [JNull] is its
    [null]. *)
Definition read_raw (raw : option string) : json :=
  match raw with
  | None => JNull
  | Some EmptyString => JNull
  | Some r =>
      let dot := lastIndexOf "." r in
      if (dot <? 0)%Z then JNull
      else
        let payload := slice_to r dot in
        let sig := slice_from r (dot + 1) in
        if String.eqb (sign payload) sig
        then
          match JSON_parse (b64urlDecode payload) with
          | Some v => v
          | None => JNull
          end
        else JNull
  end.

(** [readSignedCookie(req, name)]; [None] when parsing the header
    throws. *)
Definition readSignedCookie (header : option string) (name : string)
  : option json :=
  match parseCookies header with
  | None => None
  | Some cookies => Some (read_raw (cookie_value cookies name))
  end.

End Primitives.

End Cookies.

(* ------------------------------------------------------------------ *)
(** ** The value arc of the debug page (src/api/index.mjs)

    The inline script of the debug page draws the value arc as the gauge
    page does when the context has [createConicGradient], and in three
    plain arcs when it has not. *)

Module DebugCanvas.
Import JS Geometry Renderer.

Local Open Scope list_scope.

(** [start + (end - start) * 0.33] and [start + (end - start) * 0.66]. *)
Definition red_end : Q := start_angle + (end_angle - start_angle) * (33 # 100).
Definition orange_end : Q := start_angle + (end_angle - start_angle) * (66 # 100).

(** The branch [if (!canConic)] of [drawValue]. *)
Definition drawValue_fallback (f : frame) (v : Q) : list drawop :=
  let te := thetaEnd v in
  let w := valueW (f_r f) in
  [Arc CapRound w (Rgb C_RED) (f_cx f) (f_cy f) (f_r f)
       start_angle (Math_min red_end te)]
    ++ (if ltb red_end te
        then [Arc CapButt w (Rgb C_ORG) (f_cx f) (f_cy f) (f_r f)
                  red_end (Math_min orange_end te)]
        else [])
    ++ (if ltb orange_end te
        then [Arc CapButt w (Rgb C_GRN) (f_cx f) (f_cy f) (f_r f) orange_end te]
        else []).

(** [drawValue(v)] of the debug page; [canConic] is
    [typeof ctx.createConicGradient === "function"]. *)
Definition drawValue_debug (canConic : bool) (f : frame) (v : Q) : list drawop :=
  if canConic then drawValue f v else drawValue_fallback f v.

(** The [strokeStyle] an arc is drawn with. *)
Definition stroke_of (op : drawop) : option paint :=
  match op with
  | Arc _ _ style _ _ _ _ _ => Some style
  | _ => None
  end.

(** The calls are arcs that follow one another from angle [a] to angle
    [b]: each starts where the one before it ends, and none runs
    backwards. *)
Fixpoint tiles (calls : list drawop) (a b : Q) : bool :=
  match calls with
  | [] => Qeq_bool a b
  | op :: rest =>
      match arc_from op, arc_to op with
      | Some a0, Some a1 => Qeq_bool a0 a && Qle_bool a0 a1 && tiles rest a1 b
      | _, _ => false
      end
  end.

End DebugCanvas.

(* ------------------------------------------------------------------ *)
(** ** ScoreAggregator in double precision

    The block of [Aggregator], with every [+], [-], [*] and [/] of the
    source rounded as the runtime rounds it.  The numbers of the parsed
    response are doubles already. *)

Module Aggregator64.
Import JS Binary64.

(** One iteration of [for (const obj of parsedAny)]:
    [if (typeof obj.Positive === "number") P += obj.Positive;] and so on. *)
Definition add_tally (acc : Aggregator.sums) (obj : json) : Aggregator.sums :=
  if is_object obj then
    Aggregator.mkSums
      (match number_prop obj "Positive" with
       | Some q => fadd (Aggregator.sP acc) q | None => Aggregator.sP acc end)
      (match number_prop obj "Neutral" with
       | Some q => fadd (Aggregator.sNeut acc) q | None => Aggregator.sNeut acc end)
      (match number_prop obj "Negative" with
       | Some q => fadd (Aggregator.sNeg acc) q | None => Aggregator.sNeg acc end)
  else acc.

(** [P], [Neut], [Neg] after the array/object dispatch; the single-object
    branch assigns and does no arithmetic. *)
Definition tally_sums (parsedAny : json) : Aggregator.sums :=
  match parsedAny with
  | JArr items => fold_left add_tally items Aggregator.zero_sums
  | JObj _ => Aggregator.set_tally parsedAny
  | _ => Aggregator.zero_sums
  end.

(** [const T = P + Neut + Neg || tweetsToSend.length || 0]. *)
Definition denominator (s : Aggregator.sums) (sent : nat) : Q :=
  or_else (fadd (fadd (Aggregator.sP s) (Aggregator.sNeut s)) (Aggregator.sNeg s))
          (or_else (inject_Z (Z.of_nat sent)) 0).

(** [((P - Neg + T) / (2 * T)) * 100]. *)
Definition formula (P Neg T : Q) : Q :=
  fmul (fdiv (fadd (fsub P Neg) T) (fmul 2 T)) 100.

(** [if (T > 0) displayScore = Math.round(((P - Neg + T) / (2 * T)) * 100)];
    [None] is the initial [null]. *)
Definition score_of_sums (s : Aggregator.sums) (sent : nat) : option Z :=
  let T := denominator s sent in
  if ltb 0 T then Some (Math_round (formula (Aggregator.sP s) (Aggregator.sNeg s) T)) else None.

(** The [try { JSON.parse .. } catch {}] block of the serverless handlers:
    [None] as input is a body that does not parse. *)
Definition displayScore (parsed : option json) (sent : nat) : option Z :=
  match parsed with
  | None => None
  | Some parsedAny => score_of_sums (tally_sums parsedAny) sent
  end.

(** The same block in src/server.js, where a [null] body throws. *)
Definition displayScore_server (parsed : option json) (sent : nat) : option Z :=
  match parsed with
  | None => None
  | Some JNull => None
  | Some parsedAny => score_of_sums (tally_sums parsedAny) sent
  end.

(** [if (displayScore !== null) { .. gauge page .. }] and the plain page
    after it, in the canvas handlers. *)
Definition fetch_page (parsed : option json) (sent : nat)
    (te : Config.threshold_env) (le : Config.layout_env) : Renderer.page :=
  match displayScore parsed sent with
  | Some d =>
      Renderer.GaugePage d
        (Classifier.bgFile (Classifier.clamp_score (inject_Z d))
                           (Config.chained_thresholds te))
        (Config.render_config le)
  | None => Renderer.WebhookDebugPage
  end.

End Aggregator64.

(* ------------------------------------------------------------------ *)
(** ** Tallies of counts *)

Module Counts.
Import JS.

Local Open Scope list_scope.

(** A whole number. *)
Definition whole (q : Q) : bool := Qeq_bool (inject_Z (Qfloor q)) q.

(** A count: a whole number that is not negative. *)
Definition count (q : Q) : bool := Qle_bool 0 q && whole q.

(** Every field of every tally of the input is a whole number. *)
Definition whole_fields (input : json) : bool :=
  forallb (fun obj => whole (Spec.field "Positive" obj)
                      && whole (Spec.field "Neutral" obj)
                      && whole (Spec.field "Negative" obj))
          (Spec.tallies input).

(** Every field of every tally of the input is a count. *)
Definition counts (input : json) : bool :=
  forallb (fun obj => count (Spec.field "Positive" obj)
                      && count (Spec.field "Neutral" obj)
                      && count (Spec.field "Negative" obj))
          (Spec.tallies input).

(** The sum of the magnitudes of one field over the tallies. *)
Definition magnitude (k : string) (input : json) : Q :=
  fold_right Qplus 0 (map (fun obj => Qabs (Spec.field k obj)) (Spec.tallies input)).

(** The largest whole number up to which every whole number is a
    double. *)
Definition max_exact : Q := inject_Z (2 ^ 53).

(** Whole fields whose magnitudes sum to at most [2^53]: every sum the
    loop can form is then a double. *)
Definition summable (input : json) : bool :=
  whole_fields input
  && Qle_bool (magnitude "Positive" input + magnitude "Neutral" input
               + magnitude "Negative" input) max_exact.

(** Three tallies whose Positive fields sum to 1 exactly, but not in
    doubles in every order: 10^16 + 1 rounds to 10^16. *)
Definition big_then_small : json :=
  JArr [Spec.tally 10000000000000000 0 0; Spec.tally 1 0 0;
        Spec.tally (-10000000000000000) 0 0].

Definition small_last : json :=
  JArr [Spec.tally 10000000000000000 0 0; Spec.tally (-10000000000000000) 0 0;
        Spec.tally 1 0 0].

End Counts.

(* ------------------------------------------------------------------ *)
(** ** Facts about the primitives *)

Import JS.

Lemma ltb_lt (a b : Q) : ltb a b = true <-> a < b.
Proof.
  unfold ltb. rewrite negb_true_iff.
  split; intro H.
  - apply Qnot_le_lt. intro Hle. apply Qle_bool_iff in Hle. congruence.
  - destruct (Qle_bool b a) eqn:E; [|reflexivity].
    apply Qle_bool_iff in E. exfalso. apply (Qlt_not_le _ _ H E).
Qed.

Lemma ltb_ge (a b : Q) : ltb a b = false <-> b <= a.
Proof.
  unfold ltb. rewrite negb_false_iff. apply Qle_bool_iff.
Qed.

Lemma leb_le (a b : Q) : leb a b = true <-> a <= b.
Proof. apply Qle_bool_iff. Qed.

Lemma leb_gt (a b : Q) : leb a b = false <-> b < a.
Proof.
  unfold leb. split; intro H.
  - apply Qnot_le_lt. intro Hle. apply Qle_bool_iff in Hle. congruence.
  - destruct (Qle_bool a b) eqn:E; [|reflexivity].
    apply Qle_bool_iff in E. exfalso. apply (Qlt_not_le _ _ H E).
Qed.

Lemma geb_ge (a b : Q) : geb a b = true <-> b <= a.
Proof. apply Qle_bool_iff. Qed.

Lemma geb_lt (a b : Q) : geb a b = false <-> a < b.
Proof. unfold geb. apply (leb_gt b a). Qed.

Lemma truthy_nonzero (a : Q) : truthy a = true <-> ~ a == 0.
Proof.
  unfold truthy. rewrite negb_true_iff. split; intro H.
  - apply Qeq_bool_neq. exact H.
  - destruct (Qeq_bool a 0) eqn:E; [|reflexivity].
    apply Qeq_bool_iff in E. contradiction.
Qed.

Lemma truthy_zero (a : Q) : truthy a = false <-> a == 0.
Proof.
  unfold truthy. rewrite negb_false_iff. apply Qeq_bool_iff.
Qed.

#[global] Instance Math_round_comp : Proper (Qeq ==> eq) Math_round.
Proof.
  intros x y H. unfold Math_round. apply Qfloor_comp. rewrite H. reflexivity.
Qed.

Lemma Qfloor_unique (x : Q) (n : Z) :
  inject_Z n <= x -> x < inject_Z (n + 1) -> Qfloor x = n.
Proof.
  intros Hlo Hhi. apply Z.le_antisymm.
  - apply Z.lt_succ_r. rewrite Zlt_Qlt.
    apply Qle_lt_trans with x; [apply Qfloor_le | exact Hhi].
  - rewrite <- (Qfloor_Z n). apply Qfloor_resp_le. exact Hlo.
Qed.

Lemma Math_round_Z (z : Z) : Math_round (inject_Z z) = z.
Proof.
  unfold Math_round. apply Qfloor_unique.
  - lra.
  - rewrite inject_Z_plus. change (inject_Z 1) with 1. lra.
Qed.



(* ------------------------------------------------------------------ *)
(** ** ScoreAggregator *)

Import Aggregator.


#[global] Instance Spec_score_comp : Proper (Qeq ==> Qeq ==> Qeq ==> eq) Spec.score.
Proof.
  intros P P' HP N N' HN G G' HG. unfold Spec.score.
  apply Math_round_comp. rewrite HP, HN, HG. reflexivity.
Qed.

(** With a zero sum the denominator is the number of posts sent; with no
    post sent either, there is no score. *)
Lemma score_of_sums_zero_total (s : sums) (sent : nat) :
  sP s + sNeut s + sNeg s == 0 ->
  denominator s sent == inject_Z (Z.of_nat sent)
  /\ (sent = O -> score_of_sums s sent = None)
  /\ (sent <> O -> exists z, score_of_sums s sent = Some z).
Proof.
  intro H0.
  assert (Ht : truthy (sP s + sNeut s + sNeg s) = false) by (apply truthy_zero; exact H0).
  assert (Hd : denominator s sent == inject_Z (Z.of_nat sent)).
  { unfold denominator, or_else at 1. rewrite Ht. unfold or_else.
    destruct (truthy (inject_Z (Z.of_nat sent))) eqn:E; [reflexivity|].
    apply truthy_zero in E. rewrite E. reflexivity. }
  split; [exact Hd|]. split.
  - intro Hs. unfold score_of_sums.
    assert (Hl : ltb 0 (denominator s sent) = false).
    { apply ltb_ge. rewrite Hd, Hs. apply Qle_refl. }
    rewrite Hl. reflexivity.
  - intro Hs. unfold score_of_sums.
    assert (Hl : ltb 0 (denominator s sent) = true).
    { apply ltb_lt. rewrite Hd. change 0 with (inject_Z 0). rewrite <- Zlt_Qlt. lia. }
    rewrite Hl. eexists. reflexivity.
Qed.

(** In the canvas handlers a response without score never reaches the
    gauge page, and [/card.png] refuses a request without score. *)
Lemma no_score_no_gauge_page (parsed : option json) (sent : nat)
    (te : Config.threshold_env) (le : Config.layout_env) :
  displayScore parsed sent = None ->
  Renderer.fetch_page parsed sent te le = Renderer.WebhookDebugPage.
Proof.
  intro H. unfold Renderer.fetch_page. rewrite H. reflexivity.
Qed.

Lemma card_png_without_score (te : Config.threshold_env) (le : Config.layout_env)
    (user pfp : string) (a : Renderer.assets) :
  Renderer.card_png te le None a = Renderer.Status 400
  /\ Renderer.card_png te le (Some (None, user, pfp)) a = Renderer.Status 400.
Proof. split; reflexivity. Qed.

(** C3, on src/server.js: a webhook response whose tallies sum to zero,
    with no post sent, yields no score and the plain page; but the session
    keeps [lastScore = null], and [/gauge] then renders a gauge for score
    0 on the strongly-bearish background. *)
Theorem C3_server_renders_zero_gauge_without_score :
  let after := Renderer.server_fetch Examples.fresh_session
                 (Some (Spec.tally 0 0 0)) 0 in
  displayScore_server (Some (Spec.tally 0 0 0)) 0 = None
  /\ snd after = Renderer.Html Renderer.WebhookDebugPage
  /\ Renderer.lastScore (fst after) = Renderer.ScoreNull
  /\ Renderer.gauge_score (Renderer.lastScore (fst after)) == 0
  /\ exists calls,
       Renderer.server_gauge Config.default_threshold_env Config.default_layout_env
         (fst after) Examples.good_background = Renderer.Png calls
       /\ Renderer.layers calls
          = [Renderer.LBackground; Renderer.LHandle; Renderer.LNeedle]
       /\ In (Renderer.DrawImage (Renderer.BackgroundArt "strongly-bearish.png")
                0 0 1600 900) calls.
Proof.
  repeat split.
  eexists. split; [reflexivity|]. split; [reflexivity|].
  left. reflexivity.
Qed.

(** Both threshold constructions clamp every threshold to [0,100]. *)
Lemma clamp_from_range (lo n : Z) :
  (0 <= lo <= 100)%Z -> (lo <= Config.clamp_from lo n <= 100)%Z.
Proof. unfold Config.clamp_from. lia. Qed.

(** The chained construction is ordered, whatever the strings. *)
Lemma chained_thresholds_ordered (e : Config.threshold_env) :
  Config.ordered (Config.chained_thresholds e).
Proof.
  unfold Config.ordered, Config.chained_thresholds, Config.clamp_from. simpl. lia.
Qed.

(** C4, on the [/fetch] route of the canvas router (src/api/logout.js):
    each threshold is clamped to [0,100] on its own, so thresholds given
    as "50", "40", "60", "80" come out as 50, 40, 60, 80, out of order,
    where the chained construction of every other site gives 50, 50, 60,
    80. *)
Theorem C4_fetch_env_thresholds_unordered :
  Config.fetch_env_thresholds Examples.unordered_env
    = Config.mkThresholds 50 40 60 80
  /\ ~ Config.ordered (Config.fetch_env_thresholds Examples.unordered_env)
  /\ Config.chained_thresholds Examples.unordered_env
    = Config.mkThresholds 50 50 60 80
  /\ (forall e, Config.ordered (Config.chained_thresholds e))
  /\ (forall e,
        let t := Config.fetch_env_thresholds e in
        (0 <= Config.tSB t <= 100)%Z /\ (0 <= Config.tB t <= 100)%Z
        /\ (0 <= Config.tN t <= 100)%Z /\ (0 <= Config.tBU t <= 100)%Z).
Proof.
  split; [reflexivity|]. split.
  { unfold Config.ordered. vm_compute. intros (_ & H & _). apply H. reflexivity. }
  split; [reflexivity|]. split; [exact chained_thresholds_ordered|].
  intro e. unfold Config.fetch_env_thresholds, Config.clamp_from. simpl. lia.
Qed.

(* ------------------------------------------------------------------ *)
(** ** StateClassifier *)

Import Config Classifier.

Lemma background_injective (a b : SentimentState) :
  background a = background b -> a = b.
Proof. destruct a, b; simpl; intro H; try reflexivity; discriminate H. Qed.

(** Decide every comparison of the [bgFile] chain. *)
Ltac decide_chain :=
  repeat match goal with
         | |- context [geb ?a ?b] =>
             let E := fresh "E" in
             destruct (geb a b) eqn:E;
             [apply geb_ge in E | apply geb_lt in E]
         | |- context [ltb ?a ?b] =>
             let E := fresh "E" in
             destruct (ltb a b) eqn:E;
             [apply ltb_lt in E | apply ltb_ge in E]
         end.

(** With ordered thresholds the chain picks the background of the band the
    score lies in. *)
Lemma bgFile_band (s : Q) (t : thresholds) (st : SentimentState) :
  0 <= s <= 100 ->
  (tSB t <= tB t)%Z -> (tB t <= tN t)%Z -> (tN t <= tBU t)%Z ->
  (bgFile s t = background st <-> band st s t).
Proof.
  intros Hs H12 H23 H34.
  rewrite Zle_Qle in H12, H23, H34.
  unfold bgFile. decide_chain; simpl;
    (split; [intro Hbg; destruct st; simpl in *; try discriminate Hbg; lra
            | intro Hb; destruct st; simpl in *; try reflexivity; exfalso; lra]).
Qed.

(** C5: for a score in [0,100] and thresholds t1 <= t2 <= t3 <= t4 the
    classifier picks the background of exactly one state, the one whose
    half-open band [0,t1), [t1,t2), [t2,t3), [t3,t4), [t4,100] holds the
    score; under the default thresholds 20/40/60/80 the scores 0, 20 and
    100 give StronglyBearish, Bearish and StronglyBullish. *)
Theorem C5_classifier_partition :
  forall (s : Q) (t : thresholds),
    0 <= s <= 100 ->
    (tSB t <= tB t)%Z -> (tB t <= tN t)%Z -> (tN t <= tBU t)%Z ->
    (exists st, bgFile s t = background st /\ band st s t
                /\ forall st', band st' s t -> st' = st)
    /\ (s < inject_Z (tSB t) -> bgFile s t = background StronglyBearish)
    /\ (inject_Z (tSB t) <= s < inject_Z (tB t) -> bgFile s t = background Bearish)
    /\ (inject_Z (tB t) <= s < inject_Z (tN t) -> bgFile s t = background Neutral)
    /\ (inject_Z (tN t) <= s < inject_Z (tBU t) -> bgFile s t = background Bullish)
    /\ (inject_Z (tBU t) <= s -> bgFile s t = background StronglyBullish)
    /\ default_thresholds = mkThresholds 20 40 60 80
    /\ bgFile 0 default_thresholds = background StronglyBearish
    /\ bgFile 20 default_thresholds = background Bearish
    /\ bgFile 100 default_thresholds = background StronglyBullish.
Proof.
  intros s t Hs H12 H23 H34.
  assert (Hband : forall st, bgFile s t = background st <-> band st s t)
    by (intro st; apply bgFile_band; assumption).
  split.
  { assert (Hex : exists st, bgFile s t = background st).
    { unfold bgFile.
      destruct (_ && _); [exists Bearish; reflexivity|].
      destruct (_ && _); [exists Neutral; reflexivity|].
      destruct (_ && _); [exists Bullish; reflexivity|].
      destruct (geb _ _); [exists StronglyBullish | exists StronglyBearish]; reflexivity. }
    destruct Hex as [st Hst]. exists st. split; [exact Hst|]. split.
    - apply Hband. exact Hst.
    - intros st' Hb. apply background_injective.
      rewrite <- Hst. symmetry. apply Hband. exact Hb. }
  repeat split; try reflexivity; intro H; apply Hband; simpl; lra.
Qed.

(** The witness of C5: score 45 under the default thresholds. *)
Lemma C5_classifier_partition_witness :
  bgFile 45 default_thresholds = background Neutral.
Proof.
  refine (proj1 (proj2 (proj2 (proj2
            (C5_classifier_partition 45 default_thresholds _ _ _ _)))) _).
  - split; discriminate.
  - vm_compute. discriminate.
  - vm_compute. discriminate.
  - vm_compute. discriminate.
  - vm_compute. split; [discriminate | reflexivity].
Defined.

(* ------------------------------------------------------------------ *)
(** ** GaugeGeometry *)

Import Geometry.

(** The radius and the needle scale a renderer works with meet the lower
    bounds the specification names. *)
Lemma radius_ge_1 (b : rect) : 1 <= radius b.
Proof. unfold radius, Math_max. apply Q.le_max_l. Qed.

Lemma needleScale_ge (e : layout_env) : (1 # 10) <= needleScale (render_config e).
Proof. simpl. unfold number_or_at_least, Math_max. apply Q.le_max_l. Qed.





(* ------------------------------------------------------------------ *)
(** ** GaugeRenderer: the segmented value arc *)

Import Renderer.


Section SegmentLoop.

Variable f : frame.
Variables usableStart span te : Q.
Hypothesis span_pos : 0 < span.
Hypothesis te_in_span : te <= usableStart + span.

Lemma slice_start_last :
  Spec.slice_start usableStart span segs segs == usableStart + span.
Proof.
  unfold Spec.slice_start, segs. change (inject_Z 24) with 24. field.
Qed.

Lemma slice_start_below (i : Z) :
  Spec.slice_start usableStart span segs i < te -> (i < segs)%Z.
Proof.
  intro H. apply Z.lt_nge. intro Hge.
  assert (Hle : usableStart + span <= Spec.slice_start usableStart span segs i).
  { unfold Spec.slice_start, segs in *.
    rewrite Zle_Qle in Hge. change (inject_Z 24) with 24 in *.
    assert (E : usableStart + inject_Z i / 24 * span
                == usableStart + span + (inject_Z i - 24) * (span / 24)) by field.
    rewrite E.
    assert (0 <= (inject_Z i - 24) * (span / 24)).
    { apply Qmult_le_0_compat; [lra|]. apply Qle_shift_div_l; lra. }
    lra. }
  lra.
Qed.

Lemma segment_loop_step (todo : nat) (i : Z) :
  segment_loop (S todo) i f usableStart span te
  = if geb (Spec.slice_start usableStart span segs i) te then []
    else
      strokeArc f (colAt (inject_Z i / inject_Z segs))
                (colAt (inject_Z (i + 1) / inject_Z segs))
                (Spec.slice_start usableStart span segs i)
                (Math_min (Spec.slice_start usableStart span segs (i + 1)) te)
        :: (if geb (Spec.slice_start usableStart span segs (i + 1)) te then []
            else segment_loop todo (i + 1) f usableStart span te).
Proof. reflexivity. Qed.

(** What the loop draws from index [i] on: call number [k] is slice
    [i + k], in the colour of its own ends, from its own start; it ends
    where the next slice starts if one follows, and at [te] if it is the
    last, the slice then reaching [te] or passing it. *)
Lemma segment_loop_nth (todo : nat) :
  forall (i : Z),
    (i + Z.of_nat todo = segs)%Z ->
    Spec.slice_start usableStart span segs i < te ->
    forall (k : nat) (op : drawop),
      nth_error (segment_loop todo i f usableStart span te) k = Some op ->
      let j := (i + Z.of_nat k)%Z in
      exists a1,
        op = Arc CapRound (valueW (f_r f))
                 (Rgb (mid_color (colAt (inject_Z j / inject_Z segs))
                                 (colAt (inject_Z (j + 1) / inject_Z segs))))
                 (f_cx f) (f_cy f) (f_r f)
                 (Spec.slice_start usableStart span segs j) a1
        /\ (j < segs)%Z
        /\ Spec.slice_start usableStart span segs j < te
        /\ ((nth_error (segment_loop todo i f usableStart span te) (S k) <> None
             /\ a1 == Spec.slice_start usableStart span segs (j + 1))
            \/ (nth_error (segment_loop todo i f usableStart span te) (S k) = None
                /\ a1 == te
                /\ te <= Spec.slice_start usableStart span segs (j + 1))).
Proof.
  induction todo as [|todo IH]; intros i Hi Hlt k op Hnth.
  - destruct k; discriminate Hnth.
  - rewrite segment_loop_step in *.
    assert (E0 : geb (Spec.slice_start usableStart span segs i) te = false)
      by (apply geb_lt; exact Hlt).
    rewrite E0 in *.
    destruct k as [|k].
    + simpl in Hnth. injection Hnth as <-. cbv zeta.
      replace (i + Z.of_nat 0)%Z with i by lia.
      eexists. split; [reflexivity|].
      split; [apply slice_start_below; exact Hlt|].
      split; [exact Hlt|].
      destruct (geb (Spec.slice_start usableStart span segs (i + 1)) te) eqn:E1.
      * right. apply geb_ge in E1. split; [reflexivity|]. split; [|exact E1].
        unfold Math_min. apply Q.min_r. exact E1.
      * left. apply geb_lt in E1. split.
        -- destruct todo as [|todo'].
           ++ exfalso. replace (i + 1)%Z with segs in E1 by lia.
              rewrite slice_start_last in E1. lra.
           ++ rewrite segment_loop_step.
              assert (E2 : geb (Spec.slice_start usableStart span segs (i + 1)) te = false)
                by (apply geb_lt; exact E1).
              rewrite E2. simpl. discriminate.
        -- unfold Math_min. apply Q.min_l. lra.
    + simpl in Hnth.
      destruct (geb (Spec.slice_start usableStart span segs (i + 1)) te) eqn:E1.
      * destruct k; discriminate Hnth.
      * apply geb_lt in E1.
        assert (Hi' : (i + 1 + Z.of_nat todo = segs)%Z) by lia.
        specialize (IH (i + 1)%Z Hi' E1 k op Hnth). cbv zeta in IH |- *.
        replace (i + Z.of_nat (S k))%Z with (i + 1 + Z.of_nat k)%Z by lia.
        destruct IH as (a1 & Hop & Hj & Hlo & Hnext).
        exists a1. split; [exact Hop|]. split; [exact Hj|]. split; [exact Hlo|].
        exact Hnext.
Qed.

Lemma segment_loop_nonempty (todo : nat) (i : Z) :
  (i + Z.of_nat todo = segs)%Z ->
  Spec.slice_start usableStart span segs i < te ->
  segment_loop todo i f usableStart span te <> [].
Proof.
  intros Hi Hlt. pose proof (slice_start_below i Hlt) as Hlt'.
  destruct todo as [|todo]; [lia|].
  rewrite segment_loop_step.
  assert (E0 : geb (Spec.slice_start usableStart span segs i) te = false)
    by (apply geb_lt; exact Hlt).
  rewrite E0. discriminate.
Qed.

Lemma segment_loop_length (todo : nat) :
  forall i : Z, (List.length (segment_loop todo i f usableStart span te) <= todo)%nat.
Proof.
  induction todo as [|todo IH]; intro i; [simpl; lia|].
  rewrite segment_loop_step.
  destruct (geb _ _); [simpl; lia|].
  destruct (geb _ _); simpl; [lia|]. specialize (IH (i + 1)%Z). lia.
Qed.

End SegmentLoop.

Lemma thetaEnd_le_end (s : Q) : s <= 100 -> thetaEnd s <= end_angle.
Proof.
  intro Hs. unfold thetaEnd, end_angle, start_angle.
  assert (HPI : 0 < Math_PI) by reflexivity.
  assert (E : Math_PI + s / 100 * (2 * Math_PI - Math_PI)
              == 2 * Math_PI - (100 - s) * (Math_PI / 100)) by field.
  rewrite E.
  assert (0 <= (100 - s) * (Math_PI / 100)).
  { apply Qmult_le_0_compat; [lra|]. apply Qle_shift_div_l; lra. }
  lra.
Qed.

(* ------------------------------------------------------------------ *)
(** ** GaugeRenderer: failures of the assets *)

Lemma segment_loop_layers (f : frame) (from span te : Q) (todo : nat) :
  forall i : Z,
    Forall (fun op => layer_of op = LValue) (segment_loop todo i f from span te).
Proof.
  induction todo as [|todo IH]; intro i; simpl; [constructor|].
  destruct (geb _ _); [constructor|].
  constructor; [reflexivity|].
  destruct (geb _ _); [constructor | apply IH].
Qed.

Lemma value_segments_layers (f : frame) (s : Q) :
  Forall (fun op => layer_of op = LValue) (value_segments f s).
Proof.
  unfold value_segments. destruct (ltb _ _); [apply segment_loop_layers | constructor].
Qed.

Lemma card_value_layers (f : frame) (s : Q) :
  Forall (fun op => layer_of op = LValue) (card_value f s).
Proof.
  unfold card_value. constructor; [reflexivity | apply value_segments_layers].
Qed.

Lemma avatar_layer_layers (c : RenderConfig) (drawn : bool) :
  map layer_of (avatar_layer c drawn) = if drawn then [LAvatar] else [].
Proof. destruct drawn; reflexivity. Qed.

(** A failed avatar download never counts as drawn. *)
Lemma avatar_failed_not_drawn (url : string) (a : assets) :
  avatar a <> AvatarLoaded -> avatar_drawn url a = false.
Proof.
  intro H. unfold avatar_drawn.
  destruct url; [reflexivity|]. destruct (avatar a); try reflexivity.
  contradiction H. reflexivity.
Qed.

(** C9, as the code has it: once the background art has loaded,
    [renderCardPNG] completes whatever happens to the avatar, and an
    avatar that failed to download or decode is left out; a background
    that is missing or does not decode makes the call fail, with "Missing
    background asset" or the decoder's error, no fill taking its place,
    and the [/card.png] route answers 500. *)
Theorem C9_avatar_failure_tolerated_background_required :
  forall (te : threshold_env) (le : layout_env) (score : Q)
         (user url : string) (a : assets),
    (forall w h, bg_file a = BgLoaded w h ->
       exists calls,
         renderCardPNG te le score user url a = Ok calls
         /\ (avatar a <> AvatarLoaded -> ~ In LAvatar (map layer_of calls))
         /\ In LBackground (map layer_of calls)
         /\ In LNeedle (map layer_of calls))
    /\ (bg_file a = BgMissing ->
        renderCardPNG te le score user url a
        = Err (MissingBackgroundAsset
                 (bgFile (clamp_score (or_else score 0)) (chained_thresholds te))))
    /\ (bg_file a = BgUndecodable ->
        renderCardPNG te le score user url a = Err ImageLoadError)
    /\ (forall d : Z, bg_file a = BgMissing \/ bg_file a = BgUndecodable ->
        card_png te le (Some (Some d, user, url)) a = Status 500).
Proof.
  intros te le score user url a. repeat split.
  - intros w h Hbg. unfold renderCardPNG. rewrite Hbg.
    eexists. split; [reflexivity|].
    rewrite !map_app, avatar_layer_layers. split; [|split].
    + intros Hav Hin. rewrite (avatar_failed_not_drawn url a Hav) in Hin.
      simpl in Hin.
      repeat (destruct Hin as [Hin|Hin]; [discriminate Hin|]).
      apply in_app_or in Hin. destruct Hin as [Hin|Hin].
      * apply in_map_iff in Hin. destruct Hin as (op & Hop & Hin).
        pose proof (value_segments_layers
                      (frame_of (dim_or w 1200) (dim_or h 628) (render_config le))
                      (clamp_score (or_else score 0))) as Hall.
        rewrite Forall_forall in Hall. rewrite (Hall op Hin) in Hop. discriminate Hop.
      * simpl in Hin. destruct Hin as [Hin|[]]. discriminate Hin.
    + simpl. left. reflexivity.
    + apply in_or_app. right. apply in_or_app. right.
      apply in_or_app. right. apply in_or_app. right.
      apply in_or_app. right. simpl. left. reflexivity.
  - intro Hbg. unfold renderCardPNG. rewrite Hbg. reflexivity.
  - intro Hbg. unfold renderCardPNG. rewrite Hbg. reflexivity.
  - intros d [Hbg|Hbg]; unfold card_png, renderCardPNG; rewrite Hbg; reflexivity.
Qed.

(** The witness of C9: the background loads, the avatar download is
    refused. *)
Lemma C9_avatar_failure_tolerated_background_required_witness :
  exists calls,
    renderCardPNG default_threshold_env default_layout_env 70 "u" "https://pfp"
      Examples.good_background = Ok calls
    /\ ~ In LAvatar (map layer_of calls).
Proof.
  destruct (proj1 (C9_avatar_failure_tolerated_background_required
                     default_threshold_env default_layout_env 70 "u" "https://pfp"
                     Examples.good_background) 1600%Z 900%Z eq_refl)
    as (calls & Hok & Hav & _).
  exists calls. split; [exact Hok|]. apply Hav. discriminate.
Defined.

(** C9 as stated fails: with the background file missing the render call
    aborts instead of falling back to a fill. *)
Lemma C9_counterexample :
  renderCardPNG default_threshold_env default_layout_env 50 "u" ""
    Examples.missing_background
  = Err (MissingBackgroundAsset "neutral.png")
  /\ ~ (exists calls,
          renderCardPNG default_threshold_env default_layout_env 50 "u" ""
            Examples.missing_background = Ok calls).
Proof.
  split; [reflexivity|]. intros [calls H]. discriminate H.
Qed.

(* ------------------------------------------------------------------ *)
(** ** GaugeRenderer: the canvas script against the server renderers *)

Local Open Scope list_scope.

Lemma or_else_integer (d : Z) : or_else (inject_Z d) 0 = inject_Z d.
Proof.
  unfold or_else. destruct (truthy (inject_Z d)) eqn:E; [reflexivity|].
  apply truthy_zero in E.
  assert (Hd : d = 0%Z) by (apply inject_Z_injective; exact E).
  rewrite Hd. reflexivity.
Qed.

Lemma dim_or_positive (w dflt : Z) : (0 < w)%Z -> dim_or w dflt = w.
Proof.
  intro H. unfold dim_or. destruct (w =? 0)%Z eqn:E; [|reflexivity].
  apply Z.eqb_eq in E. lia.
Qed.

Lemma handleText_named (user : string) :
  user <> "" -> handleText user = ("@" ++ user)%string.
Proof. destruct user; [intro H; contradiction H; reflexivity | reflexivity]. Qed.

Lemma clamp_score_range (x : Q) : 0 <= clamp_score x <= 100.
Proof.
  unfold clamp_score, Math_max, Math_min. split.
  - apply Q.le_max_l.
  - apply Q.max_lub; [lra | apply Q.le_min_l].
Qed.

(** [Math.min(te, x)] is [te] up to [x] and [x] beyond: the cap segment of
    the server is the cap segment of the canvas. *)
Lemma cap_segment_end (te x : Q) :
  Math_min te x = if leb te x then te else x.
Proof.
  unfold Math_min, Qmin, GenericMinMax.gmin, leb.
  destruct (Qle_bool te x) eqn:E.
  - apply Qle_bool_iff in E.
    destruct (te ?= x) eqn:C; try reflexivity.
    apply Qgt_alt in C. exfalso. lra.
  - destruct (te ?= x) eqn:C; try reflexivity; exfalso.
    + apply Qeq_alt in C. assert (Hle : te <= x) by (rewrite C; apply Qle_refl).
      apply Qle_bool_iff in Hle. congruence.
    + apply Qlt_alt in C. apply Qlt_le_weak in C.
      apply Qle_bool_iff in C. congruence.
Qed.

Lemma squash_values (vs : list layer) :
  Forall (eq LValue) vs -> squash (LValue :: vs ++ [LNeedle]) = [LValue; LNeedle].
Proof.
  induction vs as [|x vs IH]; intro H; [reflexivity|].
  inversion H as [|? ? Hx Hvs]; subst.
  change (squash (LValue :: (LValue :: vs) ++ [LNeedle]))
    with (squash (LValue :: vs ++ [LNeedle])).
  apply IH. exact Hvs.
Qed.

Lemma layers_of_values (ops : list drawop) :
  Forall (fun op => layer_of op = LValue) ops ->
  Forall (eq LValue) (map layer_of ops).
Proof.
  induction 1 as [|op ops Hop _ IH]; simpl; constructor; [symmetry; exact Hop | exact IH].
Qed.

Lemma on_layer_values (l : layer) (ops : list drawop) :
  Forall (fun op => layer_of op = LValue) ops ->
  on_layer l ops = if layer_eqb LValue l then ops else [].
Proof.
  induction 1 as [|op ops Hop _ IH]; [destruct l; reflexivity|].
  change (on_layer l (op :: ops))
    with (if layer_eqb (layer_of op) l then op :: on_layer l ops else on_layer l ops).
  rewrite Hop, IH. destruct l; reflexivity.
Qed.

Lemma on_layer_app (l : layer) (xs ys : list drawop) :
  on_layer l (xs ++ ys) = on_layer l xs ++ on_layer l ys.
Proof. unfold on_layer. apply filter_app. Qed.

Lemma drawValue_layers (f : frame) (v : Q) :
  Forall (fun op => layer_of op = LValue) (drawValue f v).
Proof.
  unfold drawValue. destruct (leb _ _); repeat constructor.
Qed.

(** The value arc of the canvas is one or two calls. *)
Lemma drawValue_cases (f : frame) (v : Q) :
  (thetaEnd v <= start_angle + capAngle (f_r f) /\ tl (drawValue f v) = [])
  \/ (start_angle + capAngle (f_r f) < thetaEnd v
      /\ tl (drawValue f v)
         = [Arc CapButt (valueW (f_r f))
                (ConicGradient (start_angle + capAngle (f_r f) + (1 # 10000))
                               [(0, C_RED); (1 # 2, C_ORG); (1, C_GRN)])
                (f_cx f) (f_cy f) (f_r f)
                (start_angle + capAngle (f_r f)) (thetaEnd v)]).
Proof.
  unfold drawValue.
  destruct (leb (thetaEnd v) (start_angle + capAngle (f_r f))) eqn:E.
  - left. apply leb_le in E. split; [exact E | reflexivity].
  - right. apply leb_gt in E. split; [exact E | reflexivity].
Qed.

Lemma value_segments_short (f : frame) (v : Q) :
  thetaEnd v <= start_angle + capAngle (f_r f) -> value_segments f v = [].
Proof.
  intro H. unfold value_segments.
  assert (E : ltb (start_angle + capAngle (f_r f)) (thetaEnd v) = false)
    by (apply ltb_ge; exact H).
  rewrite E. reflexivity.
Qed.

(** Past the cap segment the slices run from the end of the cap segment to
    [thetaEnd]. *)
Lemma value_segments_extent (f : frame) (v : Q) :
  v <= 100 ->
  start_angle + capAngle (f_r f) < thetaEnd v ->
  exists (n : nat) (first final : drawop) (a0 a1 : Q),
    nth_error (value_segments f v) 0 = Some first
    /\ nth_error (value_segments f v) n = Some final
    /\ S n = List.length (value_segments f v)
    /\ arc_from first = Some a0 /\ a0 == start_angle + capAngle (f_r f)
    /\ arc_to final = Some a1 /\ a1 == thetaEnd v.
Proof.
  intros Hv Hpast.
  set (from := start_angle + capAngle (f_r f)) in *.
  set (span := (end_angle - start_angle) - capAngle (f_r f)).
  assert (Hte : thetaEnd v <= from + span).
  { unfold from, span.
    assert (E : start_angle + capAngle (f_r f)
                + (end_angle - start_angle - capAngle (f_r f)) == end_angle) by ring.
    rewrite E. apply thetaEnd_le_end. exact Hv. }
  assert (Hspan : 0 < span) by lra.
  assert (Hslices : value_segments f v
                    = segment_loop (Z.to_nat segs) 0 f from span (thetaEnd v)).
  { unfold value_segments. fold from. fold span.
    assert (El : ltb from (thetaEnd v) = true) by (apply ltb_lt; exact Hpast).
    rewrite El. reflexivity. }
  assert (Hfrom0 : Spec.slice_start from span segs 0 == from).
  { unfold Spec.slice_start, segs.
    change (inject_Z 0) with 0. change (inject_Z 24) with 24. field. }
  assert (Hlt0 : Spec.slice_start from span segs 0 < thetaEnd v)
    by (rewrite Hfrom0; exact Hpast).
  rewrite Hslices.
  pose proof (segment_loop_nonempty f from span (thetaEnd v) Hspan Hte
                (Z.to_nat segs) 0%Z eq_refl Hlt0) as Hne.
  remember (segment_loop (Z.to_nat segs) 0 f from span (thetaEnd v)) as L eqn:HL.
  destruct L as [|first rest]; [contradiction Hne; reflexivity|].
  assert (Hlast : exists final, nth_error (first :: rest) (List.length rest) = Some final).
  { destruct (nth_error (first :: rest) (List.length rest)) eqn:E; [eexists; reflexivity|].
    apply nth_error_None in E. simpl in E. lia. }
  destruct Hlast as [final Hfinal].
  assert (H0 : nth_error (first :: rest) 0 = Some first) by reflexivity.
  rewrite HL in H0, Hfinal.
  destruct (segment_loop_nth f from span (thetaEnd v) Hspan Hte (Z.to_nat segs)
              0%Z eq_refl Hlt0 0%nat first H0) as (b1 & Hop0 & _).
  destruct (segment_loop_nth f from span (thetaEnd v) Hspan Hte (Z.to_nat segs)
              0%Z eq_refl Hlt0 (List.length rest) final Hfinal)
    as (a1 & Hop1 & _ & _ & Hnext).
  rewrite <- HL in Hnext, H0, Hfinal.
  exists (List.length rest), first, final.
  exists (Spec.slice_start from span segs (0 + Z.of_nat 0)), a1.
  split; [reflexivity|]. split; [exact Hfinal|]. split; [reflexivity|].
  split; [rewrite Hop0; reflexivity|]. split; [exact Hfrom0|].
  split; [rewrite Hop1; reflexivity|].
  destruct Hnext as [[Hsome _]|[_ [Ha1 _]]]; [|exact Ha1].
  apply nth_error_Some in Hsome. simpl in Hsome. lia.
Qed.

(** C6, as the code has it: on the same score, user, avatar, configuration
    and image size, the canvas script and [renderCardPNG] paint the same
    layers in the same order (background, avatar, handle, track, value
    arc, needle) from the same geometry: avatar, handle, track and needle
    calls coincide, the value arc opens with the same cap segment and
    covers the same angles, by one gradient stroke on the canvas and by
    slices on the server.  [renderGaugeBuffer] of src/server.js paints
    background, avatar, handle and needle only, these as the canvas does,
    and neither track nor value arc. *)
Theorem C6_backends_share_layers_and_geometry :
  forall (te : threshold_env) (le : layout_env) (d : Z) (user url : string)
         (pfpPresent pfpLoaded : bool) (a : assets) (W H : Z),
    user <> "" ->
    (0 < W)%Z -> (0 < H)%Z ->
    bg_file a = BgLoaded W H ->
    avatar_drawn url a = pfpPresent && pfpLoaded ->
    let c := render_config le in
    let v := clamp_score (inject_Z d) in
    let bg := bgFile v (chained_thresholds te) in
    let f := frame_of W H c in
    let client := canvas_script d c bg user pfpPresent pfpLoaded W H in
    let shared :=
      [LBackground] ++ (if pfpPresent && pfpLoaded then [LAvatar] else [])
                    ++ [LHandle] in
    layers client = shared ++ [LTrack; LValue; LNeedle]
    /\ (exists card,
          renderCardPNG te le (inject_Z d) user url a = Ok card
          /\ layers card = layers client
          /\ In (DrawImage (BackgroundArt bg) 0 0 W H) client
          /\ In (DrawImage (BackgroundArt bg) 0 0 W H) card
          /\ on_layer LAvatar card = on_layer LAvatar client
          /\ on_layer LHandle card = on_layer LHandle client
          /\ on_layer LTrack card = on_layer LTrack client
          /\ on_layer LNeedle card = on_layer LNeedle client
          /\ on_layer LValue client = drawValue f v
          /\ on_layer LValue card = card_value f v)
    /\ hd_error (card_value f v) = hd_error (drawValue f v)
    /\ (thetaEnd v <= start_angle + capAngle (f_r f) ->
        tl (drawValue f v) = [] /\ tl (card_value f v) = [])
    /\ (start_angle + capAngle (f_r f) < thetaEnd v ->
        (exists gradient,
            tl (drawValue f v) = [gradient]
            /\ arc_from gradient = Some (start_angle + capAngle (f_r f))
            /\ arc_to gradient = Some (thetaEnd v))
        /\ exists (n : nat) (first final : drawop) (a0 a1 : Q),
            nth_error (tl (card_value f v)) 0 = Some first
            /\ nth_error (tl (card_value f v)) n = Some final
            /\ S n = List.length (tl (card_value f v))
            /\ arc_from first = Some a0 /\ a0 == start_angle + capAngle (f_r f)
            /\ arc_to final = Some a1 /\ a1 == thetaEnd v)
    /\ (exists gauge,
          renderGaugeBuffer te le (mkSession user url (ScoreNum d)) a = Ok gauge
          /\ layers gauge = shared ++ [LNeedle]
          /\ In (DrawImage (BackgroundArt bg) 0 0 W H) gauge
          /\ on_layer LAvatar gauge = on_layer LAvatar client
          /\ on_layer LHandle gauge = on_layer LHandle client
          /\ on_layer LNeedle gauge = on_layer LNeedle client
          /\ on_layer LTrack gauge = []
          /\ on_layer LValue gauge = []).
Proof.
  intros te le d user url pfpPresent pfpLoaded a W H Huser HW HH Hbg Hav
         c v bg f client shared.
  pose proof (card_value_layers f v) as Hcv.
  pose proof (drawValue_layers f v) as Hdv.
  assert (Hclient :
    client = [ClearRect W H; DrawImage (BackgroundArt bg) 0 0 W H]
               ++ avatar_layer c (pfpPresent && pfpLoaded)
               ++ [FillText ("@" ++ user)%string (handle_x c) (handle_y c)
                            (handle_fontPx c) (handle_color c)]
               ++ drawTrack f ++ drawValue f v ++ drawNeedle f c v)
    by reflexivity.
  assert (Hcard :
    renderCardPNG te le (inject_Z d) user url a
    = Ok ([DrawImage (BackgroundArt bg) 0 0 W H]
            ++ avatar_layer c (pfpPresent && pfpLoaded)
            ++ [FillText ("@" ++ user)%string (handle_x c) (handle_y c)
                         (handle_fontPx c) (handle_color c)]
            ++ card_track f ++ card_value f v ++ card_needle f c v)).
  { unfold renderCardPNG. rewrite Hbg, or_else_integer, Hav.
    rewrite !dim_or_positive by assumption.
    rewrite (handleText_named user Huser). reflexivity. }
  assert (Hgauge :
    renderGaugeBuffer te le (mkSession user url (ScoreNum d)) a
    = Ok ([DrawImage (BackgroundArt bg) 0 0 W H]
            ++ avatar_layer c (pfpPresent && pfpLoaded)
            ++ [FillText ("@" ++ user)%string (handle_x c) (handle_y c)
                         (handle_fontPx c) (handle_color c)]
            ++ card_needle f c v)).
  { unfold renderGaugeBuffer, gauge_score. simpl lastScore. simpl profileImageUrl.
    simpl username. rewrite Hbg, or_else_integer, Hav. reflexivity. }
  assert (Hlc : layers client = shared ++ [LTrack; LValue; LNeedle]).
  { rewrite Hclient. unfold shared, drawValue.
    destruct (leb _ _); destruct (pfpPresent && pfpLoaded); reflexivity. }
  split; [exact Hlc|].
  split.
  { eexists. split; [exact Hcard|].
    split.
    { rewrite Hlc. unfold layers, shared.
      assert (Hsq : squash (LValue :: map layer_of (value_segments f v) ++ [LNeedle])
                    = [LValue; LNeedle])
        by (apply squash_values, layers_of_values, value_segments_layers).
      destruct (pfpPresent && pfpLoaded).
      - assert (E : map layer_of
                      ([DrawImage (BackgroundArt bg) 0 0 W H]
                         ++ avatar_layer c true
                         ++ [FillText ("@" ++ user)%string (handle_x c) (handle_y c)
                                      (handle_fontPx c) (handle_color c)]
                         ++ card_track f ++ card_value f v ++ card_needle f c v)
                    = LBackground :: LAvatar :: LHandle :: LTrack :: LValue
                        :: map layer_of (value_segments f v) ++ [LNeedle])
          by (rewrite !map_app; reflexivity).
        rewrite E.
        change (LBackground :: LAvatar :: LHandle :: LTrack
                  :: squash (LValue :: map layer_of (value_segments f v) ++ [LNeedle])
                = [LBackground; LAvatar; LHandle; LTrack; LValue; LNeedle]).
        rewrite Hsq. reflexivity.
      - assert (E : map layer_of
                      ([DrawImage (BackgroundArt bg) 0 0 W H]
                         ++ avatar_layer c false
                         ++ [FillText ("@" ++ user)%string (handle_x c) (handle_y c)
                                      (handle_fontPx c) (handle_color c)]
                         ++ card_track f ++ card_value f v ++ card_needle f c v)
                    = LBackground :: LHandle :: LTrack :: LValue
                        :: map layer_of (value_segments f v) ++ [LNeedle])
          by (rewrite !map_app; reflexivity).
        rewrite E.
        change (LBackground :: LHandle :: LTrack
                  :: squash (LValue :: map layer_of (value_segments f v) ++ [LNeedle])
                = [LBackground; LHandle; LTrack; LValue; LNeedle]).
        rewrite Hsq. reflexivity. }
    split; [rewrite Hclient; right; left; reflexivity|].
    split; [left; reflexivity|].
    rewrite Hclient. rewrite !on_layer_app.
    rewrite !(on_layer_values _ _ Hcv), !(on_layer_values _ _ Hdv).
    destruct (pfpPresent && pfpLoaded); repeat split; simpl; rewrite ?app_nil_r; reflexivity. }
  split.
  { unfold card_value, drawValue. rewrite cap_segment_end.
    destruct (leb _ _); reflexivity. }
  split.
  { intro Hshort. split.
    - destruct (drawValue_cases f v) as [[_ Htl]|[Hlong _]]; [exact Htl | lra].
    - unfold card_value. simpl. apply value_segments_short. exact Hshort. }
  split.
  { intro Hlong. split.
    - destruct (drawValue_cases f v) as [[Hshort _]|[_ Htl]]; [lra|].
      eexists. split; [exact Htl|]. split; reflexivity.
    - unfold card_value. simpl tl. apply value_segments_extent; [|exact Hlong].
      apply (clamp_score_range (inject_Z d)). }
  eexists. split; [exact Hgauge|].
  split.
  { unfold shared. destruct (pfpPresent && pfpLoaded); reflexivity. }
  split; [left; reflexivity|].
  rewrite Hclient. rewrite !on_layer_app.
  rewrite !(on_layer_values _ _ Hdv).
  destruct (pfpPresent && pfpLoaded); repeat split; simpl; rewrite ?app_nil_r; reflexivity.
Qed.
(** The witness of C6: score 70 for user "u" without avatar on a
    1600 x 900 background. *)
Lemma C6_backends_share_layers_and_geometry_witness :
  "u" <> ""
  /\ bg_file Examples.good_background = BgLoaded 1600 900
  /\ layers (canvas_script 70 (render_config default_layout_env)
               (bgFile (clamp_score 70) (chained_thresholds default_threshold_env))
               "u" false false 1600 900)
     = [LBackground; LHandle; LTrack; LValue; LNeedle].
Proof.
  assert (Hu : "u" <> "") by discriminate.
  split; [exact Hu|]. split; [reflexivity|].
  exact (proj1 (C6_backends_share_layers_and_geometry
                  default_threshold_env default_layout_env 70 "u" ""
                  false false Examples.good_background 1600 900
                  Hu eq_refl eq_refl eq_refl eq_refl)).
Defined.

(** C6 as stated fails: on the same input the raster renderer of
    src/server.js paints neither track nor value arc, which the canvas
    script paints. *)
Lemma C6_counterexample :
  exists gauge,
    renderGaugeBuffer default_threshold_env default_layout_env
      (mkSession "u" "" (ScoreNum 70)) Examples.good_background = Ok gauge
    /\ layers gauge = [LBackground; LHandle; LNeedle]
    /\ layers (canvas_script 70 (render_config default_layout_env) "bullish.png"
                 "u" false false 1600 900)
       = [LBackground; LHandle; LTrack; LValue; LNeedle]
    /\ layers gauge
       <> layers (canvas_script 70 (render_config default_layout_env) "bullish.png"
                    "u" false false 1600 900).
Proof.
  eexists. split; [reflexivity|].
  match goal with
  | |- ?A = ?B /\ ?C = ?D /\ _ =>
      assert (H1 : A = B) by (vm_compute; reflexivity);
      assert (H2 : C = D) by (vm_compute; reflexivity)
  end.
  split; [exact H1|]. split; [exact H2|].
  rewrite H1, H2. discriminate.
Qed.

(* ------------------------------------------------------------------ *)
(** ** ScoreAggregator: further properties *)

Lemma total_permutation (k : string) (items items' : list json) :
  Permutation items items' ->
  Spec.total k (JArr items) == Spec.total k (JArr items').
Proof.
  unfold Spec.total. simpl.
  induction 1 as [| x l l' _ IH | x y l | l l' l'' _ IH1 _ IH2]; simpl.
  - reflexivity.
  - rewrite IH. reflexivity.
  - ring.
  - rewrite IH1. exact IH2.
Qed.

(** X4: the block of src/server.js computes what the handlers compute on
    every body but the JSON literal [null], where it throws and leaves no
    score while the handlers fall back to the post count. *)
Theorem server_block_differs_only_on_null :
  forall (parsed : option json) (sent : nat),
    (parsed <> Some JNull ->
     displayScore_server parsed sent = displayScore parsed sent)
    /\ displayScore_server (Some JNull) sent = None
    /\ (sent <> O -> displayScore (Some JNull) sent = Some 50%Z).
Proof.
  intros parsed sent. split; [|split].
  - intro H. destruct parsed as [[| | | | |]|]; try reflexivity.
    contradiction H. reflexivity.
  - reflexivity.
  - intro Hs. simpl. unfold score_of_sums, denominator. simpl sP. simpl sNeut. simpl sNeg.
    assert (Hn : 0 < inject_Z (Z.of_nat sent)).
    { change 0 with (inject_Z 0). rewrite <- Zlt_Qlt. lia. }
    assert (E : or_else (0 + 0 + 0) (or_else (inject_Z (Z.of_nat sent)) 0)
                = inject_Z (Z.of_nat sent)).
    { unfold or_else at 1. simpl truthy. cbv iota. unfold or_else.
      assert (Ht : truthy (inject_Z (Z.of_nat sent)) = true).
      { apply truthy_nonzero. intro E. rewrite E in Hn. discriminate Hn. }
      rewrite Ht. reflexivity. }
    rewrite E.
    assert (Hl : ltb 0 (inject_Z (Z.of_nat sent)) = true) by (apply ltb_lt; exact Hn).
    rewrite Hl. f_equal.
    rewrite <- (Math_round_Z 50). apply Math_round_comp.
    change (inject_Z 50) with 50. field. lra.
Qed.

Lemma server_block_differs_only_on_null_witness :
  displayScore_server (Some (JStr "ok")) 3 = displayScore (Some (JStr "ok")) 3
  /\ displayScore (Some JNull) 3 = Some 50%Z.
Proof.
  destruct (server_block_differs_only_on_null (Some (JStr "ok")) 3) as (H1 & _ & _).
  destruct (server_block_differs_only_on_null (Some JNull) 3) as (_ & _ & H3).
  split.
  - apply H1. discriminate.
  - apply H3. discriminate.
Defined.




(* ------------------------------------------------------------------ *)
(** ** StateClassifier: further properties *)

Lemma bgFile_is_background (s : Q) (t : thresholds) :
  exists st, bgFile s t = background st.
Proof.
  unfold bgFile.
  destruct (_ && _); [exists Bearish; reflexivity|].
  destruct (_ && _); [exists Neutral; reflexivity|].
  destruct (_ && _); [exists Bullish; reflexivity|].
  destruct (geb _ _); [exists StronglyBullish | exists StronglyBearish]; reflexivity.
Qed.

Lemma band_order (s s' : Q) (t : thresholds) (st st' : SentimentState) :
  (tSB t <= tB t)%Z -> (tB t <= tN t)%Z -> (tN t <= tBU t)%Z ->
  s <= s' -> band st s t -> band st' s' t -> (Bands.rank st <= Bands.rank st')%nat.
Proof.
  intros H12 H23 H34 Hs Hb Hb'.
  rewrite Zle_Qle in H12, H23, H34.
  destruct st, st'; simpl in *; try lia; exfalso; lra.
Qed.

(** X7: whatever strings configure the thresholds, the renderers that
    chain their clamps classify monotonically: a higher score never gets a
    more bearish background. *)
Theorem classification_monotone_for_any_env :
  forall (e : threshold_env) (s s' : Q),
    0 <= s -> s <= s' -> s' <= 100 ->
    exists st st',
      bgFile s (chained_thresholds e) = background st
      /\ bgFile s' (chained_thresholds e) = background st'
      /\ (Bands.rank st <= Bands.rank st')%nat.
Proof.
  intros e s s' H0 Hle H100.
  destruct (chained_thresholds_ordered e) as (_ & H12 & H23 & H34 & _).
  destruct (bgFile_is_background s (chained_thresholds e)) as [st Hst].
  destruct (bgFile_is_background s' (chained_thresholds e)) as [st' Hst'].
  exists st, st'. split; [exact Hst|]. split; [exact Hst'|].
  apply (band_order s s' (chained_thresholds e)); try assumption.
  - apply bgFile_band; try assumption. split; lra.
  - apply bgFile_band; try assumption. split; lra.
Qed.

Lemma classification_monotone_for_any_env_witness :
  exists st st',
    bgFile 35 (chained_thresholds Examples.unordered_env) = background st
    /\ bgFile 55 (chained_thresholds Examples.unordered_env) = background st'
    /\ (Bands.rank st <= Bands.rank st')%nat.
Proof.
  apply (classification_monotone_for_any_env Examples.unordered_env 35 55);
    discriminate.
Defined.



(* ------------------------------------------------------------------ *)
(** ** GaugeGeometry: further properties *)

Lemma Math_round_upper (x : Q) : inject_Z (Math_round x) <= x + (1 # 2).
Proof. unfold Math_round. apply Qfloor_le. Qed.

Lemma Math_round_lower (x : Q) : x - (1 # 2) < inject_Z (Math_round x).
Proof.
  unfold Math_round. pose proof (Qlt_floor (x + (1 # 2))) as H.
  rewrite inject_Z_plus in H. change (inject_Z 1) with 1 in H. lra.
Qed.

Lemma inject_Z_max (a b : Z) :
  inject_Z (Z.max a b) == Qmax (inject_Z a) (inject_Z b).
Proof.
  destruct (Z.le_ge_cases a b) as [H|H].
  - rewrite Z.max_r by exact H. rewrite Q.max_r; [reflexivity|].
    rewrite <- Zle_Qle. exact H.
  - rewrite Z.max_l by exact H. rewrite Q.max_l; [reflexivity|].
    rewrite <- Zle_Qle. exact H.
Qed.



Lemma valueW_upper (r : Q) : 1 <= r -> inject_Z (valueW r) <= 4 * r.
Proof.
  intro Hr. unfold valueW. rewrite inject_Z_max.
  apply Q.max_lub; [change (inject_Z 4) with 4; lra|].
  pose proof (Math_round_upper (r * (8 # 100))). lra.
Qed.

(** The cap angle on a radius of at least 1. *)
Lemma capAngle_bounds :
  forall r : Q,
    1 <= r ->
    0 < capAngle r /\ capAngle r <= 2
    /\ start_angle + capAngle r < end_angle
    /\ 0 < (end_angle - start_angle) - capAngle r.
Proof.
  intros r Hr.
  assert (Hw : 4 <= inject_Z (valueW r)).
  { change 4 with (inject_Z 4). rewrite <- Zle_Qle. unfold valueW. lia. }
  pose proof (valueW_upper r Hr) as Hu.
  assert (Hh1 : 2 <= inject_Z (valueW r) / 2) by (apply Qle_shift_div_l; lra).
  assert (Hh2 : inject_Z (valueW r) / 2 <= 2 * r) by (apply Qle_shift_div_r; lra).
  assert (Hlo : 0 < capAngle r).
  { unfold capAngle. apply Qlt_shift_div_l; lra. }
  assert (Hhi : capAngle r <= 2).
  { unfold capAngle. apply Qle_shift_div_r; lra. }
  assert (HPI : 2 < Math_PI) by reflexivity.
  unfold end_angle, start_angle. repeat split; lra.
Qed.

(** X10: for every radius a renderer can produce (r >= 1) the cap segment
    spans a positive angle of at most 2 radians, so it never reaches the
    end of the half circle and a positive span is left for the colour
    ramp. *)
Theorem cap_segment_shorter_than_track :
  forall r : Q,
    1 <= r ->
    0 < capAngle r /\ capAngle r <= 2
    /\ start_angle + capAngle r < end_angle
    /\ 0 < (end_angle - start_angle) - capAngle r.
Proof. exact capAngle_bounds. Qed.

Lemma cap_segment_shorter_than_track_witness :
  capAngle 1 <= 2.
Proof.
  destruct (cap_segment_shorter_than_track 1) as (_ & H & _).
  - discriminate.
  - exact H.
Defined.



(* ------------------------------------------------------------------ *)
(** ** GaugeRenderer: the value arc at the ends of the scale *)

Lemma slice_start_inside (from span : Q) (j : Z) :
  0 < span -> (j < segs)%Z -> Spec.slice_start from span segs j < from + span.
Proof.
  intros Hspan Hj. unfold Spec.slice_start, segs in *.
  change (inject_Z 24) with 24.
  assert (Hj' : inject_Z j <= 23) by (change 23 with (inject_Z 23); rewrite <- Zle_Qle; lia).
  assert (E : from + inject_Z j / 24 * span
              == from + span - (24 - inject_Z j) * (span / 24)) by field.
  rewrite E.
  assert (0 < (24 - inject_Z j) * (span / 24)).
  { apply Qmult_lt_0_compat; [lra|]. apply Qlt_shift_div_l; lra. }
  lra.
Qed.

Lemma thetaEnd_0 : thetaEnd 0 == start_angle.
Proof. reflexivity. Qed.

Lemma thetaEnd_100 : thetaEnd 100 == end_angle.
Proof. reflexivity. Qed.

(** X13: on every frame of radius at least 1, score 0 draws the cap
    segment alone, from the start angle to the start angle, and no slice;
    score 100 draws all 24 slices on the server, the last one ending at
    the end of the track, and the gradient stroke of the canvas ends there
    too. *)
Theorem value_arc_at_the_ends_of_the_scale :
  forall f : frame,
    1 <= f_r f ->
    (value_segments f 0 = []
     /\ card_value f 0
        = [Arc CapRound (valueW (f_r f)) (Rgb C_RED) (f_cx f) (f_cy f) (f_r f)
               start_angle (thetaEnd 0)]
     /\ drawValue f 0 = card_value f 0
     /\ thetaEnd 0 == start_angle)
    /\ (List.length (value_segments f 100) = 24%nat
        /\ (exists final a1,
              nth_error (value_segments f 100) 23 = Some final
              /\ arc_to final = Some a1 /\ a1 == end_angle)
        /\ (exists cap gradient,
              drawValue f 100 = [cap; gradient]
              /\ arc_from gradient = Some (start_angle + capAngle (f_r f))
              /\ arc_to gradient = Some (thetaEnd 100))
        /\ thetaEnd 100 == end_angle).
Proof.
  intros f Hr.
  destruct (capAngle_bounds (f_r f) Hr) as (Hcap0 & _ & Hcap & Hspan).
  split.
  - assert (Hshort : thetaEnd 0 <= start_angle + capAngle (f_r f))
      by (rewrite thetaEnd_0; lra).
    assert (Hseg : value_segments f 0 = []) by (apply value_segments_short; exact Hshort).
    assert (Hcard : card_value f 0
                    = [Arc CapRound (valueW (f_r f)) (Rgb C_RED) (f_cx f) (f_cy f) (f_r f)
                           start_angle (thetaEnd 0)]).
    { unfold card_value. rewrite Hseg, cap_segment_end.
      assert (El : leb (thetaEnd 0) (start_angle + capAngle (f_r f)) = true)
        by (apply leb_le; exact Hshort).
      rewrite El. reflexivity. }
    split; [exact Hseg|]. split; [exact Hcard|]. split; [|apply thetaEnd_0].
    rewrite Hcard. unfold drawValue.
    assert (El : leb (thetaEnd 0) (start_angle + capAngle (f_r f)) = true)
      by (apply leb_le; exact Hshort).
    rewrite El. reflexivity.
  - assert (Hlong : start_angle + capAngle (f_r f) < thetaEnd 100)
      by (rewrite thetaEnd_100; exact Hcap).
    set (from := start_angle + capAngle (f_r f)) in *.
    set (span := (end_angle - start_angle) - capAngle (f_r f)) in *.
    assert (Hend : from + span == end_angle) by (unfold from, span; ring).
    assert (Hte : thetaEnd 100 <= from + span) by (rewrite Hend, thetaEnd_100; lra).
    assert (Hslices : value_segments f 100
                      = segment_loop (Z.to_nat segs) 0 f from span (thetaEnd 100)).
    { unfold value_segments. fold from. fold span.
      assert (El : ltb from (thetaEnd 100) = true) by (apply ltb_lt; exact Hlong).
      rewrite El. reflexivity. }
    assert (Hlt0 : Spec.slice_start from span segs 0 < thetaEnd 100).
    { assert (E : Spec.slice_start from span segs 0 == from).
      { unfold Spec.slice_start, segs.
        change (inject_Z 0) with 0. change (inject_Z 24) with 24. field. }
      rewrite E. exact Hlong. }
    pose proof (segment_loop_length f from span (thetaEnd 100) (Z.to_nat segs) 0%Z) as Hlen.
    pose proof (segment_loop_nonempty f from span (thetaEnd 100) Hspan Hte
                  (Z.to_nat segs) 0%Z eq_refl Hlt0) as Hne.
    rewrite <- Hslices in Hlen, Hne.
    assert (Hlast : exists n, S n = List.length (value_segments f 100)).
    { destruct (value_segments f 100) as [|x l]; [contradiction Hne; reflexivity|].
      exists (List.length l). reflexivity. }
    destruct Hlast as [n Hn].
    assert (Hsome : exists final, nth_error (value_segments f 100) n = Some final).
    { destruct (nth_error (value_segments f 100) n) eqn:E; [eexists; reflexivity|].
      apply nth_error_None in E. lia. }
    destruct Hsome as [final Hfinal].
    pose proof Hfinal as Hfinal'. rewrite Hslices in Hfinal'.
    destruct (segment_loop_nth f from span (thetaEnd 100) Hspan Hte (Z.to_nat segs)
                0%Z eq_refl Hlt0 n final Hfinal')
      as (a1 & Hop & Hj & _ & Hnext).
    rewrite <- Hslices in Hnext. cbv zeta in Hop, Hj, Hnext.
    destruct Hnext as [[Hmore _]|[_ [Ha1 Hreach]]].
    { apply nth_error_Some in Hmore. lia. }
    assert (Hn23 : n = 23%nat).
    { change (Z.to_nat segs) with 24%nat in Hlen.
      destruct (Nat.eq_dec n 23) as [E|E]; [exact E|]. exfalso.
      assert (Hj' : (0 + Z.of_nat n + 1 < segs)%Z) by (unfold segs; lia).
      pose proof (slice_start_inside from span _ Hspan Hj') as Hin.
      rewrite Hend in Hin. rewrite thetaEnd_100 in Hreach. lra. }
    subst n.
    split; [symmetry; exact Hn|].
    split.
    { exists final, a1. split; [exact Hfinal|]. split; [rewrite Hop; reflexivity|].
      rewrite Ha1. apply thetaEnd_100. }
    split; [|apply thetaEnd_100].
    unfold drawValue. fold from.
    assert (El : leb (thetaEnd 100) from = false) by (apply leb_gt; exact Hlong).
    rewrite El. eexists. eexists. split; [reflexivity|]. split; reflexivity.
Qed.

Lemma value_arc_at_the_ends_of_the_scale_witness :
  List.length (value_segments Examples.default_frame 100) = 24%nat.
Proof.
  destruct (value_arc_at_the_ends_of_the_scale Examples.default_frame) as (_ & H & _).
  - vm_compute. discriminate.
  - exact H.
Defined.

(* ------------------------------------------------------------------ *)
(** ** The lenient integer parser *)

Local Open Scope string_scope.

Lemma match_int_no_digit (v : string) :
  Shapes.digit_free v = true -> match_int v = None.
Proof.
  unfold Shapes.digit_free. rewrite negb_true_iff.
  induction v as [|c v IH]; simpl; [reflexivity|].
  intro H. apply orb_false_iff in H. destruct H as [Hc Hv].
  rewrite Hc.
  assert (Hld : leading_digits v = []).
  { destruct v as [|c' v']; [reflexivity|]. simpl in *.
    apply orb_false_iff in Hv. destruct Hv as [Hc' _]. rewrite Hc'. reflexivity. }
  rewrite Hld. destruct (Ascii.eqb c "-"); apply IH; exact Hv.
Qed.

(** X14: a string without any digit, the empty string included, parses to
    the default. *)
Theorem intish_without_digits_is_the_default :
  forall (v : string) (def : Z),
    Shapes.digit_free v = true -> intish v def = def.
Proof.
  intros v def H. unfold intish. rewrite (match_int_no_digit v H). reflexivity.
Qed.

Lemma intish_without_digits_is_the_default_witness :
  intish "abc" 60 = 60%Z /\ intish "" 20 = 20%Z /\ intish "-x-" 7 = 7%Z.
Proof.
  split; [|split]; apply intish_without_digits_is_the_default; reflexivity.
Defined.

Lemma leading_digits_run (ds rest : string) :
  Shapes.all_digits ds = true -> Shapes.no_leading_digit rest = true ->
  leading_digits (ds ++ rest) = list_ascii_of_string ds.
Proof.
  unfold Shapes.all_digits. intros Hds Hrest.
  induction ds as [|c ds IH]; simpl in *.
  - destruct rest as [|c r]; [reflexivity|]. simpl in *.
    apply negb_true_iff in Hrest. rewrite Hrest. reflexivity.
  - apply andb_true_iff in Hds. destruct Hds as [Hc Hds].
    rewrite Hc, (IH Hds). reflexivity.
Qed.

Lemma match_int_skips (junk s : string) :
  Shapes.skipped junk = true -> match_int (junk ++ s) = match_int s.
Proof.
  unfold Shapes.skipped. induction junk as [|c junk IH]; simpl; [reflexivity|].
  intro H. apply andb_true_iff in H. destruct H as [Hc Hj].
  apply andb_true_iff in Hc. destruct Hc as [Hd Hm].
  apply negb_true_iff in Hd. apply negb_true_iff in Hm.
  rewrite Hd, Hm. apply IH. exact Hj.
Qed.

Lemma digits_val_nonneg_from (ds : list ascii) :
  forallb is_digit ds = true ->
  forall acc : Z, (0 <= acc)%Z ->
    (0 <= fold_left (fun a c => 10 * a + digit_val c) ds acc)%Z.
Proof.
  induction ds as [|c ds IH]; cbn [fold_left forallb]; intros Hds acc Hacc;
    [exact Hacc|].
  apply andb_true_iff in Hds. destruct Hds as [Hc Hds].
  apply IH; [exact Hds|].
  unfold is_digit in Hc. cbv zeta in Hc.
  apply andb_true_iff in Hc. destruct Hc as [Hlo _].
  apply Z.leb_le in Hlo. unfold digit_val. lia.
Qed.

(* ------------------------------------------------------------------ *)
(** ** The paging loops *)

Import Pagination.
Local Open Scope list_scope.

Lemma collect_router_trace (left : nat) (a : api) (want : Q) :
  forall (st : fetched) (cursor : string),
    exists more : list string,
      requests (collect_router left a want st cursor) = requests st ++ more
      /\ (List.length more <= left)%nat
      /\ collected (collect_router left a want st cursor)
         = collected st ++ pages_of a (List.length (requests st)) more
      /\ (more = [] \/ exists rest, more = cursor :: rest)
      /\ chained a (List.length (requests st)) more.
Proof.
  induction left as [|left IH]; intros st cursor.
  - exists []. simpl. rewrite !app_nil_r. repeat split; auto.
  - cbn [collect_router].
    destruct (wants_more (collected st) want).
    2:{ exists []. simpl. rewrite !app_nil_r. repeat split; auto with arith. }
    destruct (a (List.length (requests st)) cursor) as [|page has_next next] eqn:Ea.
    { exists [cursor]. cbn [requests collected pages_of chained List.length].
      rewrite Ea. simpl. rewrite app_nil_r.
      repeat split; auto with arith. right. exists []. reflexivity. }
    destruct page as [|t page].
    { exists [cursor]. cbn [requests collected pages_of chained List.length].
      rewrite Ea. simpl. rewrite app_nil_r.
      repeat split; auto with arith. right. exists []. reflexivity. }
    destruct (last_page has_next next).
    { exists [cursor]. cbn [requests collected pages_of chained List.length].
      rewrite Ea. rewrite app_nil_r.
      repeat split; auto with arith. right. exists []. reflexivity. }
    destruct (IH (mkFetched (collected st ++ t :: page) (requests st ++ [cursor])) next)
      as (more & Hreq & Hlen & Hcol & Hhd & Hch).
    cbn [requests collected] in Hreq, Hcol, Hch.
    rewrite length_app in Hcol, Hch. cbn [List.length] in Hcol, Hch.
    rewrite Nat.add_1_r in Hcol, Hch.
    exists (cursor :: more).
    split; [rewrite Hreq, <- app_assoc; reflexivity|].
    split; [simpl; lia|].
    split.
    { rewrite Hcol. cbn [pages_of]. rewrite Ea, <- app_assoc. reflexivity. }
    split; [right; exists more; reflexivity|].
    cbn [chained]. destruct more as [|c' more']; [exact I|].
    split; [|exact Hch].
    destruct Hhd as [Hnil|[rest Hrest]]; [discriminate Hnil|].
    injection Hrest as -> _. exists (t :: page), has_next. exact Ea.
Qed.

(** X16: the routers make at most five calls to the posts API; the first
    carries no cursor and each later one the cursor the answer before
    named; what they collect is the pages answered, in order, and what
    they send on is never more than the number of posts asked for. *)
Theorem router_fetch_is_bounded_and_chained :
  forall (a : api) (want : Q),
    let st := router_fetch a want in
    (List.length (requests st) <= MAX_PAGES)%nat
    /\ (requests st = [] \/ exists rest, requests st = "" :: rest)
    /\ chained a 0 (requests st)
    /\ collected st = pages_of a 0 (requests st)
    /\ tweetsToSend (collected st) want
       = firstn (Z.to_nat (Qfloor want)) (pages_of a 0 (requests st))
    /\ (List.length (tweetsToSend (collected st) want) <= Z.to_nat (Qfloor want))%nat.
Proof.
  intros a want st.
  destruct (collect_router_trace MAX_PAGES a want (mkFetched [] []) "")
    as (more & Hreq & Hlen & Hcol & Hhd & Hch).
  fold (router_fetch a want) in Hreq, Hcol. fold st in Hreq, Hcol.
  cbn [requests collected List.length app] in Hreq, Hcol, Hch.
  rewrite Hreq, Hcol. repeat split; try assumption.
  unfold tweetsToSend. apply firstn_le_length.
Qed.

Lemma wants_more_false_stays (c : list json) (want : Q) (fuel : nat) (a : api)
    (call : nat) (cursor : string) :
  wants_more c want = false ->
  collect_handler fuel a want call c cursor = Some (Collected c).
Proof.
  intro H. destruct fuel; simpl; rewrite H; reflexivity.
Qed.

Lemma collect_handler_terminates (fuel : nat) (a : api) (want : Q) :
  forall (call : nat) (c : list json) (cursor : string),
    (Z.to_nat (Qceiling want) <= fuel + List.length c)%nat ->
    exists o, collect_handler fuel a want call c cursor = Some o.
Proof.
  induction fuel as [|fuel IH]; intros call c cursor Hfuel.
  - destruct (wants_more c want) eqn:Hw.
    + exfalso. unfold wants_more in Hw. apply ltb_lt in Hw.
      pose proof (Qle_ceiling want) as Hc.
      assert (Hz : (Qceiling want <= Z.of_nat (List.length c))%Z) by lia.
      rewrite Zle_Qle in Hz. lra.
    + eexists. apply wants_more_false_stays. exact Hw.
  - cbn [collect_handler]. destruct (wants_more c want); [|eexists; reflexivity].
    destruct (a call cursor) as [|page has_next next]; [eexists; reflexivity|].
    destruct page as [|t page]; [eexists; reflexivity|].
    destruct (last_page has_next next); [eexists; reflexivity|].
    apply IH. rewrite length_app. simpl. lia.
Qed.

Lemma collect_handler_more_fuel (fuel : nat) (a : api) (want : Q) :
  forall (call : nat) (c : list json) (cursor : string) (o : outcome) (extra : nat),
    collect_handler fuel a want call c cursor = Some o ->
    collect_handler (fuel + extra) a want call c cursor = Some o.
Proof.
  induction fuel as [|fuel IH]; intros call c cursor o extra H.
  - simpl in H. destruct (wants_more c want) eqn:Hw; [discriminate H|].
    rewrite wants_more_false_stays by exact Hw. exact H.
  - cbn [collect_handler Nat.add] in *.
    destruct (wants_more c want); [|exact H].
    destruct (a call cursor) as [|page has_next next]; [exact H|].
    destruct page as [|t page]; [exact H|].
    destruct (last_page has_next next); [exact H|].
    apply IH. exact H.
Qed.

(** X18: the loop of src/server.js has no break on an empty page: against
    an API that keeps answering an empty page, a next page and a cursor it
    never ends, where the loop of the canvas handlers stops after that
    first answer with nothing collected. *)
Theorem server_loop_spins_on_empty_pages :
  forall (a : api) (want : Q) (next : string),
    0 < want -> next <> "" ->
    (forall n c, a n c = ApiPage [] true next) ->
    (forall fuel : nat, collect_server fuel a want 0 [] "" = None)
    /\ (forall fuel : nat, collect_handler (S fuel) a want 0 [] "" = Some (Collected [])).
Proof.
  intros a want next Hwant Hnext Ha.
  assert (Hw : wants_more [] want = true) by (apply ltb_lt; exact Hwant).
  assert (Hl : last_page true next = false).
  { unfold last_page. simpl. apply String.eqb_neq. exact Hnext. }
  split.
  - intro fuel. generalize 0%nat at 1. generalize "" at 1.
    induction fuel as [|fuel IH]; intros cursor call; cbn [collect_server]; rewrite Hw.
    + reflexivity.
    + rewrite Ha, Hl. apply IH.
  - intro fuel. cbn [collect_handler]. rewrite Hw, Ha. reflexivity.
Qed.

Lemma server_loop_spins_on_empty_pages_witness :
  collect_server 1000 (fun _ _ => ApiPage [] true "c") 25 0 [] "" = None.
Proof.
  refine (proj1 (server_loop_spins_on_empty_pages
                   (fun _ _ => ApiPage [] true "c") 25 "c" _ _ _) 1000%nat).
  - reflexivity.
  - discriminate.
  - intros n c. reflexivity.
Defined.

(* ------------------------------------------------------------------ *)
(** ** [escapeHtml] *)

Import Html.
Local Open Scope string_scope.

Lemma list_ascii_app (a b : string) :
  list_ascii_of_string (a ++ b) = (list_ascii_of_string a ++ list_ascii_of_string b)%list.
Proof. induction a as [|c a IH]; simpl; [reflexivity | rewrite IH; reflexivity]. Qed.

(** The six ways [entity] goes. *)
Lemma entity_cases (c : ascii) :
  (c = "&"%char /\ entity c = "&amp;")
  \/ (c = "<"%char /\ entity c = "&lt;")
  \/ (c = ">"%char /\ entity c = "&gt;")
  \/ (c = quot /\ entity c = "&quot;")
  \/ (c = apos /\ entity c = "&#39;")
  \/ (special c = false /\ entity c = String c "").
Proof.
  unfold entity, special, markup.
  destruct (Ascii.eqb c "&") eqn:E1;
    [apply Ascii.eqb_eq in E1; left; split; [exact E1 | reflexivity]|].
  destruct (Ascii.eqb c "<") eqn:E2;
    [apply Ascii.eqb_eq in E2; right; left; split; [exact E2 | reflexivity]|].
  destruct (Ascii.eqb c ">") eqn:E3;
    [apply Ascii.eqb_eq in E3; do 2 right; left; split; [exact E3 | reflexivity]|].
  destruct (Ascii.eqb c quot) eqn:E4;
    [apply Ascii.eqb_eq in E4; do 3 right; left; split; [exact E4 | reflexivity]|].
  destruct (Ascii.eqb c apos) eqn:E5;
    [apply Ascii.eqb_eq in E5; do 4 right; left; split; [exact E5 | reflexivity]|].
  do 5 right. split; reflexivity.
Qed.

Lemma entity_has_no_markup (c : ascii) :
  existsb markup (list_ascii_of_string (entity c)) = false.
Proof.
  destruct (entity_cases c) as [[_ E]|[[_ E]|[[_ E]|[[_ E]|[[_ E]|[Hs E]]]]]];
    rewrite E; try reflexivity.
  simpl. unfold special in Hs. apply orb_false_iff in Hs. destruct Hs as [_ Hm].
  rewrite Hm. reflexivity.
Qed.

Lemma escapeHtml_app (a b : string) :
  escapeHtml (a ++ b) = escapeHtml a ++ escapeHtml b.
Proof.
  induction a as [|c a IH]; simpl; [reflexivity|].
  rewrite IH. generalize (entity c). intro e.
  induction e as [|x e IHe]; simpl; [reflexivity | rewrite IHe; reflexivity].
Qed.

(** X19: the output of [escapeHtml] holds no less-than, greater-than,
    double quote or apostrophe, whatever the input; escaping works piece
    by piece, and a string without any of the five special characters
    comes back unchanged. *)
Theorem escapeHtml_leaves_no_markup :
  forall s t : string,
    existsb markup (list_ascii_of_string (escapeHtml s)) = false
    /\ escapeHtml (s ++ t) = escapeHtml s ++ escapeHtml t
    /\ (existsb special (list_ascii_of_string s) = false -> escapeHtml s = s).
Proof.
  intros s t. split; [|split].
  - induction s as [|c s IH]; simpl; [reflexivity|].
    rewrite list_ascii_app, existsb_app, entity_has_no_markup, IH. reflexivity.
  - apply escapeHtml_app.
  - induction s as [|c s IH]; simpl; [reflexivity|].
    intro H. apply orb_false_iff in H. destruct H as [Hc Hs].
    rewrite (IH Hs).
    destruct (entity_cases c) as [[E _]|[[E _]|[[E _]|[[E _]|[[E _]|[_ E]]]]]];
      try (rewrite E in Hc; discriminate Hc).
    rewrite E. reflexivity.
Qed.

Lemma escapeHtml_leaves_no_markup_witness :
  escapeHtml "Sent 5 tweets" = "Sent 5 tweets".
Proof.
  apply (escapeHtml_leaves_no_markup "Sent 5 tweets" ""). reflexivity.
Defined.

Lemma entity_prefix_injective (c c' : ascii) (x y : string) :
  entity c ++ x = entity c' ++ y -> c = c' /\ x = y.
Proof.
  intro H.
  destruct (entity_cases c) as [[E R]|[[E R]|[[E R]|[[E R]|[[E R]|[Hs R]]]]]];
    destruct (entity_cases c') as [[E' R']|[[E' R']|[[E' R']|[[E' R']|[[E' R']|[Hs' R']]]]]];
    rewrite R, R' in H; simpl in H; try discriminate H.
  all: try (injection H as H; subst; split; reflexivity).
  all: injection H as Hc Hx; subst; try discriminate Hs'; discriminate Hs.
Qed.

(** X20: [escapeHtml] loses nothing: two different texts never escape to
    the same text.  The plain page of src/server.js escapes the less-than
    sign only: its output holds none, but it leaves ampersands alone, so
    a less-than sign and the text of its own entity come out the same. *)
Theorem escapeHtml_is_injective :
  (forall s t : string, escapeHtml s = escapeHtml t -> s = t)
  /\ (forall s : string, Text.occurs "<" (escape_lt s) = false)
  /\ escape_lt "<" = escape_lt "&lt;".
Proof.
  split; [|split].
  - induction s as [|c s IH]; intros [|c' t] H; simpl in H.
    + reflexivity.
    + exfalso. destruct (entity_cases c') as [[_ R]|[[_ R]|[[_ R]|[[_ R]|[[_ R]|[_ R]]]]]];
        rewrite R in H; discriminate H.
    + exfalso. destruct (entity_cases c) as [[_ R]|[[_ R]|[[_ R]|[[_ R]|[[_ R]|[_ R]]]]]];
        rewrite R in H; discriminate H.
    + destruct (entity_prefix_injective c c' _ _ H) as [Hc Hrest].
      subst c'. f_equal. apply IH. exact Hrest.
  - unfold Text.occurs. induction s as [|c s IH]; [reflexivity|].
    cbn [escape_lt]. rewrite list_ascii_app, existsb_app, IH, orb_false_r.
    destruct (Ascii.eqb c "<") eqn:E; [reflexivity|].
    cbn [list_ascii_of_string existsb]. rewrite orb_false_r, Ascii.eqb_sym. exact E.
  - reflexivity.
Qed.

(* ------------------------------------------------------------------ *)
(** ** Strings *)

Import Text.
Local Open Scope string_scope.

Lemma string_app_nil_r (a : string) : a ++ "" = a.
Proof. induction a as [|c a IH]; simpl; [reflexivity | rewrite IH; reflexivity]. Qed.

Lemma string_app_assoc (a b c : string) : (a ++ b) ++ c = a ++ (b ++ c).
Proof. induction a as [|x a IH]; simpl; [reflexivity | rewrite IH; reflexivity]. Qed.

Lemma string_length_app (a b : string) :
  String.length (a ++ b) = (String.length a + String.length b)%nat.
Proof. induction a as [|x a IH]; simpl; [reflexivity | rewrite IH; reflexivity]. Qed.

Lemma occurs_app (c : ascii) (a b : string) :
  occurs c (a ++ b) = occurs c a || occurs c b.
Proof. unfold occurs. rewrite list_ascii_app, existsb_app. reflexivity. Qed.

Lemma occurs_cons (c x : ascii) (s : string) :
  occurs c (String x s) = Ascii.eqb c x || occurs c s.
Proof. reflexivity. Qed.

Lemma replace_all_app (c d : ascii) (a b : string) :
  replace_all c d (a ++ b) = replace_all c d a ++ replace_all c d b.
Proof. induction a as [|x a IH]; simpl; [reflexivity | rewrite IH; reflexivity]. Qed.

Lemma split_on_nonempty (sep : ascii) (s : string) : split_on sep s <> [].
Proof.
  induction s as [|c s IH]; simpl; [discriminate|].
  destruct (Ascii.eqb c sep); [discriminate|].
  destruct (split_on sep s); [contradiction IH; reflexivity | discriminate].
Qed.

Lemma split_on_no_sep (sep : ascii) (s : string) :
  occurs sep s = false -> split_on sep s = [s].
Proof.
  induction s as [|c s IH]; [reflexivity|].
  rewrite occurs_cons. intro H. apply orb_false_iff in H. destruct H as [Hc Hs].
  cbn [split_on]. rewrite Ascii.eqb_sym, Hc, (IH Hs). reflexivity.
Qed.

Lemma split_on_app (sep : ascii) (a b : string) :
  occurs sep a = false ->
  split_on sep (a ++ String sep b) = a :: split_on sep b.
Proof.
  induction a as [|c a IH]; intro H.
  - cbn [append split_on]. rewrite Ascii.eqb_refl. reflexivity.
  - rewrite occurs_cons in H. apply orb_false_iff in H. destruct H as [Hc Ha].
    cbn [append split_on]. rewrite Ascii.eqb_sym, Hc, (IH Ha). reflexivity.
Qed.

(** Splitting loses nothing: the pieces hold no separator, and joined by
    the separator they give the string back. *)
Lemma split_on_join (sep : ascii) (s : string) :
  join (String sep "") (split_on sep s) = s
  /\ Forall (fun piece => occurs sep piece = false) (split_on sep s).
Proof.
  unfold join. induction s as [|c s [IHj IHf]]; [split; [reflexivity | repeat constructor]|].
  cbn [split_on]. destruct (Ascii.eqb c sep) eqn:E.
  - apply Ascii.eqb_eq in E. subst c. split.
    + pose proof (split_on_nonempty sep s) as Hne.
      destruct (split_on sep s) as [|p ps]; [contradiction Hne; reflexivity|].
      change (String.concat (String sep "") ("" :: p :: ps))
        with (String sep (String.concat (String sep "") (p :: ps))).
      rewrite IHj. reflexivity.
    + constructor; [reflexivity | exact IHf].
  - pose proof (split_on_nonempty sep s) as Hne.
    destruct (split_on sep s) as [|p ps]; [contradiction Hne; reflexivity|].
    split.
    + destruct ps as [|q qs].
      * simpl in IHj. simpl. rewrite IHj. reflexivity.
      * change (String.concat (String sep "") (String c p :: q :: qs))
          with (String c (String.concat (String sep "") (p :: q :: qs))).
        rewrite IHj. reflexivity.
    + inversion IHf as [|? ? Hp Hps]; subst. constructor; [|exact Hps].
      rewrite occurs_cons, Ascii.eqb_sym, E, Hp. reflexivity.
Qed.

(* ------------------------------------------------------------------ *)
(** ** The session token *)

Import SessionCodec.

Lemma base64_body_split (b : string) :
  base64_body b = true ->
  exists body pad,
    b = body ++ pad
    /\ forallb base64_char (list_ascii_of_string body) = true
    /\ (pad = "" \/ pad = "=" \/ pad = "==").
Proof.
  induction b as [|c b IH]; intro H.
  - exists "", "". repeat split; auto.
  - cbn [base64_body] in H. destruct (base64_char c) eqn:Ec.
    + destruct (IH H) as (body & pad & Hb & Hbody & Hpad).
      exists (String c body), pad. split; [simpl; rewrite Hb; reflexivity|].
      split; [simpl; rewrite Ec, Hbody; reflexivity | exact Hpad].
    + exists "", (String c b). split; [reflexivity|]. split; [reflexivity|].
      apply orb_true_iff in H. destruct H as [H|H]; apply String.eqb_eq in H; auto.
Qed.

(** Back and forth on one character of the alphabet. *)
Lemma swap_back (c : ascii) :
  base64_char c = true ->
  (let x := if Ascii.eqb c "+" then "-"%char else c in
   let y := if Ascii.eqb x "/" then "_"%char else x in
   let z := if Ascii.eqb y "-" then "+"%char else y in
   if Ascii.eqb z "_" then "/"%char else z) = c
  /\ (let x := if Ascii.eqb c "+" then "-"%char else c in
      let y := if Ascii.eqb x "/" then "_"%char else x in
      Ascii.eqb y "=" = false /\ Ascii.eqb y "." = false).
Proof.
  intro H. cbv zeta.
  destruct (Ascii.eqb c "+") eqn:E1; [apply Ascii.eqb_eq in E1; subst; split; [|split]; reflexivity|].
  destruct (Ascii.eqb c "/") eqn:E2; [apply Ascii.eqb_eq in E2; subst; split; [|split]; reflexivity|].
  destruct (Ascii.eqb c "-") eqn:E3; [apply Ascii.eqb_eq in E3; subst; discriminate H|].
  destruct (Ascii.eqb c "_") eqn:E4; [apply Ascii.eqb_eq in E4; subst; discriminate H|].
  split; [reflexivity|].
  split.
  - destruct (Ascii.eqb c "=") eqn:E5; [apply Ascii.eqb_eq in E5; subst; discriminate H | reflexivity].
  - destruct (Ascii.eqb c ".") eqn:E6; [apply Ascii.eqb_eq in E6; subst; discriminate H | reflexivity].
Qed.

Lemma body_round_trip (body : string) :
  forallb base64_char (list_ascii_of_string body) = true ->
  replace_all "_" "/" (replace_all "-" "+" (replace_all "/" "_" (replace_all "+" "-" body)))
  = body
  /\ occurs "=" (replace_all "/" "_" (replace_all "+" "-" body)) = false
  /\ occurs "." (replace_all "/" "_" (replace_all "+" "-" body)) = false
  /\ String.length (replace_all "/" "_" (replace_all "+" "-" body)) = String.length body.
Proof.
  induction body as [|c body IH]; [intros _; repeat split|].
  cbn [list_ascii_of_string forallb]. intro H. apply andb_true_iff in H.
  destruct H as [Hc Hb]. destruct (IH Hb) as (I1 & I2 & I3 & I4).
  destruct (swap_back c Hc) as (S1 & S2 & S3). cbv zeta in S1, S2, S3.
  cbn [replace_all String.length]. rewrite I1, S1, I4.
  rewrite !occurs_cons, I2, I3.
  rewrite (Ascii.eqb_sym "="), (Ascii.eqb_sym "."), S2, S3.
  repeat split.
Qed.

Lemma strip_padding_of_padded (x pad : string) :
  occurs "=" x = false ->
  (pad = "" \/ pad = "=" \/ pad = "==") ->
  strip_padding (x ++ pad) = x.
Proof.
  intros Hx Hpad. induction x as [|c x IH].
  - destruct Hpad as [->|[->| ->]]; reflexivity.
  - rewrite occurs_cons in Hx. apply orb_false_iff in Hx. destruct Hx as [Hc Hx].
    cbn [append strip_padding]. rewrite (IH Hx).
    rewrite Ascii.eqb_sym in Hc. rewrite Hc. destruct x; reflexivity.
Qed.

Lemma pad_loop_restores (x pad : string) :
  (pad = "" \/ pad = "=" \/ pad = "==") ->
  (String.length (x ++ pad) mod 4 = 0)%nat ->
  pad_loop 3 x = x ++ pad.
Proof.
  intros Hpad Hlen. rewrite string_length_app in Hlen.
  destruct Hpad as [->|[->| ->]]; cbn [String.length] in Hlen.
  - rewrite string_app_nil_r. cbn [pad_loop].
    replace (String.length x mod 4 =? 0)%nat with true
      by (symmetry; apply Nat.eqb_eq; rewrite Nat.add_0_r in Hlen; exact Hlen).
    reflexivity.
  - cbn [pad_loop].
    replace (String.length x mod 4 =? 0)%nat with false
      by (symmetry; apply Nat.eqb_neq; intro E;
          pose proof (Nat.Div0.add_mod (String.length x) 1 4) as A;
          rewrite E in A; rewrite A in Hlen; discriminate Hlen).
    replace (String.length (x ++ "=") mod 4 =? 0)%nat with true
      by (symmetry; apply Nat.eqb_eq; rewrite string_length_app; exact Hlen).
    reflexivity.
  - cbn [pad_loop].
    replace (String.length x mod 4 =? 0)%nat with false
      by (symmetry; apply Nat.eqb_neq; intro E;
          pose proof (Nat.Div0.add_mod (String.length x) 2 4) as A;
          rewrite E in A; rewrite A in Hlen; discriminate Hlen).
    replace (String.length (x ++ "=") mod 4 =? 0)%nat with false.
    2:{ symmetry. apply Nat.eqb_neq. rewrite string_length_app. cbn [String.length].
        intro E.
        pose proof (Nat.Div0.add_mod (String.length x + 1) 1 4) as A.
        rewrite E in A. replace (String.length x + 1 + 1)%nat
          with (String.length x + 2)%nat in A by lia.
        rewrite A in Hlen. discriminate Hlen. }
    replace (String.length ((x ++ "=") ++ "=") mod 4 =? 0)%nat with true.
    2:{ symmetry. apply Nat.eqb_eq. rewrite !string_length_app. cbn [String.length].
        replace (String.length x + 1 + 1)%nat with (String.length x + 2)%nat by lia.
        exact Hlen. }
    rewrite string_app_assoc. reflexivity.
Qed.

(** Stripping and restoring the padding of base64 text. *)
Lemma base64_text_of_b64url_text :
  forall base64 : string,
    base64_shape base64 = true ->
    base64_text (b64url_text base64) = base64
    /\ occurs "=" (b64url_text base64) = false
    /\ occurs "." (b64url_text base64) = false.
Proof.
  intros b H. unfold base64_shape in H. apply andb_true_iff in H.
  destruct H as [Hbody Hlen]. apply Nat.eqb_eq in Hlen.
  destruct (base64_body_split b Hbody) as (body & pad & Hb & Hchars & Hpad).
  destruct (body_round_trip body Hchars) as (Hback & Hno_eq & Hno_dot & Hsame).
  assert (Hpad_fixed : replace_all "/" "_" (replace_all "+" "-" pad) = pad)
    by (destruct Hpad as [->|[->| ->]]; reflexivity).
  assert (Hurl : b64url_text b = replace_all "/" "_" (replace_all "+" "-" body)).
  { unfold b64url_text. rewrite Hb, !replace_all_app, Hpad_fixed.
    apply strip_padding_of_padded; assumption. }
  rewrite Hurl. split; [|split; assumption].
  unfold base64_text. rewrite Hback, Hb. apply pad_loop_restores; [exact Hpad|].
  rewrite <- Hb. exact Hlen.
Qed.

(** X21: the text [fromB64url] rebuilds from the text [b64url] wrote is the
    base64 text [b64url] started from, whatever an encoder can have
    written: the padding stripped is the padding put back.  And the text
    [b64url] writes holds neither an equals sign nor a dot. *)
Theorem base64url_text_round_trip :
  forall base64 : string,
    base64_shape base64 = true ->
    base64_text (b64url_text base64) = base64
    /\ occurs "=" (b64url_text base64) = false
    /\ occurs "." (b64url_text base64) = false.
Proof. exact base64_text_of_b64url_text. Qed.

Lemma base64url_text_round_trip_witness :
  b64url_text "QUI+Lw==" = "QUI-Lw" /\ base64_text (b64url_text "QUI+Lw==") = "QUI+Lw==".
Proof.
  split; [reflexivity|].
  apply (base64url_text_round_trip "QUI+Lw=="). reflexivity.
Defined.

(** X22: [getSession] gives a session only for a token of exactly two
    dot-separated parts whose second part decodes to the HMAC of the
    first under the secret, and then it is what the first part decodes
    and parses to; a missing or empty token, a token with no dot or with
    more than one, a wrong signature and a payload that does not parse
    all give [null]. *)
Theorem getSession_accepts_only_signed_tokens :
  forall (base64_decode : string -> string) (hmac : string -> string -> string)
         (JSON_parse : string -> option json)
         (token : option string) (secret : string),
    getSession base64_decode hmac JSON_parse token secret <> JNull ->
    exists payloadB64 sigB64 obj,
      token = Some (payloadB64 ++ "." ++ sigB64)
      /\ occurs "." payloadB64 = false /\ occurs "." sigB64 = false
      /\ fromB64url base64_decode sigB64 = hmac payloadB64 secret
      /\ JSON_parse (fromB64url base64_decode payloadB64) = Some obj
      /\ getSession base64_decode hmac JSON_parse token secret = or_null obj.
Proof.
  intros base64_decode hmac JSON_parse token secret H.
  destruct token as [t|]; [|contradiction H; reflexivity].
  destruct t as [|c t]; [contradiction H; reflexivity|].
  unfold getSession in *.
  destruct (split_on_join "." (String c t)) as [Hjoin Hparts].
  destruct (split_on "." (String c t)) as [|p [|s [|x rest]]];
    try (contradiction H; reflexivity).
  destruct ((String.length (hmac p secret) =? String.length (fromB64url base64_decode s))%nat
            && String.eqb (hmac p secret) (fromB64url base64_decode s)) eqn:Ecmp;
    [|contradiction H; reflexivity].
  apply andb_true_iff in Ecmp. destruct Ecmp as [_ Eeq]. apply String.eqb_eq in Eeq.
  destruct (JSON_parse (fromB64url base64_decode p)) as [obj|] eqn:Eparse;
    [|contradiction H; reflexivity].
  inversion Hparts as [|? ? Hp Hrest]; subst.
  inversion Hrest as [|? ? Hs _]; subst.
  exists p, s, obj. unfold join in Hjoin. simpl in Hjoin.
  split; [rewrite <- Hjoin; reflexivity|].
  repeat split; auto.
Qed.

Lemma getSession_accepts_only_signed_tokens_witness :
  exists payloadB64 sigB64 obj,
    Some "e30.c2ln" = Some (payloadB64 ++ "." ++ sigB64)
    /\ occurs "." payloadB64 = false /\ occurs "." sigB64 = false
    /\ fromB64url (fun _ => "k") sigB64 = "k"
    /\ Some (JObj []) = Some obj
    /\ getSession (fun _ => "k") (fun _ _ => "k") (fun _ => Some (JObj []))
         (Some "e30.c2ln") "s" = or_null obj.
Proof.
  apply (getSession_accepts_only_signed_tokens
           (fun _ => "k") (fun _ _ => "k") (fun _ => Some (JObj []))
           (Some "e30.c2ln") "s").
  discriminate.
Defined.

Lemma string_app_cons_nonempty (a b : string) (c : ascii) :
  exists x r, a ++ String c b = String x r.
Proof. destruct a as [|x a]; simpl; eexists; eexists; reflexivity. Qed.

(** X23: the token [setSession] writes is the token [getSession] reads:
    for every base64 encoder, HMAC and JSON implementation that work on
    the two buffers involved (the encoder writes well-formed base64 that
    its decoder reads back, and the JSON text parses back), reading the
    token under the same secret gives the session object with its [iat]
    stamp, and reading it under a secret with another HMAC gives
    [null]. *)
Theorem session_token_round_trip :
  forall (base64_encode base64_decode : string -> string)
         (hmac : string -> string -> string)
         (JSON_stringify : json -> string) (JSON_parse : string -> option json)
         (members : list (string * json)) (now : Z) (secret secret' : string),
    let obj := JObj (put_member members "iat" (JNum (inject_Z (now / 1000)))) in
    let payload := b64url base64_encode (JSON_stringify obj) in
    let token := session_token base64_encode hmac JSON_stringify members now secret in
    base64_shape (base64_encode (JSON_stringify obj)) = true ->
    base64_decode (base64_encode (JSON_stringify obj)) = JSON_stringify obj ->
    base64_shape (base64_encode (hmac payload secret)) = true ->
    base64_decode (base64_encode (hmac payload secret)) = hmac payload secret ->
    JSON_parse (JSON_stringify obj) = Some obj ->
    getSession base64_decode hmac JSON_parse (Some token) secret = obj
    /\ (hmac payload secret' <> hmac payload secret ->
        getSession base64_decode hmac JSON_parse (Some token) secret' = JNull).
Proof.
  intros base64_encode base64_decode hmac JSON_stringify JSON_parse members now
         secret secret' obj payload token Hshape1 Hdec1 Hshape2 Hdec2 Hjson.
  destruct (base64_text_of_b64url_text _ Hshape1) as (Hrt1 & _ & Hdot1).
  destruct (base64_text_of_b64url_text _ Hshape2) as (Hrt2 & _ & Hdot2).
  assert (Htoken : token = payload ++ String "." (b64url base64_encode (hmac payload secret)))
    by reflexivity.
  assert (Hsplit : split_on "." token
                   = [payload; b64url base64_encode (hmac payload secret)]).
  { rewrite Htoken, split_on_app by exact Hdot1.
    rewrite split_on_no_sep by exact Hdot2. reflexivity. }
  assert (Hsig : fromB64url base64_decode (b64url base64_encode (hmac payload secret))
                 = hmac payload secret).
  { unfold fromB64url, b64url. rewrite Hrt2. exact Hdec2. }
  assert (Hpay : fromB64url base64_decode payload = JSON_stringify obj).
  { unfold fromB64url, payload, b64url. rewrite Hrt1. exact Hdec1. }
  destruct (string_app_cons_nonempty payload
              (b64url base64_encode (hmac payload secret)) ".") as (x & r & Hxr).
  rewrite <- Htoken in Hxr.
  split.
  - unfold getSession. rewrite Hxr. rewrite <- Hxr. rewrite Hsplit, Hsig.
    rewrite Nat.eqb_refl, String.eqb_refl. cbn [andb].
    rewrite Hpay, Hjson. reflexivity.
  - intro Hdiff. unfold getSession. rewrite Hxr. rewrite <- Hxr. rewrite Hsplit, Hsig.
    assert (Eneq : String.eqb (hmac payload secret') (hmac payload secret) = false)
      by (apply String.eqb_neq; exact Hdiff).
    rewrite Eneq, andb_false_r. reflexivity.
Qed.

Lemma session_token_round_trip_witness :
  getSession (fun _ => "k") (fun _ _ => "k")
    (fun _ => Some (JObj [("iat", JNum (inject_Z 5))]))
    (Some (session_token (fun _ => "QUJD") (fun _ _ => "k") (fun _ => "k") [] 5000 "s"))
    "s"
  = JObj [("iat", JNum (inject_Z 5))].
Proof.
  apply (session_token_round_trip
           (fun _ => "QUJD") (fun _ => "k") (fun _ _ => "k") (fun _ => "k")
           (fun _ => Some (JObj [("iat", JNum (inject_Z 5))])) [] 5000 "s" "s");
    reflexivity.
Defined.

(* ------------------------------------------------------------------ *)
(** ** The signed cookies *)

Import Cookies.

Lemma substring_whole (s : string) : substring 0 (String.length s) s = s.
Proof. induction s as [|c s IH]; simpl; [reflexivity | rewrite IH; reflexivity]. Qed.

Lemma slice_to_app (a b : string) :
  slice_to (a ++ b) (Z.of_nat (String.length a)) = a.
Proof.
  unfold slice_to. rewrite Nat2Z.id.
  induction a as [|x a IH]; simpl.
  - destruct b; reflexivity.
  - rewrite IH. reflexivity.
Qed.

Lemma slice_from_app (a b : string) (c : ascii) :
  slice_from (a ++ String c b) (Z.of_nat (String.length a) + 1) = b.
Proof.
  unfold slice_from.
  replace (Z.to_nat (Z.of_nat (String.length a) + 1)) with (S (String.length a)) by lia.
  induction a as [|x a IH].
  - change (substring 0 (String.length b - 0) b = b).
    rewrite Nat.sub_0_r. apply substring_whole.
  - change (substring (S (String.length a))
              (String.length (a ++ String c b) - S (String.length a))
              (a ++ String c b) = b).
    exact IH.
Qed.

(** Where [lastIndexOf] finds the character, nothing after it is one. *)
Lemma lastIndexOf_cases (c : ascii) (s : string) :
  (lastIndexOf c s = (-1)%Z /\ occurs c s = false)
  \/ exists a b, s = a ++ String c b /\ occurs c b = false
                 /\ lastIndexOf c s = Z.of_nat (String.length a).
Proof.
  induction s as [|x s IH]; [left; split; reflexivity|].
  cbn [lastIndexOf]. destruct IH as [[Hi Ho] | (a & b & Hs & Hb & Hi)].
  - rewrite Hi. cbn [Z.leb Z.compare]. destruct (Ascii.eqb x c) eqn:E.
    + apply Ascii.eqb_eq in E. subst x. right. exists "", s.
      repeat split; [exact Ho].
    + left. split; [reflexivity|]. rewrite occurs_cons, Ascii.eqb_sym, E, Ho. reflexivity.
  - rewrite Hi. destruct (0 <=? Z.of_nat (String.length a))%Z eqn:E;
      [|apply Z.leb_gt in E; lia].
    right. exists (String x a), b. subst s. repeat split; [exact Hb|].
    cbn [String.length]. lia.
Qed.

Lemma lastIndexOf_app (c : ascii) (a b : string) :
  occurs c b = false ->
  lastIndexOf c (a ++ String c b) = Z.of_nat (String.length a).
Proof.
  intro Hb. induction a as [|x a IH].
  - cbn [append lastIndexOf String.length].
    destruct (lastIndexOf_cases c b) as [[Hi _] | (a' & b' & Hs & _ & _)].
    + rewrite Hi, Ascii.eqb_refl. reflexivity.
    + subst b. rewrite occurs_app, occurs_cons, Ascii.eqb_refl, orb_true_r in Hb.
      discriminate Hb.
  - cbn [append lastIndexOf String.length]. rewrite IH.
    destruct (0 <=? Z.of_nat (String.length a))%Z eqn:E;
      [lia | apply Z.leb_gt in E; lia].
Qed.

Lemma trim_start_id (s : string) :
  forallb (fun c => negb (is_space c)) (list_ascii_of_string s) = true ->
  trim_start s = s.
Proof.
  destruct s as [|c s]; [reflexivity|]. cbn [list_ascii_of_string forallb trim_start].
  intro H. apply andb_true_iff in H. destruct H as [Hc _].
  apply negb_true_iff in Hc. rewrite Hc. reflexivity.
Qed.

Lemma trim_end_id (s : string) :
  forallb (fun c => negb (is_space c)) (list_ascii_of_string s) = true ->
  trim_end s = s.
Proof.
  induction s as [|c s IH]; [reflexivity|]. cbn [list_ascii_of_string forallb trim_end].
  intro H. apply andb_true_iff in H. destruct H as [Hc Hs].
  apply negb_true_iff in Hc. rewrite (IH Hs), Hc. destruct s; reflexivity.
Qed.

Lemma cookie_text_app (a b : string) :
  cookie_text (a ++ b) = cookie_text a && cookie_text b.
Proof. unfold cookie_text. rewrite list_ascii_app, forallb_app. reflexivity. Qed.

Lemma cookie_text_no_space (s : string) :
  cookie_text s = true ->
  forallb (fun c => negb (is_space c)) (list_ascii_of_string s) = true.
Proof.
  unfold cookie_text. induction (list_ascii_of_string s) as [|c l IH]; [reflexivity|].
  cbn [forallb]. intro H. apply andb_true_iff in H. destruct H as [Hc Hl].
  unfold token_char in Hc. apply andb_true_iff in Hc. destruct Hc as [Hc _].
  apply andb_true_iff in Hc. destruct Hc as [Hc _]. rewrite Hc, (IH Hl). reflexivity.
Qed.

Lemma cookie_text_no_semicolon (s : string) :
  cookie_text s = true -> occurs ";" s = false.
Proof.
  unfold cookie_text, occurs. induction (list_ascii_of_string s) as [|c l IH]; [reflexivity|].
  cbn [forallb existsb]. intro H. apply andb_true_iff in H. destruct H as [Hc Hl].
  unfold token_char in Hc. apply andb_true_iff in Hc. destruct Hc as [Hc _].
  apply andb_true_iff in Hc. destruct Hc as [_ Hc]. apply negb_true_iff in Hc.
  rewrite Ascii.eqb_sym, Hc, (IH Hl). reflexivity.
Qed.

Lemma cookie_text_no_equals (s : string) :
  cookie_text s = true -> occurs "=" s = false.
Proof.
  unfold cookie_text, occurs. induction (list_ascii_of_string s) as [|c l IH]; [reflexivity|].
  cbn [forallb existsb]. intro H. apply andb_true_iff in H. destruct H as [Hc Hl].
  unfold token_char in Hc. apply andb_true_iff in Hc. destruct Hc as [_ Hc].
  apply negb_true_iff in Hc. rewrite Ascii.eqb_sym, Hc, (IH Hl). reflexivity.
Qed.

(** X24: [readSignedCookie] of the two routers.  A cookie is read as a value other than [null]
    only when the header parses and the named cookie is a payload, a dot
    and the signature of that payload, the signature holding no dot; the
    value is then what the payload decodes and parses to. *)
Theorem readSignedCookie_accepts_only_signed_payloads :
  forall (decodeURIComponent : string -> option string)
         (sign b64urlDecode : string -> string)
         (JSON_parse : string -> option json)
         (header : option string) (name : string) (v : json),
    readSignedCookie decodeURIComponent sign b64urlDecode JSON_parse header name
      = Some v ->
    v <> JNull ->
    exists cookies payload,
      parseCookies decodeURIComponent header = Some cookies
      /\ cookie_value cookies name = Some (payload ++ "." ++ sign payload)
      /\ occurs "." (sign payload) = false
      /\ JSON_parse (b64urlDecode payload) = Some v.
Proof.
  intros dec sign unb parse header name v H Hv. unfold readSignedCookie in H.
  destruct (parseCookies dec header) as [cookies|]; [|discriminate H].
  injection H as H. exists cookies. unfold read_raw in H.
  destruct (cookie_value cookies name) as [raw|]; [|congruence].
  destruct raw as [|r0 raw]; [congruence|].
  set (r := String r0 raw) in *.
  destruct (lastIndexOf_cases "." r) as [[Hi _] | (a & b & Hs & Hb & Hi)].
  - rewrite Hi in H. cbn [Z.ltb Z.compare] in H. congruence.
  - rewrite Hi in H.
    destruct (Z.of_nat (String.length a) <? 0)%Z eqn:E; [congruence|].
    rewrite Hs, slice_to_app, slice_from_app in H.
    destruct (String.eqb (sign a) b) eqn:Es; [|congruence].
    apply String.eqb_eq in Es. subst b.
    destruct (parse (unb a)) as [w|] eqn:Ep; [|congruence].
    exists a. subst w. rewrite Hs. repeat split; assumption.
Qed.

Lemma readSignedCookie_accepts_only_signed_payloads_witness :
  exists cookies payload,
    parseCookies (fun s => Some s) (Some "fs:user=e30.sig") = Some cookies
    /\ cookie_value cookies "fs:user"
       = Some (payload ++ "." ++ (fun _ : string => "sig") payload)
    /\ occurs "." ((fun _ : string => "sig") payload) = false
    /\ (fun _ : string => Some (JBool true)) ((fun s : string => s) payload)
       = Some (JBool true).
Proof.
  apply (readSignedCookie_accepts_only_signed_payloads
           (fun s => Some s) (fun _ => "sig") (fun s => s)
           (fun _ => Some (JBool true)) (Some "fs:user=e30.sig") "fs:user"
           (JBool true)).
  - vm_compute. reflexivity.
  - discriminate.
Defined.

(** X25: [makeSignedCookie] against [parseCookies] and
    [readSignedCookie].  A cookie made by
    [makeSignedCookie] and sent back alone as [name=value] is read back as
    the object that was signed, when the name, the payload and the
    signature hold no white space, [;] or [=], the signature holds no dot,
    [decodeURIComponent] leaves the value alone, and the codec and JSON
    round-trip on this object. *)
Theorem signed_cookie_round_trip :
  forall (decodeURIComponent : string -> option string)
         (sign b64url b64urlDecode : string -> string)
         (JSON_stringify : json -> string)
         (JSON_parse : string -> option json)
         (name : string) (obj : json),
    let payload := b64url (JSON_stringify obj) in
    let value := makeSignedCookie sign b64url JSON_stringify obj in
    cookie_text name = true ->
    cookie_text payload = true ->
    cookie_text (sign payload) = true ->
    occurs "." (sign payload) = false ->
    decodeURIComponent value = Some value ->
    b64urlDecode payload = JSON_stringify obj ->
    JSON_parse (JSON_stringify obj) = Some obj ->
    readSignedCookie decodeURIComponent sign b64urlDecode JSON_parse
      (Some (name ++ "=" ++ value)) name = Some obj.
Proof.
  intros dec sign enc unb str parse name obj payload value
         Hn Hp Hs Hdot Hdec Hunb Hparse.
  assert (Hvalue : value = payload ++ String "." (sign payload)) by reflexivity.
  assert (Hv : cookie_text value = true).
  { rewrite Hvalue.
    change (payload ++ String "." (sign payload))
      with (payload ++ ("." ++ sign payload)).
    rewrite !cookie_text_app, Hp, Hs. reflexivity. }
  set (h := name ++ "=" ++ value).
  assert (Hspace : forallb (fun c => negb (is_space c)) (list_ascii_of_string h) = true).
  { unfold h. rewrite list_ascii_app, forallb_app.
    rewrite (cookie_text_no_space _ Hn). cbn [append list_ascii_of_string forallb].
    rewrite (cookie_text_no_space _ Hv). reflexivity. }
  assert (Hsemi : occurs ";" h = false).
  { unfold h. rewrite occurs_app, (cookie_text_no_semicolon _ Hn).
    cbn [append]. rewrite occurs_cons, (cookie_text_no_semicolon _ Hv). reflexivity. }
  assert (Hpair : cookie_pair dec h = Some (name, value)).
  { unfold cookie_pair, trim. rewrite (trim_start_id _ Hspace), (trim_end_id _ Hspace).
    unfold h. change (name ++ "=" ++ value) with (name ++ String "=" value).
    rewrite (split_on_app _ _ _ (cookie_text_no_equals _ Hn)).
    rewrite (split_on_no_sep _ _ (cookie_text_no_equals _ Hv)).
    unfold join. cbn [String.concat]. rewrite Hdec. reflexivity. }
  unfold readSignedCookie, parseCookies.
  assert (Hne : exists c rest, h = String c rest).
  { unfold h. destruct name as [|c rest]; [exists "="%char, value | exists c, (rest ++ "=" ++ value)];
      reflexivity. }
  destruct Hne as (c & rest & Hc). fold h. rewrite Hc, <- Hc.
  rewrite (split_on_no_sep _ _ Hsemi). cbn [parse_parts]. rewrite Hpair.
  cbn [app cookie_value]. rewrite String.eqb_refl.
  unfold read_raw.
  assert (Hvne : exists c' rest', value = String c' rest').
  { rewrite Hvalue. destruct payload as [|c' rest']; [exists "."%char, (sign "") | exists c', (rest' ++ String "." (sign (String c' rest')))];
      reflexivity. }
  destruct Hvne as (c' & rest' & Hc'). rewrite Hc', <- Hc'.
  rewrite Hvalue, (lastIndexOf_app _ _ _ Hdot), slice_to_app, slice_from_app.
  destruct (Z.of_nat (String.length payload) <? 0)%Z eqn:E;
    [apply Z.ltb_lt in E; lia|].
  rewrite String.eqb_refl, Hunb, Hparse. reflexivity.
Qed.

Lemma signed_cookie_round_trip_witness :
  readSignedCookie (fun s => Some s) (fun _ => "sig") (fun _ => "{}")
    (fun _ => Some (JObj []))
    (Some ("fs:user" ++ "="
           ++ makeSignedCookie (fun _ => "sig") (fun _ => "e30") (fun _ => "{}")
                (JObj [])))
    "fs:user" = Some (JObj []).
Proof.
  apply (signed_cookie_round_trip
           (fun s => Some s) (fun _ => "sig") (fun _ => "e30") (fun _ => "{}")
           (fun _ => "{}") (fun _ => Some (JObj [])) "fs:user" (JObj []));
    reflexivity.
Defined.

Lemma parse_parts_fails (decodeURIComponent : string -> option string)
    (parts : list string) (part : string) :
  In part parts -> cookie_pair decodeURIComponent part = None ->
  forall out, parse_parts decodeURIComponent parts out = None.
Proof.
  intros Hin Hnone. induction parts as [|p parts IH]; [contradiction Hin|].
  intro out. cbn [parse_parts]. destruct Hin as [-> | Hin].
  - rewrite Hnone. reflexivity.
  - destruct (cookie_pair decodeURIComponent p); [apply IH; exact Hin | reflexivity].
Qed.

(** X26: in [parseCookies], [decodeURIComponent] is called outside any
    [try]: when it throws on the value of one cookie of a header
    that is not empty, reading any cookie, whatever its name, throws. *)
Theorem one_malformed_cookie_breaks_every_read :
  forall (decodeURIComponent : string -> option string)
         (sign b64urlDecode : string -> string)
         (JSON_parse : string -> option json)
         (header part : string) (name : string),
    header <> "" ->
    In part (split_on ";" header) ->
    decodeURIComponent
      (join "=" (tl (split_on "=" (trim part)))) = None ->
    readSignedCookie decodeURIComponent sign b64urlDecode JSON_parse
      (Some header) name = None.
Proof.
  intros dec sign unb parse header part name Hh Hin Hnone.
  assert (Hpair : cookie_pair dec part = None).
  { unfold cookie_pair. pose proof (split_on_nonempty "=" (trim part)) as Hne.
    destruct (split_on "=" (trim part)) as [|k rest]; [reflexivity|].
    cbn [tl] in Hnone. rewrite Hnone. reflexivity. }
  unfold readSignedCookie, parseCookies.
  destruct header as [|c rest]; [contradiction Hh; reflexivity|].
  rewrite (parse_parts_fails dec _ _ Hin Hpair). reflexivity.
Qed.

Lemma one_malformed_cookie_breaks_every_read_witness :
  readSignedCookie
    (fun s => if String.eqb s "%" then None else Some s)
    (fun _ => "sig") (fun s => s) (fun _ => Some (JBool true))
    (Some "fs:user=e30.sig; other=%") "fs:user" = None.
Proof.
  apply (one_malformed_cookie_breaks_every_read
           (fun s => if String.eqb s "%" then None else Some s)
           (fun _ => "sig") (fun s => s) (fun _ => Some (JBool true))
           "fs:user=e30.sig; other=%" " other=%" "fs:user").
  - discriminate.
  - vm_compute. right. left. reflexivity.
  - vm_compute. reflexivity.
Defined.

Lemma add_cookie_keeps (h : set_cookie_header) (cookie : string) :
  h <> OneCookie "" ->
  cookies_of (add_cookie h cookie) = (cookies_of h ++ [cookie])%list.
Proof.
  intro Hh. destruct h as [|p|cs]; [reflexivity| |reflexivity].
  destruct p; [contradiction Hh; reflexivity | reflexivity].
Qed.

Lemma add_cookie_nonempty (h : set_cookie_header) (cookie : string) :
  cookie <> "" -> add_cookie h cookie <> OneCookie "".
Proof.
  intro Hc. destruct h as [|p|cs]; cbn [add_cookie].
  - congruence.
  - destruct p; [congruence | discriminate].
  - discriminate.
Qed.

Lemma cookie_string_nonempty (name value : string) (o : cookie_options)
    (useSecure : bool) (max_age_text : Z -> string) :
  cookie_string name value o useSecure max_age_text <> "".
Proof.
  unfold cookie_string, cookie_parts, join. cbn [app String.concat].
  destruct name; discriminate.
Qed.

(** X27: [setCookie] never drops a cookie set before it on the same
    response: after any sequence of calls on a response without a
    [Set-Cookie] header, the header carries one cookie string per call, in
    the order of the calls. *)
Theorem setCookie_keeps_every_cookie :
  forall (max_age_text : Z -> string) (calls : list cookie_call),
    cookies_of (set_cookies max_age_text calls NoHeader)
    = map (fun c => cookie_string (call_name c) (call_value c)
                      (call_options c) (call_secure c) max_age_text) calls.
Proof.
  intros text calls.
  enough (G : forall h, h <> OneCookie "" ->
            cookies_of (set_cookies text calls h)
            = (cookies_of h
               ++ map (fun c => cookie_string (call_name c) (call_value c)
                                  (call_options c) (call_secure c) text) calls)%list)
    by (apply (G NoHeader); discriminate).
  unfold set_cookies. induction calls as [|c calls IH]; intros h Hh.
  - cbn [fold_left map]. rewrite app_nil_r. reflexivity.
  - cbn [fold_left map]. rewrite IH.
    + unfold setCookie. rewrite (add_cookie_keeps _ _ Hh), <- app_assoc. reflexivity.
    + apply add_cookie_nonempty, cookie_string_nonempty.
Qed.

(* ------------------------------------------------------------------ *)
(** ** The value arc of the debug page *)

Import DebugCanvas.
Local Open Scope Q_scope.

Lemma Math_PI_pos : 0 < Math_PI.
Proof. reflexivity. Qed.

Lemma thetaEnd_ge_start (v : Q) : 0 <= v -> start_angle <= thetaEnd v.
Proof.
  intro Hv. unfold thetaEnd, start_angle, end_angle.
  pose proof Math_PI_pos as Hpi.
  assert (H : 0 <= (v / 100) * (2 * Math_PI - Math_PI)).
  { apply Qmult_le_0_compat; [|lra].
    apply Qle_shift_div_l; [reflexivity | lra]. }
  lra.
Qed.

Lemma thetaEnd_above (v k : Q) :
  start_angle + (end_angle - start_angle) * (k / 100) < thetaEnd v <-> k < v.
Proof.
  unfold thetaEnd, start_angle, end_angle. pose proof Math_PI_pos as Hpi.
  assert (E : 2 * Math_PI - Math_PI == Math_PI) by ring.
  rewrite E.
  assert (Ek : Math_PI * (k / 100) == k * (Math_PI / 100)) by (field).
  assert (Ev : v / 100 * Math_PI == v * (Math_PI / 100)) by (field).
  rewrite Ek, Ev.
  assert (Hp : 0 < Math_PI / 100) by (apply Qlt_shift_div_l; [reflexivity | lra]).
  generalize dependent (Math_PI / 100). intros p _ _ Hp. split; intro H; nra.
Qed.

Lemma ltb_thirds (v k : Q) :
  ltb (start_angle + (end_angle - start_angle) * (k / 100)) (thetaEnd v) = ltb k v.
Proof.
  destruct (ltb k v) eqn:E.
  - apply ltb_lt. apply (proj2 (thetaEnd_above v k)). apply ltb_lt. exact E.
  - destruct (ltb _ (thetaEnd v)) eqn:E'; [|reflexivity].
    apply ltb_lt in E'. apply (proj1 (thetaEnd_above v k)) in E'.
    apply (proj2 (ltb_lt k v)) in E'. congruence.
Qed.

Lemma tiles_arc (cap : lineCap) (w : Z) (st : paint) (cx cy : Z) (r a0 a1 : Q)
    (rest : list drawop) (a b : Q) :
  a0 == a -> a0 <= a1 -> tiles rest a1 b = true ->
  tiles (Arc cap w st cx cy r a0 a1 :: rest) a b = true.
Proof.
  intros H0 H1 Hr. cbn [tiles arc_from arc_to].
  rewrite Hr. apply Qeq_bool_iff in H0. apply Qle_bool_iff in H1.
  rewrite H0, H1. reflexivity.
Qed.

Lemma tiles_done (a b : Q) : a == b -> tiles [] a b = true.
Proof. intro H. apply Qeq_bool_iff. exact H. Qed.

Lemma capAngle_nonneg (r : Q) : 0 < r -> 0 <= capAngle r.
Proof.
  intro Hr. unfold capAngle. apply Qle_shift_div_l; [exact Hr|].
  apply Qle_shift_div_l; [reflexivity|].
  assert (H : (4 <= valueW r)%Z) by (unfold valueW; lia).
  assert (H' : inject_Z 4 <= inject_Z (valueW r)) by (rewrite <- Zle_Qle; exact H).
  change (inject_Z 4) with 4 in H'. lra.
Qed.

(** X28: on the debug page the value arc is drawn without gap or overlap,
    whichever branch of [drawValue] runs: the strokes follow one another
    from the start angle to the angle of the clamped score, each
    beginning where the one before it ends and none running backwards. *)
Theorem debug_value_strokes_tile_the_arc :
  forall (canConic : bool) (width height : Z) (c : RenderConfig) (score : Q),
    let v := clamp_score score in
    tiles (drawValue_debug canConic (frame_of width height c) v)
      start_angle (thetaEnd v) = true.
Proof.
  intros canConic width height c score v.
  pose proof (clamp_score_range score) as [Hv0 Hv100]. fold v in Hv0, Hv100.
  pose proof (thetaEnd_ge_start v Hv0) as Hs.
  set (f := frame_of width height c).
  assert (Hr : 0 < f_r f).
  { unfold f, frame_of. cbn [f_r].
    pose proof (radius_ge_1 (gauge_rect width height c)). lra. }
  pose proof (capAngle_nonneg _ Hr) as Hcap.
  destruct canConic; cbn [drawValue_debug].
  - unfold drawValue. cbv zeta.
    destruct (leb (thetaEnd v) (start_angle + capAngle (f_r f))) eqn:E.
    + apply tiles_arc; [reflexivity | exact Hs | apply tiles_done; reflexivity].
    + assert (Hlt : start_angle + capAngle (f_r f) < thetaEnd v).
      { apply Qnot_le_lt. intro Hle. apply Qle_bool_iff in Hle.
        unfold leb in E. congruence. }
      apply tiles_arc; [reflexivity | lra|].
      apply tiles_arc; [reflexivity | lra | apply tiles_done; reflexivity].
  - unfold drawValue_fallback. cbv zeta.
    assert (H12 : red_end <= orange_end).
    { unfold red_end, orange_end, start_angle, end_angle.
      pose proof Math_PI_pos. lra. }
    assert (H1 : start_angle <= red_end).
    { unfold red_end, start_angle, end_angle. pose proof Math_PI_pos. lra. }
    unfold Math_min.
    destruct (ltb red_end (thetaEnd v)) eqn:E1;
      destruct (ltb orange_end (thetaEnd v)) eqn:E2; cbn [app].
    + apply ltb_lt in E1. apply ltb_lt in E2.
      apply tiles_arc; [reflexivity | rewrite Q.min_l by lra; exact H1 |].
      apply tiles_arc; [rewrite Q.min_l by lra; reflexivity
                       | rewrite Q.min_l by lra; exact H12 |].
      apply tiles_arc; [rewrite Q.min_l by lra; reflexivity | lra
                       | apply tiles_done; reflexivity].
    + apply ltb_lt in E1.
      assert (H2 : thetaEnd v <= orange_end).
      { apply Qnot_lt_le. intro Hlt. apply ltb_lt in Hlt. congruence. }
      apply tiles_arc; [reflexivity | rewrite Q.min_l by lra; exact H1 |].
      apply tiles_arc; [rewrite Q.min_l by lra; reflexivity
                       | rewrite Q.min_r by lra; lra
                       | apply tiles_done; rewrite Q.min_r by lra; reflexivity].
    + apply ltb_lt in E2.
      assert (H2 : thetaEnd v <= red_end).
      { apply Qnot_lt_le. intro Hlt. apply ltb_lt in Hlt. congruence. }
      lra.
    + assert (H2 : thetaEnd v <= red_end).
      { apply Qnot_lt_le. intro Hlt. apply ltb_lt in Hlt. congruence. }
      apply tiles_arc; [reflexivity | rewrite Q.min_r by lra; exact Hs
                       | apply tiles_done; rewrite Q.min_r by lra; reflexivity].
Qed.

(** X29: the three-arc fallback changes colour at scores 33 and 66: red
    is always stroked, orange exactly when the score is above 33, and
    green exactly when it is above 66. *)
Theorem fallback_colours_change_at_33_and_66 :
  forall (f : frame) (v : Q),
    map stroke_of (drawValue_fallback f v)
    = (Some (Rgb C_RED)
       :: (if ltb 33 v then [Some (Rgb C_ORG)] else [])
       ++ (if ltb 66 v then [Some (Rgb C_GRN)] else []))%list.
Proof.
  intros f v. unfold drawValue_fallback. cbv zeta.
  change red_end with (start_angle + (end_angle - start_angle) * (33 / 100)).
  change orange_end with (start_angle + (end_angle - start_angle) * (66 / 100)).
  rewrite !ltb_thirds.
  destruct (ltb 33 v); destruct (ltb 66 v); reflexivity.
Qed.

(* ------------------------------------------------------------------ *)
(** ** Double precision: facts about the rounding *)

Import Binary64.
Local Open Scope Q_scope.

Lemma pow2_pos (e : Z) : 0 < pow2 e.
Proof. apply Qpower_0_lt. reflexivity. Qed.

Lemma pow2_add (a b : Z) : pow2 (a + b) == pow2 a * pow2 b.
Proof. apply Qpower_plus. discriminate. Qed.

Lemma pow2_sub (a b : Z) : pow2 (a - b) == pow2 a / pow2 b.
Proof. apply Qpower_minus. discriminate. Qed.

Lemma pow2_le (a b : Z) : (a <= b)%Z -> pow2 a <= pow2 b.
Proof. intro H. apply Qpower_le_compat_l; [exact H | discriminate]. Qed.

Lemma pow2_lt_inv (a b : Z) : pow2 a < pow2 b -> (a < b)%Z.
Proof. intro H. apply (Qpower_lt_compat_l_inv 2); [exact H | reflexivity]. Qed.

Lemma pow2_Z (a : Z) : (0 <= a)%Z -> pow2 a == inject_Z (2 ^ a).
Proof. intro H. unfold pow2. rewrite Zpower_Qpower by exact H. reflexivity. Qed.

Lemma Qabs_num_den (x : Q) :
  Qabs x == inject_Z (Z.abs (Qnum x)) / inject_Z (Zpos (Qden x)).
Proof.
  destruct x as [n d]. unfold Qabs. cbn [Qnum Qden].
  rewrite (Qmake_Qdiv (Z.abs n) d). reflexivity.
Qed.

Lemma binade_spec (x : Q) :
  ~ x == 0 -> pow2 (binade x) <= Qabs x /\ Qabs x < pow2 (binade x + 1).
Proof.
  intro Hx.
  set (n := Z.abs (Qnum x)). set (d := Zpos (Qden x)).
  assert (Hn : (0 < n)%Z).
  { unfold n. assert (Qnum x <> 0%Z).
    { intro E. apply Hx. destruct x as [p q]. cbn in E. subst p. reflexivity. }
    lia. }
  assert (Hd : (0 < d)%Z) by (unfold d; lia).
  pose proof (Z.log2_spec n Hn) as [Hn1 Hn2].
  pose proof (Z.log2_spec d Hd) as [Hd1 Hd2].
  pose proof (Z.log2_nonneg n) as Han. pose proof (Z.log2_nonneg d) as Hbn.
  set (a := Z.log2 n) in *. set (b := Z.log2 d) in *.
  assert (Habs : Qabs x == inject_Z n / inject_Z d) by apply Qabs_num_den.
  assert (Qd : 0 < inject_Z d) by (change 0 with (inject_Z 0); rewrite <- Zlt_Qlt; exact Hd).
  assert (Hmul : Qabs x * inject_Z d == inject_Z n) by (rewrite Habs; field; lra).
  assert (Qn1 : pow2 a <= inject_Z n) by (rewrite pow2_Z by lia; rewrite <- Zle_Qle; exact Hn1).
  assert (Qn2 : inject_Z n < pow2 (a + 1))
    by (rewrite pow2_Z by lia; rewrite <- Zlt_Qlt; rewrite Z.add_1_r; exact Hn2).
  assert (Qd1 : pow2 b <= inject_Z d) by (rewrite pow2_Z by lia; rewrite <- Zle_Qle; exact Hd1).
  assert (Qd2 : inject_Z d < pow2 (b + 1))
    by (rewrite pow2_Z by lia; rewrite <- Zlt_Qlt; rewrite Z.add_1_r; exact Hd2).
  assert (Hpos : 0 < Qabs x).
  { destruct (Qlt_le_dec 0 (Qabs x)) as [H0|H0]; [exact H0|].
    pose proof (Qabs_nonneg x). assert (E : Qabs x == 0) by lra.
    rewrite E in Hmul.
    assert (0 < inject_Z n) by (change 0 with (inject_Z 0); rewrite <- Zlt_Qlt; exact Hn).
    lra. }
  assert (Hup : Qabs x < pow2 (a - b + 1)).
  { replace (a - b + 1)%Z with ((a + 1) - b)%Z by lia. rewrite pow2_sub.
    apply Qlt_shift_div_l; [apply pow2_pos|].
    assert (Qabs x * pow2 b <= Qabs x * inject_Z d) by (apply Qmult_le_l; assumption).
    lra. }
  assert (Hlo : pow2 (a - b - 1) < Qabs x).
  { replace (a - b - 1)%Z with (a - (b + 1))%Z by lia. rewrite pow2_sub.
    apply Qlt_shift_div_r; [apply pow2_pos|].
    assert (Qabs x * inject_Z d < Qabs x * pow2 (b + 1)) by (apply Qmult_lt_l; assumption).
    lra. }
  unfold binade. fold n. fold d. fold a. fold b.
  destruct (Qle_bool (pow2 (a - b)) (Qabs x)) eqn:E.
  - apply Qle_bool_iff in E. split; [exact E | exact Hup].
  - assert (Hlt : Qabs x < pow2 (a - b)).
    { apply Qnot_le_lt. intro H. apply Qle_bool_iff in H. congruence. }
    replace (a - b - 1 + 1)%Z with (a - b)%Z by lia.
    split; [apply Qlt_le_weak; exact Hlo | exact Hlt].
Qed.

Lemma binade_unique (x : Q) (e : Z) :
  pow2 e <= Qabs x -> Qabs x < pow2 (e + 1) -> binade x = e.
Proof.
  intros H1 H2.
  assert (Hx : ~ x == 0).
  { intro E. rewrite E in H1. pose proof (pow2_pos e). change (Qabs 0) with 0 in H1. lra. }
  destruct (binade_spec x Hx) as [B1 B2].
  assert (L1 : pow2 e < pow2 (binade x + 1)) by lra.
  assert (L2 : pow2 (binade x) < pow2 (e + 1)) by lra.
  apply pow2_lt_inv in L1. apply pow2_lt_inv in L2. lia.
Qed.

Lemma binade_comp (x y : Q) : ~ x == 0 -> x == y -> binade x = binade y.
Proof.
  intros Hx E. destruct (binade_spec x Hx) as [B1 B2].
  symmetry. apply binade_unique; rewrite <- E; assumption.
Qed.

Lemma ulp_pos (x : Q) : 0 < ulp x.
Proof. apply pow2_pos. Qed.

Lemma ulp_comp (x y : Q) : ~ x == 0 -> x == y -> ulp x = ulp y.
Proof. intros Hx E. unfold ulp. rewrite (binade_comp x y Hx E). reflexivity. Qed.

Lemma round_even_near (y : Q) :
  Qabs (inject_Z (round_even y) - y) <= 1 # 2.
Proof.
  unfold round_even. pose proof (Qfloor_le y) as H1. pose proof (Qlt_floor y) as H2.
  rewrite inject_Z_plus in H2. change (inject_Z 1) with 1 in H2.
  set (f := Qfloor y) in *.
  apply Qabs_Qle_condition.
  destruct (Qcompare_spec (y - inject_Z f) (1 # 2)) as [E|E|E].
  - destruct (Z.even f); [|rewrite inject_Z_plus; change (inject_Z 1) with 1]; lra.
  - lra.
  - rewrite inject_Z_plus. change (inject_Z 1) with 1. lra.
Qed.

Lemma round_even_Z (k : Z) : round_even (inject_Z k) = k.
Proof.
  unfold round_even. rewrite Qfloor_Z.
  destruct (Qcompare_spec (inject_Z k - inject_Z k) (1 # 2)) as [E|E|E]; [lra | reflexivity | lra].
Qed.

#[global] Instance round_even_comp : Proper (Qeq ==> eq) round_even.
Proof.
  intros x y E. unfold round_even. rewrite (Qfloor_comp x y E).
  assert (E' : x - inject_Z (Qfloor y) == y - inject_Z (Qfloor y)) by (rewrite E; reflexivity).
  rewrite (Qcompare_comp _ _ E' (1 # 2) (1 # 2) (Qeq_refl _)). reflexivity.
Qed.

Lemma rnd_nonzero (x : Q) :
  ~ x == 0 -> rnd x == inject_Z (round_even (x / ulp x)) * ulp x.
Proof.
  intro Hx. unfold rnd. destruct (Qeq_bool x 0) eqn:E.
  - apply Qeq_bool_iff in E. contradiction.
  - apply Qred_correct.
Qed.

#[global] Instance rnd_comp : Proper (Qeq ==> Qeq) rnd.
Proof.
  intros x y E. destruct (Qeq_dec x 0) as [Hx|Hx].
  - assert (Hy : y == 0) by (rewrite <- E; exact Hx).
    unfold rnd. apply Qeq_bool_iff in Hx. apply Qeq_bool_iff in Hy.
    rewrite Hx, Hy. reflexivity.
  - assert (Hy : ~ y == 0) by (rewrite <- E; exact Hx).
    rewrite (rnd_nonzero x Hx), (rnd_nonzero y Hy), (ulp_comp x y Hx E), E. reflexivity.
Qed.

(** The rounding error is at most half a unit in the last place. *)
Lemma rnd_half_ulp (x : Q) : Qabs (rnd x - x) <= ulp x / 2.
Proof.
  destruct (Qeq_dec x 0) as [Hx|Hx].
  - assert (E0 : rnd x = 0)
      by (unfold rnd; apply Qeq_bool_iff in Hx; rewrite Hx; reflexivity).
    rewrite E0. pose proof (ulp_pos x).
    assert (E : 0 - x == 0) by lra. rewrite E. change (Qabs 0) with 0.
    apply Qle_shift_div_l; lra.
  - rewrite (rnd_nonzero x Hx). pose proof (ulp_pos x) as Hu.
    pose proof (round_even_near (x / ulp x)) as Hn.
    set (z := inject_Z (round_even (x / ulp x))) in *.
    set (u := ulp x) in *.
    assert (E : z * u - x == (z - x / u) * u) by (field; lra).
    rewrite E, Qabs_Qmult, (Qabs_pos u) by lra.
    apply Qle_shift_div_l; [lra|].
    assert (Qabs (z - x / u) * u <= (1 # 2) * u) by (apply Qmult_le_compat_r; lra).
    lra.
Qed.

(** In the normal range the error is at most [eps] times the magnitude. *)
Lemma rnd_relative (x : Q) :
  pow2 (-1022) <= Qabs x -> Qabs (rnd x - x) <= eps * Qabs x.
Proof.
  intro Hn.
  assert (Hx : ~ x == 0).
  { intro E. rewrite E in Hn. change (Qabs 0) with 0 in Hn.
    pose proof (pow2_pos (-1022)). lra. }
  destruct (binade_spec x Hx) as [B1 B2].
  assert (He : (-1022 <= binade x)%Z).
  { assert (L : pow2 (-1022) < pow2 (binade x + 1)) by lra.
    apply pow2_lt_inv in L. lia. }
  pose proof (rnd_half_ulp x) as H.
  assert (Hu : ulp x / 2 == eps * pow2 (binade x)).
  { unfold ulp, eps. rewrite Z.max_l by lia.
    replace (binade x - 52)%Z with (binade x + -53 + 1)%Z by lia.
    rewrite !pow2_add. change (pow2 1) with 2. field. }
  rewrite Hu in H.
  assert (0 < eps) by apply pow2_pos.
  assert (eps * pow2 (binade x) <= eps * Qabs x) by (apply Qmult_le_l; lra).
  lra.
Qed.

(** A value that is a whole number of units in the last place is a
    double. *)
Lemma rnd_exact (x : Q) (m : Z) : x == inject_Z m * ulp x -> rnd x == x.
Proof.
  intro E. destruct (Qeq_dec x 0) as [Hx|Hx].
  - rewrite Hx. reflexivity.
  - rewrite (rnd_nonzero x Hx). pose proof (ulp_pos x) as Hu.
    assert (Ed : x / ulp x == inject_Z m).
    { rewrite E at 1. field. lra. }
    rewrite Ed, round_even_Z. symmetry. exact E.
Qed.

(** A mantissa of at most 53 bits over an exponent in range is a
    double. *)
Lemma rnd_dyadic (m j : Z) :
  (Z.abs m < 2 ^ 53)%Z -> (-1074 <= j)%Z ->
  rnd (inject_Z m * pow2 j) == inject_Z m * pow2 j.
Proof.
  intros Hm Hj. destruct (Z.eq_dec m 0) as [->|Hm0].
  - assert (E : inject_Z 0 * pow2 j == 0) by ring. rewrite E. reflexivity.
  - set (x := inject_Z m * pow2 j).
    set (a := Z.log2 (Z.abs m)).
    assert (Hpos : (0 < Z.abs m)%Z) by lia.
    pose proof (Z.log2_spec _ Hpos) as [L1 L2]. fold a in L1, L2.
    pose proof (Z.log2_nonneg (Z.abs m)) as Ha. fold a in Ha.
    assert (Ha52 : (a <= 52)%Z).
    { destruct (Z_le_gt_dec a 52) as [H|H]; [exact H|].
      assert ((2 ^ 53 <= 2 ^ a)%Z) by (apply Z.pow_le_mono_r; lia). lia. }
    assert (Habs : Qabs x == inject_Z (Z.abs m) * pow2 j).
    { unfold x. rewrite Qabs_Qmult, (Qabs_pos (pow2 j)) by (pose proof (pow2_pos j); lra).
      reflexivity. }
    assert (Hb : binade x = (a + j)%Z).
    { apply binade_unique; rewrite Habs; pose proof (pow2_pos j) as Pj.
      - rewrite pow2_add. apply Qmult_le_compat_r; [|lra].
        rewrite pow2_Z by lia. rewrite <- Zle_Qle. exact L1.
      - replace (a + j + 1)%Z with ((a + 1) + j)%Z by lia. rewrite pow2_add.
        apply Qmult_lt_compat_r; [lra|].
        rewrite pow2_Z by lia. rewrite <- Zlt_Qlt. rewrite Z.add_1_r. exact L2. }
    set (ue := (Z.max (a + j) (-1022) - 52)%Z).
    assert (Hue : ulp x = pow2 ue) by (unfold ulp; rewrite Hb; reflexivity).
    assert (Hd : (0 <= j - ue)%Z) by (unfold ue; lia).
    apply (rnd_exact x (m * 2 ^ (j - ue))).
    rewrite Hue, inject_Z_mult, <- pow2_Z by exact Hd.
    unfold x. replace j with ((j - ue) + ue)%Z at 1 by lia.
    rewrite pow2_add. ring.
Qed.

Lemma rnd_Z (k : Z) : (Z.abs k <= 2 ^ 53)%Z -> rnd (inject_Z k) == inject_Z k.
Proof.
  intro Hk. destruct (Z.eq_dec (Z.abs k) (2 ^ 53)) as [E|E].
  - assert (Ek : inject_Z k == inject_Z (k / 2) * pow2 1).
    { assert (k = 2 ^ 53 \/ k = - 2 ^ 53)%Z as [-> | ->] by lia; reflexivity. }
    rewrite Ek. apply rnd_dyadic; [|lia].
    assert (k = 2 ^ 53 \/ k = - 2 ^ 53)%Z as [-> | ->] by lia; reflexivity.
  - assert (Ek : inject_Z k == inject_Z k * pow2 0) by (change (pow2 0) with 1; ring).
    rewrite Ek. apply rnd_dyadic; lia.
Qed.

(** Whatever the magnitude, the error is at most [eps] times the
    magnitude plus half the spacing of the subnormal doubles. *)
Lemma rnd_error (x : Q) :
  Qabs (rnd x - x) <= eps * Qabs x + pow2 (-1075).
Proof.
  pose proof (pow2_pos (-1075)) as Hs. assert (He : 0 < eps) by apply pow2_pos.
  pose proof (Qabs_nonneg x) as Hx0.
  assert (Hprod : 0 <= eps * Qabs x) by (apply Qmult_le_0_compat; lra).
  destruct (Qeq_dec x 0) as [Hx|Hx].
  - assert (E0 : rnd x = 0)
      by (unfold rnd; apply Qeq_bool_iff in Hx; rewrite Hx; reflexivity).
    rewrite E0. assert (E : 0 - x == 0) by lra. rewrite E.
    change (Qabs 0) with 0. lra.
  - destruct (Qlt_le_dec (Qabs x) (pow2 (-1022))) as [Hsub|Hnorm].
    + pose proof (rnd_half_ulp x) as H.
      destruct (binade_spec x Hx) as [B1 B2].
      assert (L : pow2 (binade x) < pow2 (-1022)) by lra.
      apply pow2_lt_inv in L.
      assert (Hu : ulp x / 2 == pow2 (-1075)).
      { unfold ulp. rewrite Z.max_r by lia.
        change (-1022 - 52)%Z with (-1075 + 1)%Z. rewrite pow2_add.
        change (pow2 1) with 2. field. }
      rewrite Hu in H. lra.
    + pose proof (rnd_relative x Hnorm). lra.
Qed.

#[global] Instance fadd_comp : Proper (Qeq ==> Qeq ==> Qeq) fadd.
Proof. intros a a' Ea b b' Eb. unfold fadd. rewrite Ea, Eb. reflexivity. Qed.

#[global] Instance fsub_comp : Proper (Qeq ==> Qeq ==> Qeq) fsub.
Proof. intros a a' Ea b b' Eb. unfold fsub. rewrite Ea, Eb. reflexivity. Qed.

#[global] Instance fmul_comp : Proper (Qeq ==> Qeq ==> Qeq) fmul.
Proof. intros a a' Ea b b' Eb. unfold fmul. rewrite Ea, Eb. reflexivity. Qed.

#[global] Instance fdiv_comp : Proper (Qeq ==> Qeq ==> Qeq) fdiv.
Proof. intros a a' Ea b b' Eb. unfold fdiv. rewrite Ea, Eb. reflexivity. Qed.

(** The concrete size of [eps]. *)
Lemma eps_value : eps == 1 # 9007199254740992.
Proof. reflexivity. Qed.

Lemma subnormal_below_eps : pow2 (-1075) <= eps.
Proof. apply pow2_le. lia. Qed.

(* ------------------------------------------------------------------ *)
(** ** The score formula in double precision *)

Import Counts.

(** The two roundings of the formula lose at most 302 [eps], for a ratio
    between 0 and 1. *)
Lemma scaled_ratio_error (x : Q) :
  0 <= x <= 1 ->
  Qabs (fmul (rnd x) 100 - x * 100) <= 302 * eps.
Proof.
  intros [Hx0 Hx1]. unfold fmul.
  pose proof (rnd_error x) as Ha. pose proof (rnd_error (rnd x * 100)) as Hb.
  pose proof subnormal_below_eps as Hs. pose proof (pow2_pos (-1075)) as Hs0.
  set (a := rnd x) in *. set (b := rnd (a * 100)) in *.
  set (eta := pow2 (-1075)) in *.
  rewrite (Qabs_pos x) in Ha by exact Hx0.
  assert (Ea : Qabs (a * 100) == Qabs a * 100).
  { rewrite Qabs_Qmult. reflexivity. }
  rewrite Ea in Hb.
  rewrite eps_value in *.
  apply Qabs_Qle_condition in Ha. destruct Ha as [Ha1 Ha2].
  assert (Haa : Qabs a <= 1 + 3 * (1 # 9007199254740992)).
  { apply Qabs_Qle_condition. split; lra. }
  apply Qabs_Qle_condition in Hb. destruct Hb as [Hb1 Hb2].
  pose proof (Qabs_nonneg a) as Hna.
  apply Qabs_Qle_condition. split; lra.
Qed.

Lemma inject_Z_lt_1 (k : Z) : inject_Z k < 1 -> (k <= 0)%Z.
Proof.
  intro H. change 1 with (inject_Z 1) in H. rewrite <- Zlt_Qlt in H. lia.
Qed.

(** Rounding a value that is within 302 [eps] of a fraction [M / (2 t)]
    with [t] up to [2^40]: the result is a nearest whole number of the
    fraction, and the one [Math.round] gives on the fraction itself unless
    the fraction is a half. *)
Lemma round_near_fraction (v : Q) (M t : Z) :
  (0 < t <= 2 ^ 40)%Z ->
  Qabs (v - inject_Z M / inject_Z (2 * t)) <= 302 * eps ->
  Qabs (inject_Z (Math_round v) - inject_Z M / inject_Z (2 * t)) <= 1 # 2
  /\ ((forall k : Z, ~ inject_Z M / inject_Z (2 * t) == inject_Z k + (1 # 2)) ->
      Math_round v = Math_round (inject_Z M / inject_Z (2 * t))).
Proof.
  intros [Ht0 Ht1] Hv.
  set (E := inject_Z M / inject_Z (2 * t)) in *.
  assert (HT0 : 1 <= inject_Z t) by (change 1 with (inject_Z 1); rewrite <- Zle_Qle; lia).
  assert (HT1 : inject_Z t <= inject_Z (2 ^ 40)) by (rewrite <- Zle_Qle; lia).
  change (inject_Z (2 ^ 40)) with 1099511627776 in HT1.
  assert (HD : inject_Z (2 * t) == 2 * inject_Z t) by (rewrite inject_Z_mult; reflexivity).
  assert (HE : E * (2 * inject_Z t) == inject_Z M).
  { unfold E. rewrite HD. field. lra. }
  rewrite eps_value in Hv. apply Qabs_Qle_condition in Hv. destruct Hv as [Hv1 Hv2].
  pose proof (Math_round_upper v) as Hup. pose proof (Math_round_lower v) as Hlo.
  set (z := Math_round v) in *.
  set (T := inject_Z t) in *.
  (* the whole number 2 t z - M lies between -t and t *)
  assert (Hhi : (z * (2 * t) - M - t <= 0)%Z).
  { apply inject_Z_lt_1.
    unfold Zminus. repeat rewrite ?inject_Z_plus, ?inject_Z_opp, ?inject_Z_mult.
    fold T. change (inject_Z 2) with 2.
    assert (inject_Z z * (2 * T) <= (v + (1 # 2)) * (2 * T))
      by (apply Qmult_le_compat_r; lra).
    assert ((v - E) * (2 * T) <= 302 * (1 # 9007199254740992) * (2 * T))
      by (apply Qmult_le_compat_r; lra).
    lra. }
  assert (Hlw : (0 <= z * (2 * t) - M + t)%Z).
  { assert (G : (M - t - z * (2 * t) <= 0)%Z); [|lia].
    apply inject_Z_lt_1.
    unfold Zminus. repeat rewrite ?inject_Z_plus, ?inject_Z_opp, ?inject_Z_mult.
    fold T. change (inject_Z 2) with 2.
    assert ((v - (1 # 2)) * (2 * T) < inject_Z z * (2 * T))
      by (apply Qmult_lt_compat_r; lra).
    assert (- (302 * (1 # 9007199254740992)) * (2 * T) <= (v - E) * (2 * T))
      by (apply Qmult_le_compat_r; lra).
    lra. }
  split.
  - apply Qabs_Qle_condition.
    assert (Q1 : inject_Z (z * (2 * t) - M - t) <= 0)
      by (change 0 with (inject_Z 0); rewrite <- Zle_Qle; exact Hhi).
    assert (Q2 : 0 <= inject_Z (z * (2 * t) - M + t))
      by (change 0 with (inject_Z 0); rewrite <- Zle_Qle; exact Hlw).
    unfold Zminus in Q1, Q2.
    repeat rewrite ?inject_Z_plus, ?inject_Z_opp, ?inject_Z_mult in Q1.
    repeat rewrite ?inject_Z_plus, ?inject_Z_opp, ?inject_Z_mult in Q2.
    fold T in Q1, Q2. change (inject_Z 2) with 2 in Q1, Q2.
    assert (EZ : (inject_Z z - E) * (2 * T) == inject_Z z * (2 * T) - inject_Z M)
      by (rewrite <- HE; ring).
    split.
    + apply Qnot_lt_le. intro C.
      assert ((inject_Z z - E) * (2 * T) < - (1 # 2) * (2 * T))
        by (apply Qmult_lt_compat_r; lra).
      lra.
    + apply Qnot_lt_le. intro C.
      assert ((1 # 2) * (2 * T) < (inject_Z z - E) * (2 * T))
        by (apply Qmult_lt_compat_r; lra).
      lra.
  - intro Hnt.
    pose proof (Math_round_upper E) as Eup. pose proof (Math_round_lower E) as Elo.
    set (z0 := Math_round E) in *.
    assert (G1 : (z0 * (2 * t) + 1 <= M + t)%Z).
    { assert (L : (z0 * (2 * t) <= M + t)%Z).
      { rewrite Zle_Qle. rewrite inject_Z_plus, !inject_Z_mult. fold T.
        change (inject_Z 2) with 2.
        assert (inject_Z z0 * (2 * T) <= (E + (1 # 2)) * (2 * T))
          by (apply Qmult_le_compat_r; lra).
        lra. }
      assert (N : (z0 * (2 * t) <> M + t)%Z).
      { intro C. apply (Hnt (z0 - 1)%Z).
        assert (C' : inject_Z z0 * (2 * T) == inject_Z M + T).
        { unfold T. change 2 with (inject_Z 2).
          rewrite <- !inject_Z_mult, <- inject_Z_plus, C. reflexivity. }
        unfold Zminus. rewrite inject_Z_plus, inject_Z_opp.
        change (inject_Z 1) with 1.
        assert (E == inject_Z z0 - (1 # 2)); [|lra].
        apply (Qmult_inj_r _ _ (2 * T)); [lra|]. rewrite HE. lra. }
      lia. }
    assert (G2 : (M + t <= z0 * (2 * t) + 2 * t - 1)%Z).
    { assert (L : (M + t < z0 * (2 * t) + 2 * t)%Z); [|lia].
      rewrite Zlt_Qlt. rewrite !inject_Z_plus, !inject_Z_mult. fold T.
      change (inject_Z 2) with 2.
      assert ((E - (1 # 2)) * (2 * T) < inject_Z z0 * (2 * T))
        by (apply Qmult_lt_compat_r; lra).
      lra. }
    rewrite Zle_Qle in G1, G2.
    unfold Zminus in G2.
    repeat rewrite ?inject_Z_plus, ?inject_Z_opp, ?inject_Z_mult in G1.
    repeat rewrite ?inject_Z_plus, ?inject_Z_opp, ?inject_Z_mult in G2.
    fold T in G1, G2. change (inject_Z 2) with 2 in G1, G2.
    change (inject_Z 1) with 1 in G1, G2.
    unfold z, Math_round. apply Qfloor_unique.
    + apply Qnot_lt_le. intro C.
      assert ((v + (1 # 2)) * (2 * T) < inject_Z z0 * (2 * T))
        by (apply Qmult_lt_compat_r; lra).
      assert (- (302 * (1 # 9007199254740992)) * (2 * T) <= (v - E) * (2 * T))
        by (apply Qmult_le_compat_r; lra).
      lra.
    + rewrite inject_Z_plus. change (inject_Z 1) with 1.
      apply Qnot_le_lt. intro C.
      assert ((inject_Z z0 + 1) * (2 * T) <= (v + (1 # 2)) * (2 * T))
        by (apply Qmult_le_compat_r; lra).
      assert ((v - E) * (2 * T) <= 302 * (1 # 9007199254740992) * (2 * T))
        by (apply Qmult_le_compat_r; lra).
      lra.
Qed.

Lemma whole_spec (q : Q) : whole q = true -> q == inject_Z (Qfloor q).
Proof. unfold whole. intro H. apply Qeq_bool_iff in H. symmetry. exact H. Qed.

Lemma whole_Z (k : Z) : whole (inject_Z k) = true.
Proof. unfold whole. rewrite Qfloor_Z. apply Qeq_bool_iff. reflexivity. Qed.

#[global] Instance whole_comp : Proper (Qeq ==> eq) whole.
Proof.
  intros x y E. unfold whole. rewrite (Qfloor_comp x y E).
  destruct (Qeq_bool (inject_Z (Qfloor y)) x) eqn:A;
    destruct (Qeq_bool (inject_Z (Qfloor y)) y) eqn:B; try reflexivity.
  - apply Qeq_bool_iff in A. pose proof (Qeq_trans _ _ _ A E) as A'.
    apply Qeq_bool_iff in A'. congruence.
  - apply Qeq_bool_iff in B. pose proof (Qeq_trans _ _ _ B (Qeq_sym _ _ E)) as B'.
    apply Qeq_bool_iff in B'. congruence.
Qed.

Lemma whole_plus (a b : Q) : whole a = true -> whole b = true -> whole (a + b) = true.
Proof.
  intros Ha Hb. rewrite (whole_spec a Ha), (whole_spec b Hb), <- inject_Z_plus.
  apply whole_Z.
Qed.

(** A whole number of magnitude up to [2^53] is a double. *)
Lemma rnd_whole (x : Q) : whole x = true -> Qabs x <= max_exact -> rnd x == x.
Proof.
  intros Hw Hb. rewrite (whole_spec x Hw) in *.
  apply rnd_Z. change (Qabs (inject_Z (Qfloor x))) with (inject_Z (Z.abs (Qfloor x))) in Hb.
  unfold max_exact in Hb. rewrite <- Zle_Qle in Hb. exact Hb.
Qed.

Lemma fadd_whole (a b : Q) :
  whole a = true -> whole b = true -> Qabs a + Qabs b <= max_exact ->
  fadd a b == a + b.
Proof.
  intros Ha Hb Hm. apply rnd_whole; [apply whole_plus; assumption|].
  pose proof (Qabs_triangle a b). lra.
Qed.

Lemma magnitude_nonneg (k : string) (items : list json) :
  0 <= magnitude k (JArr items).
Proof.
  unfold magnitude. cbn [Spec.tallies].
  induction items as [|x l IH]; cbn [map fold_right]; [lra|].
  pose proof (Qabs_nonneg (Spec.field k x)). lra.
Qed.

Lemma field_of_skipped (k : string) (obj : json) :
  is_object obj = false -> Spec.field k obj = 0.
Proof. destruct obj; try reflexivity; discriminate. Qed.

Section FieldSum.

Variable get : Aggregator.sums -> Q.
Variable k : string.
Hypothesis get_step : forall acc obj,
  get (Aggregator64.add_tally acc obj)
  = if is_object obj
    then match number_prop obj k with
         | Some q => fadd (get acc) q
         | None => get acc
         end
    else get acc.

(** While the fields are whole and their magnitudes sum to at most
    [2^53], the running sum of the loop is the exact sum. *)
Lemma fold_add_tally64 (items : list json) :
  forall acc,
    whole (get acc) = true ->
    forallb (fun obj => whole (Spec.field k obj)) items = true ->
    Qabs (get acc) + magnitude k (JArr items) <= max_exact ->
    get (fold_left Aggregator64.add_tally items acc)
    == get acc + Spec.total k (JArr items).
Proof.
  induction items as [|obj items IH]; intros acc Hw Hall Hm.
  - unfold Spec.total. cbn. ring.
  - cbn [fold_left]. cbn [forallb] in Hall. apply andb_true_iff in Hall.
    destruct Hall as [Hobj Hall].
    assert (Hm' : Qabs (get acc) + (Qabs (Spec.field k obj) + magnitude k (JArr items))
                  <= max_exact) by exact Hm.
    pose proof (magnitude_nonneg k items) as Hmag.
    assert (Hstep : get (Aggregator64.add_tally acc obj) == get acc + Spec.field k obj).
    { rewrite get_step. destruct (is_object obj) eqn:Eo.
      - unfold Spec.field in *. destruct (number_prop obj k) as [q|].
        + apply fadd_whole; [exact Hw | exact Hobj | lra].
        + ring.
      - rewrite (field_of_skipped k obj Eo). ring. }
    rewrite IH.
    + rewrite Hstep. unfold Spec.total. cbn [Spec.tallies map fold_right]. ring.
    + rewrite Hstep. apply whole_plus; assumption.
    + exact Hall.
    + rewrite Hstep. pose proof (Qabs_triangle (get acc) (Spec.field k obj)). lra.
Qed.

End FieldSum.

Lemma whole_fields_of (input : json) :
  whole_fields input = true ->
  forallb (fun obj => whole (Spec.field "Positive" obj)) (Spec.tallies input) = true
  /\ forallb (fun obj => whole (Spec.field "Neutral" obj)) (Spec.tallies input) = true
  /\ forallb (fun obj => whole (Spec.field "Negative" obj)) (Spec.tallies input) = true.
Proof.
  unfold whole_fields. induction (Spec.tallies input) as [|x l IH]; cbn [forallb].
  - intros _. repeat split.
  - intro H. apply andb_true_iff in H. destruct H as [Hx Hl].
    apply andb_true_iff in Hx. destruct Hx as [Hx Hg].
    apply andb_true_iff in Hx. destruct Hx as [Hp Hn].
    destruct (IH Hl) as (A & B & C). rewrite Hp, Hn, Hg, A, B, C. repeat split.
Qed.

(** The sums of the block are the exact totals while every field is whole
    and the magnitudes of each field sum to at most [2^53]. *)
Lemma tally_sums64_exact (input : json) :
  whole_fields input = true ->
  magnitude "Positive" input <= max_exact ->
  magnitude "Neutral" input <= max_exact ->
  magnitude "Negative" input <= max_exact ->
  Aggregator.sP (Aggregator64.tally_sums input) == Spec.total "Positive" input
  /\ Aggregator.sNeut (Aggregator64.tally_sums input) == Spec.total "Neutral" input
  /\ Aggregator.sNeg (Aggregator64.tally_sums input) == Spec.total "Negative" input.
Proof.
  intros Hw HP HN HG. destruct (whole_fields_of input Hw) as (WP & WN & WG).
  destruct input as [| b | q | s | l | m].
  1-4: repeat split; reflexivity.
  - cbn [Aggregator64.tally_sums]. cbn [Spec.tallies] in WP, WN, WG.
    assert (Z0 : forall x, Qabs 0 + x == x) by (intro x; change (Qabs 0) with 0; ring).
    repeat split.
    + rewrite (fold_add_tally64 Aggregator.sP "Positive").
      * cbn. ring.
      * intros acc obj. unfold Aggregator64.add_tally.
        destruct (is_object obj); reflexivity.
      * reflexivity.
      * exact WP.
      * cbn [Aggregator.zero_sums Aggregator.sP]. rewrite Z0. exact HP.
    + rewrite (fold_add_tally64 Aggregator.sNeut "Neutral").
      * cbn. ring.
      * intros acc obj. unfold Aggregator64.add_tally.
        destruct (is_object obj); reflexivity.
      * reflexivity.
      * exact WN.
      * cbn [Aggregator.zero_sums Aggregator.sNeut]. rewrite Z0. exact HN.
    + rewrite (fold_add_tally64 Aggregator.sNeg "Negative").
      * cbn. ring.
      * intros acc obj. unfold Aggregator64.add_tally.
        destruct (is_object obj); reflexivity.
      * reflexivity.
      * exact WG.
      * cbn [Aggregator.zero_sums Aggregator.sNeg]. rewrite Z0. exact HG.
  - unfold Spec.total, Spec.field. cbn. repeat split; ring.
Qed.

Lemma fadd_Z (a b : Z) :
  (Z.abs (a + b) <= 2 ^ 53)%Z -> fadd (inject_Z a) (inject_Z b) == inject_Z (a + b).
Proof. intro H. unfold fadd. rewrite <- inject_Z_plus. apply rnd_Z. exact H. Qed.

Lemma fsub_Z (a b : Z) :
  (Z.abs (a - b) <= 2 ^ 53)%Z -> fsub (inject_Z a) (inject_Z b) == inject_Z (a - b).
Proof.
  intro H. unfold fsub, Qminus. rewrite <- inject_Z_opp, <- inject_Z_plus.
  apply rnd_Z. exact H.
Qed.

Lemma fmul_Z (a b : Z) :
  (Z.abs (a * b) <= 2 ^ 53)%Z -> fmul (inject_Z a) (inject_Z b) == inject_Z (a * b).
Proof. intro H. unfold fmul. rewrite <- inject_Z_mult. apply rnd_Z. exact H. Qed.

#[global] Instance formula_comp :
  Proper (Qeq ==> Qeq ==> Qeq ==> Qeq) Aggregator64.formula.
Proof.
  intros P P' EP G G' EG T T' ET. unfold Aggregator64.formula.
  rewrite EP, EG, ET. reflexivity.
Qed.

(** The formula on counts [p], [n], [g] with a total [t] up to [2^40]:
    the two roundings of the quotient and of the product stay within
    302 [eps] of the exact value [100 (2p + n) / (2t)]. *)
Lemma formula_on_counts (p g t : Z) :
  (0 <= p)%Z -> (0 <= g)%Z -> (p + g <= t)%Z -> (0 < t <= 2 ^ 40)%Z ->
  Qabs (Aggregator64.formula (inject_Z p) (inject_Z g) (inject_Z t)
        - inject_Z (100 * (p - g + t)) / inject_Z (2 * t)) <= 302 * eps.
Proof.
  intros Hp Hg Hpg [Ht0 Ht1].
  assert (B40 : (2 ^ 40 = 1099511627776)%Z) by reflexivity.
  assert (B53 : (2 ^ 53 = 9007199254740992)%Z) by reflexivity.
  unfold Aggregator64.formula.
  rewrite (fsub_Z p g) by lia.
  rewrite (fadd_Z (p - g) t) by lia.
  change 2 with (inject_Z 2) at 1. rewrite (fmul_Z 2 t) by lia.
  unfold fdiv.
  assert (HT : 0 < inject_Z (2 * t))
    by (change 0 with (inject_Z 0); rewrite <- Zlt_Qlt; lia).
  assert (HN0 : 0 <= inject_Z (p - g + t))
    by (change 0 with (inject_Z 0); rewrite <- Zle_Qle; lia).
  assert (HN1 : inject_Z (p - g + t) <= inject_Z (2 * t)) by (rewrite <- Zle_Qle; lia).
  set (x := inject_Z (p - g + t) / inject_Z (2 * t)).
  assert (Hx : 0 <= x <= 1).
  { unfold x. split.
    - apply Qle_shift_div_l; lra.
    - apply Qle_shift_div_r; lra. }
  assert (E : inject_Z (100 * (p - g + t)) / inject_Z (2 * t) == x * 100).
  { unfold x. rewrite inject_Z_mult. change (inject_Z 100) with 100. field. lra. }
  rewrite E. apply scaled_ratio_error. exact Hx.
Qed.

Lemma or_else_truthy (a b : Q) : ~ a == 0 -> or_else a b = a.
Proof.
  intro H. unfold or_else, truthy. destruct (Qeq_bool a 0) eqn:E; [|reflexivity].
  apply Qeq_bool_iff in E. contradiction.
Qed.

(** The score of sums that are counts with a total up to [2^40]. *)
Lemma score64_on_counts (s : Aggregator.sums) (sent : nat) (p n g : Z) :
  Aggregator.sP s == inject_Z p ->
  Aggregator.sNeut s == inject_Z n ->
  Aggregator.sNeg s == inject_Z g ->
  (0 <= p)%Z -> (0 <= n)%Z -> (0 <= g)%Z -> (0 < p + n + g <= 2 ^ 40)%Z ->
  let exact := inject_Z (100 * (p - g + (p + n + g))) / inject_Z (2 * (p + n + g)) in
  let z := Math_round (Aggregator64.formula (inject_Z p) (inject_Z g)
                                            (inject_Z (p + n + g))) in
  Aggregator64.score_of_sums s sent = Some z
  /\ Qabs (inject_Z z - exact) <= 1 # 2
  /\ ((forall k : Z, ~ exact == inject_Z k + (1 # 2)) -> z = Math_round exact).
Proof.
  intros HP HN HG Hp Hn Hg [Ht0 Ht1] exact z.
  assert (B40 : (2 ^ 40 = 1099511627776)%Z) by reflexivity.
  assert (B53 : (2 ^ 53 = 9007199254740992)%Z) by reflexivity.
  set (t := (p + n + g)%Z) in *.
  set (T64 := fadd (fadd (Aggregator.sP s) (Aggregator.sNeut s)) (Aggregator.sNeg s)).
  assert (HT : T64 == inject_Z t).
  { unfold T64. rewrite HP, HN, HG. rewrite (fadd_Z p n) by lia.
    rewrite (fadd_Z (p + n) g) by lia. reflexivity. }
  assert (HTpos : 0 < T64)
    by (rewrite HT; change 0 with (inject_Z 0); rewrite <- Zlt_Qlt; exact Ht0).
  assert (Hden : Aggregator64.denominator s sent = T64).
  { unfold Aggregator64.denominator. fold T64. apply or_else_truthy. lra. }
  pose proof (formula_on_counts p g t Hp Hg ltac:(unfold t; lia) (conj Ht0 Ht1)) as Herr.
  destruct (round_near_fraction _ (100 * (p - g + t)) t (conj Ht0 Ht1) Herr) as [Hnear Htie].
  split; [|split].
  - unfold Aggregator64.score_of_sums. rewrite Hden.
    assert (El : ltb 0 T64 = true) by (apply ltb_lt; exact HTpos).
    cbv zeta. rewrite El. f_equal. unfold z. apply Math_round_comp.
    rewrite HP, HG, HT. reflexivity.
  - exact Hnear.
  - exact Htie.
Qed.

Lemma count_spec (q : Q) : count q = true -> 0 <= q /\ whole q = true.
Proof.
  unfold count. intro H. apply andb_true_iff in H. destruct H as [H0 Hw].
  apply Qle_bool_iff in H0. split; assumption.
Qed.

(** On counts the magnitude of a field is its total. *)
Lemma counts_field (k : string) (l : list json) :
  forallb (fun obj => count (Spec.field k obj)) l = true ->
  forallb (fun obj => whole (Spec.field k obj)) l = true
  /\ 0 <= fold_right Qplus 0 (map (Spec.field k) l)
  /\ whole (fold_right Qplus 0 (map (Spec.field k) l)) = true
  /\ fold_right Qplus 0 (map (fun obj => Qabs (Spec.field k obj)) l)
     == fold_right Qplus 0 (map (Spec.field k) l).
Proof.
  induction l as [|x l IH]; cbn [forallb map fold_right].
  - intros _. split; [reflexivity|]. split; [lra|]. split; reflexivity.
  - intro H. apply andb_true_iff in H. destruct H as [Hx Hl].
    destruct (count_spec _ Hx) as [Hx0 Hxw]. destruct (IH Hl) as (A & B & C & D).
    rewrite Hxw, A. split; [reflexivity|]. split; [lra|]. split.
    + apply whole_plus; assumption.
    + rewrite D, (Qabs_pos _ Hx0). reflexivity.
Qed.

Lemma counts_of (input : json) :
  counts input = true ->
  forallb (fun obj => count (Spec.field "Positive" obj)) (Spec.tallies input) = true
  /\ forallb (fun obj => count (Spec.field "Neutral" obj)) (Spec.tallies input) = true
  /\ forallb (fun obj => count (Spec.field "Negative" obj)) (Spec.tallies input) = true.
Proof.
  unfold counts. induction (Spec.tallies input) as [|x l IH]; cbn [forallb].
  - intros _. repeat split.
  - intro H. apply andb_true_iff in H. destruct H as [Hx Hl].
    apply andb_true_iff in Hx. destruct Hx as [Hx Hg].
    apply andb_true_iff in Hx. destruct Hx as [Hp Hn].
    destruct (IH Hl) as (A & B & C). rewrite Hp, Hn, Hg, A, B, C. repeat split.
Qed.

Lemma whole_fields_of_counts (input : json) :
  counts input = true -> whole_fields input = true.
Proof.
  unfold counts, whole_fields. induction (Spec.tallies input) as [|x l IH]; cbn [forallb].
  - reflexivity.
  - intro H. apply andb_true_iff in H. destruct H as [Hx Hl].
    apply andb_true_iff in Hx. destruct Hx as [Hx Hg].
    apply andb_true_iff in Hx. destruct Hx as [Hp Hn].
    rewrite (proj2 (count_spec _ Hp)), (proj2 (count_spec _ Hn)),
            (proj2 (count_spec _ Hg)), (IH Hl). reflexivity.
Qed.

(** The double sums of a tally of counts whose total is at most [2^53]
    are the exact totals, which are counts themselves. *)
Lemma tally_sums64_of_counts (input : json) :
  counts input = true ->
  Spec.total "Positive" input + Spec.total "Neutral" input
  + Spec.total "Negative" input <= max_exact ->
  exists p n g : Z,
    (0 <= p)%Z /\ (0 <= n)%Z /\ (0 <= g)%Z
    /\ Spec.total "Positive" input == inject_Z p
    /\ Spec.total "Neutral" input == inject_Z n
    /\ Spec.total "Negative" input == inject_Z g
    /\ Aggregator.sP (Aggregator64.tally_sums input) == inject_Z p
    /\ Aggregator.sNeut (Aggregator64.tally_sums input) == inject_Z n
    /\ Aggregator.sNeg (Aggregator64.tally_sums input) == inject_Z g.
Proof.
  intros Hc Hb. destruct (counts_of input Hc) as (CP & CN & CG).
  destruct (counts_field "Positive" _ CP) as (_ & P0 & PW & PM).
  destruct (counts_field "Neutral" _ CN) as (_ & N0 & NW & NM).
  destruct (counts_field "Negative" _ CG) as (_ & G0 & GW & GM).
  fold (Spec.total "Positive" input) in P0, PW, PM.
  fold (Spec.total "Neutral" input) in N0, NW, NM.
  fold (Spec.total "Negative" input) in G0, GW, GM.
  fold (magnitude "Positive" input) in PM.
  fold (magnitude "Neutral" input) in NM.
  fold (magnitude "Negative" input) in GM.
  destruct (tally_sums64_exact input (whole_fields_of_counts input Hc))
    as (SP & SN & SG); try (rewrite ?PM, ?NM, ?GM; lra).
  exists (Qfloor (Spec.total "Positive" input)),
         (Qfloor (Spec.total "Neutral" input)),
         (Qfloor (Spec.total "Negative" input)).
  pose proof (whole_spec _ PW) as EP. pose proof (whole_spec _ NW) as EN.
  pose proof (whole_spec _ GW) as EG.
  repeat split.
  - rewrite <- (Qfloor_Z 0). apply Qfloor_resp_le. exact P0.
  - rewrite <- (Qfloor_Z 0). apply Qfloor_resp_le. exact N0.
  - rewrite <- (Qfloor_Z 0). apply Qfloor_resp_le. exact G0.
  - exact EP.
  - exact EN.
  - exact EG.
  - rewrite SP. exact EP.
  - rewrite SN. exact EN.
  - rewrite SG. exact EG.
Qed.

Lemma not_a_half (m k : Z) : ~ inject_Z m == inject_Z k + (1 # 2).
Proof.
  intro H.
  assert (E : inject_Z (2 * m) == inject_Z (2 * k + 1)).
  { rewrite inject_Z_plus, !inject_Z_mult. change (inject_Z 2) with 2.
    change (inject_Z 1) with 1. lra. }
  unfold Qeq in E. cbn [inject_Z Qnum Qden] in E. lia.
Qed.

(** C1: for a tally, or a sequence of tallies, of counts whose total T is
    positive (and at most 2^40), the aggregator of the handlers and of
    src/server.js returns [Math.round] of [((P - Neg + T) / (2T)) * 100]
    as double arithmetic evaluates it.  That is a whole number nearest to
    the exact value of the formula, and it is the exact value rounded
    half up unless the exact value is a half, where the rounding of the
    intermediate results decides; an all-positive tally scores 100, an
    all-neutral one 50, an all-negative one 0, and the score lies in
    [0,100]. *)
Theorem C1_score_formula :
  forall (input : json) (sent : nat),
    let P := Spec.total "Positive" input in
    let Neu := Spec.total "Neutral" input in
    let Neg := Spec.total "Negative" input in
    let T := P + Neu + Neg in
    let exact := ((P - Neg + T) / (2 * T)) * 100 in
    counts input = true ->
    0 < T -> T <= inject_Z (2 ^ 40) ->
    exists z : Z,
      Aggregator64.displayScore (Some input) sent = Some z
      /\ Aggregator64.displayScore_server (Some input) sent = Some z
      /\ z = Math_round (Aggregator64.formula P Neg T)
      /\ Qabs (inject_Z z - exact) <= 1 # 2
      /\ ((forall k : Z, ~ exact == inject_Z k + (1 # 2)) ->
          z = Spec.score P Neu Neg)
      /\ (Neu == 0 -> Neg == 0 -> z = 100%Z)
      /\ (P == 0 -> Neg == 0 -> z = 50%Z)
      /\ (P == 0 -> Neu == 0 -> z = 0%Z)
      /\ (0 <= z <= 100)%Z.
Proof.
  intros input sent P Neu Neg T exact Hc HT0 HT1.
  assert (Hb : P + Neu + Neg <= max_exact).
  { fold T. unfold max_exact. change (inject_Z (2 ^ 40)) with 1099511627776 in HT1.
    change (inject_Z (2 ^ 53)) with 9007199254740992. lra. }
  destruct (tally_sums64_of_counts input Hc Hb)
    as (p & n & g & Hp & Hn & Hg & EP & EN & EG & SP & SN & SG).
  fold P in EP. fold Neu in EN. fold Neg in EG.
  assert (ET : T == inject_Z (p + n + g)).
  { unfold T. rewrite EP, EN, EG, !inject_Z_plus. reflexivity. }
  assert (Ht : (0 < p + n + g <= 2 ^ 40)%Z).
  { rewrite ET in HT0, HT1. change 0 with (inject_Z 0) in HT0.
    rewrite <- Zlt_Qlt in HT0. rewrite <- Zle_Qle in HT1. lia. }
  destruct (score64_on_counts (Aggregator64.tally_sums input) sent p n g
              SP SN SG Hp Hn Hg Ht) as (Hscore & Hnear & Htie).
  cbv zeta in Hscore, Hnear, Htie.
  set (z := Math_round (Aggregator64.formula (inject_Z p) (inject_Z g)
                                             (inject_Z (p + n + g)))) in *.
  assert (Tpos : 0 < inject_Z (p + n + g))
    by (change 0 with (inject_Z 0); rewrite <- Zlt_Qlt; lia).
  assert (Eexact : inject_Z (100 * (p - g + (p + n + g))) / inject_Z (2 * (p + n + g))
                   == exact).
  { unfold exact. rewrite ET, EP, EG.
    rewrite !inject_Z_mult. unfold Zminus. rewrite !inject_Z_plus, inject_Z_opp.
    rewrite !inject_Z_plus in Tpos.
    change (inject_Z 100) with 100. change (inject_Z 2) with 2. field. lra. }
  rewrite Eexact in Hnear.
  assert (Htie' : (forall k : Z, ~ exact == inject_Z k + (1 # 2)) ->
                  z = Math_round exact).
  { intro H. rewrite <- Eexact. apply Htie. intro k. rewrite Eexact. apply H. }
  assert (Hwhole : forall m : Z, exact == inject_Z m -> z = m).
  { intros m Hm. rewrite Htie'.
    - rewrite Hm. apply Math_round_Z.
    - intro k. rewrite Hm. apply not_a_half. }
  assert (Hrange : 0 <= exact <= 100).
  { unfold exact. rewrite ET, EP, EG.
    assert (Qp : 0 <= inject_Z p) by (change 0 with (inject_Z 0); rewrite <- Zle_Qle; lia).
    assert (Qn : 0 <= inject_Z n) by (change 0 with (inject_Z 0); rewrite <- Zle_Qle; lia).
    assert (Qg : 0 <= inject_Z g) by (change 0 with (inject_Z 0); rewrite <- Zle_Qle; lia).
    rewrite !inject_Z_plus. rewrite !inject_Z_plus in Tpos.
    set (a := inject_Z p) in *. set (b := inject_Z n) in *. set (c := inject_Z g) in *.
    assert (E : (a - c + (a + b + c)) / (2 * (a + b + c)) * 100
                == (100 * a + 50 * b) / (a + b + c)) by (field; lra).
    rewrite E. split.
    - apply Qle_shift_div_l; lra.
    - apply Qle_shift_div_r; lra. }
  exists z. split; [exact Hscore|]. split.
  { destruct input; try exact Hscore.
    exfalso. unfold T, P, Neu, Neg, Spec.total in HT0. cbn in HT0. lra. }
  split.
  { unfold z. apply Math_round_comp. rewrite ET, EP, EG. reflexivity. }
  split; [exact Hnear|]. split; [exact Htie'|].
  assert (Tpos' : 0 < P + Neu + Neg) by exact HT0.
  split; [|split; [|split]].
  - intros HNeu HNeg. apply Hwhole. unfold exact, T.
    change (inject_Z 100) with 100. rewrite HNeu, HNeg in *. field. lra.
  - intros HP HNeg. apply Hwhole. unfold exact, T.
    change (inject_Z 50) with 50. rewrite HP, HNeg in *. field. lra.
  - intros HP HNeu. apply Hwhole. unfold exact, T.
    change (inject_Z 0) with 0. rewrite HP, HNeu in *. field. lra.
  - apply Qabs_Qle_condition in Hnear. destruct Hnear as [H1 H2].
    destruct Hrange as [R0 R1]. split.
    + assert (L : (-1 < z)%Z); [|lia]. rewrite Zlt_Qlt.
      change (inject_Z (-1)) with (-1). lra.
    + assert (L : (z < 101)%Z); [|lia]. rewrite Zlt_Qlt.
      change (inject_Z 101) with 101. lra.
Qed.

(** The witness of C1: two tallies summing to P = 5, Neu = 1, Neg = 4. *)
Lemma C1_score_formula_witness :
  exists z : Z,
    Aggregator64.displayScore (Some Examples.two_tallies) 2 = Some z
    /\ (0 <= z <= 100)%Z.
Proof.
  destruct (C1_score_formula Examples.two_tallies 2)
    as (z & H & _ & _ & _ & _ & _ & _ & _ & R).
  - reflexivity.
  - reflexivity.
  - vm_compute. discriminate.
  - exists z. split; assumption.
Defined.

(** The counterexample of C1: on the counts 3, 17 and 0 the exact value
    of the formula is 57.5, which rounds half up to 58; the quotient
    23/40 and its product with 100 round to a double just below 57.5, and
    the code returns 57. *)
Lemma C1_counterexample :
  Aggregator64.displayScore (Some (Spec.tally 3 17 0)) 20 = Some 57%Z
  /\ Spec.score 3 17 0 = 58%Z
  /\ Aggregator64.formula 3 0 20 < (575 # 10).
Proof. vm_compute. repeat split. Qed.

(* ------------------------------------------------------------------ *)
(** ** Negative tally fields and the clamp at render time *)




(* ------------------------------------------------------------------ *)
(** ** The score as a function of the totals *)

Lemma magnitude_nonneg' (k : string) (input : json) : 0 <= magnitude k input.
Proof.
  unfold magnitude. induction (Spec.tallies input) as [|x l IH]; cbn [map fold_right]; [lra|].
  pose proof (Qabs_nonneg (Spec.field k x)). lra.
Qed.

Lemma total_le_magnitude (k : string) (input : json) :
  Qabs (Spec.total k input) <= magnitude k input.
Proof.
  unfold Spec.total, magnitude.
  induction (Spec.tallies input) as [|x l IH]; cbn [map fold_right].
  - change (Qabs 0) with 0. lra.
  - pose proof (Qabs_triangle (Spec.field k x) (fold_right Qplus 0 (map (Spec.field k) l))).
    lra.
Qed.

Lemma total_whole (k : string) (l : list json) :
  forallb (fun obj => whole (Spec.field k obj)) l = true ->
  whole (fold_right Qplus 0 (map (Spec.field k) l)) = true.
Proof.
  induction l as [|x l IH]; cbn [forallb map fold_right]; [reflexivity|].
  intro H. apply andb_true_iff in H. destruct H as [Hx Hl].
  apply whole_plus; [exact Hx | apply IH; exact Hl].
Qed.

(** The sums and the denominator of a summable input are the exact
    ones. *)
Lemma summable_sums (input : json) :
  summable input = true ->
  let P := Spec.total "Positive" input in
  let Neu := Spec.total "Neutral" input in
  let Neg := Spec.total "Negative" input in
  let s := Aggregator64.tally_sums input in
  Aggregator.sP s == P /\ Aggregator.sNeut s == Neu /\ Aggregator.sNeg s == Neg
  /\ whole P = true /\ whole Neu = true /\ whole Neg = true
  /\ Qabs P + Qabs Neu + Qabs Neg <= max_exact
  /\ fadd (fadd (Aggregator.sP s) (Aggregator.sNeut s)) (Aggregator.sNeg s)
     == P + Neu + Neg.
Proof.
  intros Hs P Neu Neg s. unfold summable in Hs. apply andb_true_iff in Hs.
  destruct Hs as [Hw Hm]. apply Qle_bool_iff in Hm.
  pose proof (magnitude_nonneg' "Positive" input) as MP.
  pose proof (magnitude_nonneg' "Neutral" input) as MN.
  pose proof (magnitude_nonneg' "Negative" input) as MG.
  pose proof (total_le_magnitude "Positive" input) as TP.
  pose proof (total_le_magnitude "Neutral" input) as TN.
  pose proof (total_le_magnitude "Negative" input) as TG.
  fold P in TP. fold Neu in TN. fold Neg in TG.
  destruct (tally_sums64_exact input Hw) as (SP & SN & SG); try lra.
  fold s in SP, SN, SG. fold P in SP. fold Neu in SN. fold Neg in SG.
  destruct (whole_fields_of input Hw) as (WP & WN & WG).
  pose proof (total_whole _ _ WP) as HP. pose proof (total_whole _ _ WN) as HN.
  pose proof (total_whole _ _ WG) as HG.
  fold (Spec.total "Positive" input) in HP. fold P in HP.
  fold (Spec.total "Neutral" input) in HN. fold Neu in HN.
  fold (Spec.total "Negative" input) in HG. fold Neg in HG.
  repeat (split; [assumption|]).
  split; [lra|].
  rewrite SP, SN, SG.
  rewrite (fadd_whole P Neu HP HN) by lra.
  apply fadd_whole; [apply whole_plus; assumption | exact HG |].
  pose proof (Qabs_triangle P Neu). lra.
Qed.

Lemma or_else_falsy (a b : Q) : a == 0 -> or_else a b = b.
Proof.
  intro H. unfold or_else, truthy. apply Qeq_bool_iff in H. rewrite H. reflexivity.
Qed.

Lemma or_else_comp (a a' b b' : Q) : a == a' -> b == b' -> or_else a b == or_else a' b'.
Proof.
  intros Ea Eb. destruct (Qeq_dec a 0) as [H|H].
  - rewrite (or_else_falsy a b H), (or_else_falsy a' b').
    + exact Eb.
    + rewrite <- Ea. exact H.
  - rewrite (or_else_truthy a b H), (or_else_truthy a' b').
    + exact Ea.
    + rewrite <- Ea. exact H.
Qed.

Lemma ltb_comp (a a' b b' : Q) : a == a' -> b == b' -> ltb a b = ltb a' b'.
Proof.
  intros Ea Eb. destruct (ltb a' b') eqn:E.
  - apply ltb_lt. rewrite Ea, Eb. apply ltb_lt. exact E.
  - apply ltb_ge. rewrite Ea, Eb. apply ltb_ge. exact E.
Qed.

(** The score is a function of the three sums. *)
Lemma score_of_sums64_ext (s s' : Aggregator.sums) (sent : nat) :
  Aggregator.sP s == Aggregator.sP s' ->
  Aggregator.sNeut s == Aggregator.sNeut s' ->
  Aggregator.sNeg s == Aggregator.sNeg s' ->
  Aggregator64.score_of_sums s sent = Aggregator64.score_of_sums s' sent.
Proof.
  intros HP HN HG. unfold Aggregator64.score_of_sums. cbv zeta.
  assert (Hd : Aggregator64.denominator s sent == Aggregator64.denominator s' sent).
  { unfold Aggregator64.denominator. apply or_else_comp; [|reflexivity].
    rewrite HP, HN, HG. reflexivity. }
  rewrite (ltb_comp 0 0 _ _ (Qeq_refl 0) Hd).
  destruct (ltb 0 (Aggregator64.denominator s' sent)); [|reflexivity].
  f_equal. apply Math_round_comp. rewrite HP, HG, Hd. reflexivity.
Qed.

(** Summable inputs with equal totals get equal scores. *)
Lemma displayScore64_of_totals :
  forall (input input' : json) (sent : nat),
    summable input = true -> summable input' = true ->
    Spec.total "Positive" input == Spec.total "Positive" input' ->
    Spec.total "Neutral" input == Spec.total "Neutral" input' ->
    Spec.total "Negative" input == Spec.total "Negative" input' ->
    Aggregator64.displayScore (Some input) sent
    = Aggregator64.displayScore (Some input') sent.
Proof.
  intros input input' sent Hs Hs' HP HN HG.
  destruct (summable_sums input Hs) as (SP & SN & SG & _).
  destruct (summable_sums input' Hs') as (SP' & SN' & SG' & _).
  cbn [Aggregator64.displayScore]. apply score_of_sums64_ext.
  - rewrite SP, SP'. exact HP.
  - rewrite SN, SN'. exact HN.
  - rewrite SG, SG'. exact HG.
Qed.

(** X1: on summable inputs (whole fields whose magnitudes sum to at most
    2^53, so that every sum the loop forms is exact) the score depends on
    the input only through the three totals: two inputs with equal totals
    get equal scores. *)
Theorem score_depends_on_totals_only :
  forall (input input' : json) (sent : nat),
    summable input = true -> summable input' = true ->
    Spec.total "Positive" input == Spec.total "Positive" input' ->
    Spec.total "Neutral" input == Spec.total "Neutral" input' ->
    Spec.total "Negative" input == Spec.total "Negative" input' ->
    Aggregator64.displayScore (Some input) sent
    = Aggregator64.displayScore (Some input') sent.
Proof. exact displayScore64_of_totals. Qed.

Lemma score_depends_on_totals_only_witness :
  Aggregator64.displayScore (Some Examples.two_tallies) 7
  = Aggregator64.displayScore (Some (Spec.tally 5 1 4)) 7.
Proof.
  apply (score_depends_on_totals_only Examples.two_tallies (Spec.tally 5 1 4) 7);
    reflexivity.
Defined.

Lemma add_tally64_skips (acc : Aggregator.sums) (x : json) :
  (forall m, x <> JObj m) -> Aggregator64.add_tally acc x = acc.
Proof.
  intro Hx. destruct x as [| b | q | s | l | m]; try reflexivity.
  - destruct acc; reflexivity.
  - exfalso. apply (Hx m). reflexivity.
Qed.

Lemma magnitude_permutation (k : string) (items items' : list json) :
  Permutation items items' ->
  magnitude k (JArr items) == magnitude k (JArr items').
Proof.
  unfold magnitude. cbn [Spec.tallies].
  induction 1 as [| x l l' _ IH | x y l | l l' l'' _ IH1 _ IH2]; cbn [map fold_right].
  - reflexivity.
  - rewrite IH. reflexivity.
  - ring.
  - rewrite IH1. exact IH2.
Qed.

Lemma summable_permutation (items items' : list json) :
  Permutation items items' ->
  summable (JArr items) = true -> summable (JArr items') = true.
Proof.
  intros Hp Hs. unfold summable in *. apply andb_true_iff in Hs.
  destruct Hs as [Hw Hm]. apply andb_true_iff. split.
  - unfold whole_fields in *. cbn [Spec.tallies] in *.
    rewrite forallb_forall in *. intros x Hx. apply Hw.
    apply (Permutation_in x (Permutation_sym Hp)). exact Hx.
  - apply Qle_bool_iff in Hm. apply Qle_bool_iff.
    rewrite <- (magnitude_permutation "Positive" _ _ Hp),
            <- (magnitude_permutation "Neutral" _ _ Hp),
            <- (magnitude_permutation "Negative" _ _ Hp).
    exact Hm.
Qed.

(** X2: on a summable array the order of the tallies does not matter,
    and an entry that is not an object contributes nothing wherever it
    stands, summable or not.  Beyond the bound the order does matter:
    10^16, 1 and -10^16 as Positive fields sum to 0 in that order (10^16 +
    1 rounds to 10^16) and to 1 with the 1 last, and score 50 and 100 with
    one post sent. *)
Theorem score_ignores_order_and_non_objects :
  forall (items items' before after : list json) (x : json) (sent : nat),
    summable (JArr items) = true ->
    Permutation items items' ->
    (forall m, x <> JObj m) ->
    Aggregator64.displayScore (Some (JArr items)) sent
    = Aggregator64.displayScore (Some (JArr items')) sent
    /\ Aggregator64.displayScore (Some (JArr (before ++ x :: after))) sent
       = Aggregator64.displayScore (Some (JArr (before ++ after))) sent
    /\ Permutation (Spec.tallies big_then_small) (Spec.tallies small_last)
    /\ Aggregator64.displayScore (Some big_then_small) 1 = Some 50%Z
    /\ Aggregator64.displayScore (Some small_last) 1 = Some 100%Z.
Proof.
  intros items items' before after x sent Hs Hperm Hx. split; [|split].
  - apply displayScore64_of_totals.
    + exact Hs.
    + apply (summable_permutation _ _ Hperm Hs).
    + apply total_permutation; exact Hperm.
    + apply total_permutation; exact Hperm.
    + apply total_permutation; exact Hperm.
  - cbn [Aggregator64.displayScore Aggregator64.tally_sums].
    rewrite !fold_left_app. cbn [fold_left].
    rewrite (add_tally64_skips _ x Hx). reflexivity.
  - split; [|split; vm_compute; reflexivity].
    unfold big_then_small, small_last. cbn [Spec.tallies].
    apply perm_skip. apply perm_swap.
Qed.

Lemma score_ignores_order_and_non_objects_witness :
  Aggregator64.displayScore
    (Some (JArr [Spec.tally 3 1 1; Spec.tally 2 0 3])) 4
  = Aggregator64.displayScore
      (Some (JArr [Spec.tally 2 0 3; Spec.tally 3 1 1])) 4.
Proof.
  apply (score_ignores_order_and_non_objects
           [Spec.tally 3 1 1; Spec.tally 2 0 3] [Spec.tally 2 0 3; Spec.tally 3 1 1]
           [] [] JNull 4).
  - reflexivity.
  - apply perm_swap.
  - discriminate.
Defined.

(** X3: on a summable input there is no score exactly when the three
    totals add up to a negative number, or to zero with no post sent. *)
Theorem no_score_exactly_when :
  forall (input : json) (sent : nat),
    summable input = true ->
    let T := Spec.total "Positive" input + Spec.total "Neutral" input
             + Spec.total "Negative" input in
    Aggregator64.displayScore (Some input) sent = None
    <-> (T < 0 \/ (T == 0 /\ sent = O)).
Proof.
  intros input sent Hs T.
  destruct (summable_sums input Hs) as (_ & _ & _ & _ & _ & _ & _ & HT).
  cbv zeta in HT. fold T in HT.
  cbn [Aggregator64.displayScore]. unfold Aggregator64.score_of_sums. cbv zeta.
  set (s := Aggregator64.tally_sums input) in *.
  set (T64 := fadd (fadd (Aggregator.sP s) (Aggregator.sNeut s)) (Aggregator.sNeg s)) in *.
  unfold Aggregator64.denominator. fold T64.
  assert (Hn : 0 <= inject_Z (Z.of_nat sent))
    by (change 0 with (inject_Z 0); rewrite <- Zle_Qle; lia).
  destruct (Qeq_dec T64 0) as [Hz|Hnz].
  - rewrite (or_else_falsy T64 _ Hz).
    destruct sent as [|sent'].
    + cbn. split; [intros _; right; split; [lra | reflexivity] | reflexivity].
    + assert (Hpos : 0 < inject_Z (Z.of_nat (S sent')))
        by (change 0 with (inject_Z 0); rewrite <- Zlt_Qlt; lia).
      rewrite (or_else_truthy (inject_Z (Z.of_nat (S sent'))) 0) by lra.
      assert (El : ltb 0 (inject_Z (Z.of_nat (S sent'))) = true) by (apply ltb_lt; exact Hpos).
      rewrite El. split; [discriminate|].
      intros [H|[_ H]]; [lra | discriminate].
  - rewrite (or_else_truthy T64 _ Hnz).
    destruct (ltb 0 T64) eqn:El.
    + apply ltb_lt in El. split; [discriminate|].
      intros [H|[H _]]; lra.
    + apply ltb_ge in El. split; [|reflexivity].
      intros _. left. rewrite <- HT. 
      destruct (Qlt_le_dec T64 0) as [H|H]; [exact H|].
      exfalso. apply Hnz. lra.
Qed.

Lemma no_score_exactly_when_witness :
  Aggregator64.displayScore (Some (Spec.tally 0 0 0)) 0 = None
  <-> (Spec.total "Positive" (Spec.tally 0 0 0) + Spec.total "Neutral" (Spec.tally 0 0 0)
       + Spec.total "Negative" (Spec.tally 0 0 0) < 0
       \/ (Spec.total "Positive" (Spec.tally 0 0 0) + Spec.total "Neutral" (Spec.tally 0 0 0)
           + Spec.total "Negative" (Spec.tally 0 0 0) == 0 /\ O = O)).
Proof.
  apply (no_score_exactly_when (Spec.tally 0 0 0) 0). reflexivity.
Defined.

(** X5: when the totals of a summable input add up to zero, the number
    n > 0 of posts sent is the denominator: the score is [Math.round] of
    the formula with n in the place of T, which is 50 whenever the
    Positive and Negative totals agree, in particular for a response that
    carries no tally field at all. *)
Theorem zero_total_scores_on_post_count :
  forall (input : json) (sent : nat),
    let P := Spec.total "Positive" input in
    let Neu := Spec.total "Neutral" input in
    let Neg := Spec.total "Negative" input in
    let n := inject_Z (Z.of_nat sent) in
    summable input = true ->
    P + Neu + Neg == 0 ->
    sent <> O -> (Z.of_nat sent <= 2 ^ 32)%Z ->
    Aggregator64.displayScore (Some input) sent
      = Some (Math_round (Aggregator64.formula P Neg n))
    /\ (P == Neg -> Aggregator64.displayScore (Some input) sent = Some 50%Z).
Proof.
  intros input sent P Neu Neg n Hs HT Hsent Hbound.
  destruct (summable_sums input Hs) as (SP & _ & SG & _ & _ & _ & _ & HT64).
  cbv zeta in SP, SG, HT64. fold P in SP, HT64. fold Neu in HT64. fold Neg in SG, HT64.
  assert (Hn : 0 < n) by (unfold n; change 0 with (inject_Z 0); rewrite <- Zlt_Qlt; lia).
  assert (Hscore : Aggregator64.displayScore (Some input) sent
                   = Some (Math_round (Aggregator64.formula P Neg n))).
  { cbn [Aggregator64.displayScore]. unfold Aggregator64.score_of_sums. cbv zeta.
    assert (Hd : Aggregator64.denominator (Aggregator64.tally_sums input) sent = n).
    { unfold Aggregator64.denominator. rewrite or_else_falsy by (rewrite HT64; exact HT).
      apply or_else_truthy. fold n. lra. }
    rewrite Hd. assert (El : ltb 0 n = true) by (apply ltb_lt; exact Hn).
    rewrite El. f_equal. apply Math_round_comp. rewrite SP, SG. reflexivity. }
  split; [exact Hscore|].
  intro HPG. rewrite Hscore. f_equal.
  assert (B53 : (2 ^ 53 = 9007199254740992)%Z) by reflexivity.
  assert (B32 : (2 ^ 32 = 4294967296)%Z) by reflexivity.
  assert (E : Aggregator64.formula P Neg n == 50).
  { unfold Aggregator64.formula.
    assert (E1 : fsub P Neg == 0).
    { unfold fsub. assert (E0 : P - Neg == 0) by lra. rewrite E0. reflexivity. }
    rewrite E1. unfold n.
    change 0 with (inject_Z 0) at 1. rewrite (fadd_Z 0 (Z.of_nat sent)) by lia.
    change 2 with (inject_Z 2) at 1. rewrite (fmul_Z 2 (Z.of_nat sent)) by lia.
    assert (E2 : fdiv (inject_Z (0 + Z.of_nat sent)) (inject_Z (2 * Z.of_nat sent))
                 == 1 # 2).
    { unfold fdiv.
      assert (E3 : inject_Z (0 + Z.of_nat sent) / inject_Z (2 * Z.of_nat sent) == 1 # 2).
      { rewrite Z.add_0_l, inject_Z_mult. change (inject_Z 2) with 2. fold n. field. lra. }
      rewrite E3. vm_compute. reflexivity. }
    rewrite E2. vm_compute. reflexivity. }
  rewrite E. reflexivity.
Qed.

Lemma zero_total_scores_on_post_count_witness :
  Aggregator64.displayScore (Some (JObj [])) 3 = Some 50%Z.
Proof.
  apply (zero_total_scores_on_post_count (JObj []) 3).
  - reflexivity.
  - reflexivity.
  - discriminate.
  - vm_compute. discriminate.
  - reflexivity.
Defined.

(* ------------------------------------------------------------------ *)
(** ** The rescaled needle in double precision *)

Import Geometry.

Lemma halfLen_def_ge (r : Q) : 9 <= halfLen_def r.
Proof.
  unfold halfLen_def, r2_def, r1_def.
  assert (Ha : 10 <= inject_Z (Z.max 10 (Math_round (r * (30 # 100)))))
    by (change 10 with (inject_Z 10); rewrite <- Zle_Qle; lia).
  assert (Hb : 8 <= inject_Z (Z.max 8 (Math_round (r * (5 # 100)))))
    by (change 8 with (inject_Z 8); rewrite <- Zle_Qle; lia).
  apply Qle_shift_div_l; lra.
Qed.

Lemma needle_length_def (r : Q) : r2_def r - r1_def r == 2 * halfLen_def r.
Proof. unfold halfLen_def. field. Qed.

(** The three roundings of the rescale move the midpoint and the length
    by at most five rounding errors at the size of the needle. *)
Lemma needle_rescale_error (r scale : Q) :
  0 <= scale ->
  let tol := 5 * (eps * (Qabs (mid_def r) + halfLen_def r * scale) + pow2 (-1075)) in
  Qabs ((r1n r scale + r2n r scale) / 2 - mid_def r) <= tol
  /\ Qabs ((r2n r scale - r1n r scale) - scale * (r2_def r - r1_def r)) <= tol.
Proof.
  intros Hs tol. unfold tol. clear tol.
  rewrite (needle_length_def r).
  pose proof (halfLen_def_ge r) as Hh.
  unfold r1n, r2n, halfLen_new, fsub, fadd, fmul.
  set (m := mid_def r). set (h := halfLen_def r) in *.
  pose proof (rnd_error (h * scale)) as E0.
  set (hn := rnd (h * scale)) in *.
  pose proof (rnd_error (m - hn)) as E1. pose proof (rnd_error (m + hn)) as E2.
  set (a1 := rnd (m - hn)) in *. set (a2 := rnd (m + hn)) in *.
  pose proof subnormal_below_eps as Hs0. pose proof (pow2_pos (-1075)) as Hs1.
  set (eta := pow2 (-1075)) in *.
  assert (Hhs : 0 <= h * scale) by (apply Qmult_le_0_compat; lra).
  rewrite (Qabs_pos (h * scale)) in E0 by exact Hhs.
  pose proof (Qabs_triangle m (- hn)) as T1. rewrite Qabs_opp in T1.
  pose proof (Qabs_triangle m hn) as T2.
  assert (Th : Qabs hn <= h * scale + Qabs (hn - h * scale)).
  { pose proof (Qabs_triangle (h * scale) (hn - h * scale)) as T.
    assert (E : h * scale + (hn - h * scale) == hn) by ring.
    rewrite E, (Qabs_pos (h * scale)) in T by exact Hhs. exact T. }
  change (m + - hn) with (m - hn) in T1.
  rewrite eps_value in *.
  pose proof (Qabs_nonneg m) as Am. pose proof (Qabs_nonneg hn) as Ah.
  set (Xm := Qabs m) in *. set (Xh := Qabs hn) in *.
  set (X1 := Qabs (m - hn)) in *. set (X2 := Qabs (m + hn)) in *.
  set (hs := h * scale) in *.
  apply Qabs_Qle_condition in E0. destruct E0 as [E0a E0b].
  apply Qabs_Qle_condition in E1. destruct E1 as [E1a E1b].
  apply Qabs_Qle_condition in E2. destruct E2 as [E2a E2b].
  set (X0 := Qabs (hn - hs)) in *.
  assert (H0 : X0 <= (1 # 9007199254740992) * hs + eta).
  { unfold X0. apply Qabs_Qle_condition. split; lra. }
  assert (Es : scale * (2 * h) == 2 * hs) by (unfold hs; ring).
  rewrite Es.
  assert (Em : (a1 + a2) / 2 - m == (1 # 2) * ((a1 - (m - hn)) + (a2 - (m + hn))))
    by field.
  rewrite Em.
  split; apply Qabs_Qle_condition; split; lra.
Qed.


(** The needle on a radius of [k] half pixels: every default length is a
    whole number of half pixels. *)
Lemma needle_halves (k : Z) :
  (2 <= k <= 2 ^ 32)%Z ->
  exists a b : Z,
    (10 <= a <= k + 10)%Z /\ (8 <= b <= k + 8)%Z
    /\ r1_def (inject_Z k / 2) == inject_Z (k - 2 * a) / 2
    /\ r2_def (inject_Z k / 2) == inject_Z (k + 2 * b) / 2
    /\ mid_def (inject_Z k / 2) == inject_Z (k - a + b) / 2
    /\ halfLen_def (inject_Z k / 2) == inject_Z (a + b) / 2.
Proof.
  intros [Hk0 Hk1]. set (r := inject_Z k / 2).
  assert (Qk : 2 <= inject_Z k) by (change 2 with (inject_Z 2); rewrite <- Zle_Qle; lia).
  assert (Hr : r == (1 # 2) * inject_Z k) by (unfold r; field).
  exists (Z.max 10 (Math_round (r * (30 # 100)))), (Z.max 8 (Math_round (r * (5 # 100)))).
  pose proof (Math_round_upper (r * (30 # 100))) as Ua.
  pose proof (Math_round_upper (r * (5 # 100))) as Ub.
  assert (Ha : (Math_round (r * (30 # 100)) <= k + 10)%Z).
  { rewrite Zle_Qle, inject_Z_plus. change (inject_Z 10) with 10. lra. }
  assert (Hb : (Math_round (r * (5 # 100)) <= k + 8)%Z).
  { rewrite Zle_Qle, inject_Z_plus. change (inject_Z 8) with 8. lra. }
  split; [lia|]. split; [lia|].
  unfold mid_def, halfLen_def, r1_def, r2_def. fold r.
  set (a := Z.max 10 (Math_round (r * (30 # 100)))).
  set (b := Z.max 8 (Math_round (r * (5 # 100)))).
  unfold Zminus. rewrite !inject_Z_plus, ?inject_Z_opp, !inject_Z_mult.
  change (inject_Z 2) with 2. rewrite Hr.
  repeat split; field.
Qed.




(** X11: on a radius of k half pixels the default needle starts at least
    10 below the arc radius and ends at least 8 beyond it; rescaled by a
    scale of at least 0.1, which the configuration guarantees, its inner
    end stays inside its outer end and it is at least 1.79999 long (in
    doubles not always 1.8: on radius 20 with the double nearest 0.1 it is
    shorter); from radius 10 on the inner end of the default needle does
    not pass the centre. *)
Theorem needle_straddles_the_arc :
  forall (k : Z) (scale : Q),
    (2 <= k <= 2 ^ 32)%Z -> (1 # 10) <= scale ->
    let r := inject_Z k / 2 in
    r1_def r <= r - 10 /\ r + 8 <= r2_def r
    /\ r1n r scale < r2n r scale
    /\ (179999 # 100000) <= r2n r scale - r1n r scale
    /\ (10 <= r -> 0 <= r1_def r)
    /\ r2n 20 (rnd (1 # 10)) - r1n 20 (rnd (1 # 10)) < 18 # 10.
Proof.
  intros k scale Hk Hs r.
  assert (B32 : (2 ^ 32 = 4294967296)%Z) by reflexivity.
  assert (H1 : 10 <= inject_Z (Z.max 10 (Math_round (r * (30 # 100))))).
  { change 10 with (inject_Z 10). rewrite <- Zle_Qle. lia. }
  assert (H2 : 8 <= inject_Z (Z.max 8 (Math_round (r * (5 # 100))))).
  { change 8 with (inject_Z 8). rewrite <- Zle_Qle. lia. }
  assert (Hlong : (179999 # 100000) <= r2n r scale - r1n r scale).
  { destruct (needle_rescale_error r scale) as [_ Hlen]; [lra|].
    cbv zeta in Hlen. rewrite (needle_length_def r) in Hlen.
    pose proof (halfLen_def_ge r) as Hh.
    destruct (needle_halves k Hk) as (a & b & Ha & Hb & _ & _ & Em & _).
    fold r in Em.
    assert (Hm : Qabs (mid_def r) <= 8589934592).
    { rewrite Em. apply Qabs_Qle_condition.
      assert (Q1 : inject_Z (-17179869184) <= inject_Z (k - a + b))
        by (rewrite <- Zle_Qle; lia).
      assert (Q2 : inject_Z (k - a + b) <= inject_Z 17179869184)
        by (rewrite <- Zle_Qle; lia).
      change (inject_Z (-17179869184)) with (-17179869184) in Q1.
      change (inject_Z 17179869184) with 17179869184 in Q2.
      split; [apply Qle_shift_div_l | apply Qle_shift_div_r]; lra. }
    assert (Hhs : (9 # 10) <= halfLen_def r * scale).
    { assert (9 * scale <= halfLen_def r * scale) by (apply Qmult_le_compat_r; lra).
      lra. }
    pose proof subnormal_below_eps as Hs0. pose proof (pow2_pos (-1075)) as Hs1.
    set (eta := pow2 (-1075)) in *. set (hs := halfLen_def r * scale) in *.
    set (Xm := Qabs (mid_def r)) in *.
    assert (Es : scale * (2 * halfLen_def r) == 2 * hs) by (unfold hs; ring).
    rewrite Es in Hlen. rewrite eps_value in *.
    apply Qabs_Qle_condition in Hlen. destruct Hlen as [L1 _]. lra. }
  split; [unfold r1_def; lra|]. split; [unfold r2_def; lra|].
  split; [lra|]. split; [exact Hlong|]. split.
  - intro Hr. unfold r1_def. rewrite inject_Z_max.
    apply Qle_minus_iff.
    assert (Qmax (inject_Z 10) (inject_Z (Math_round (r * (30 # 100)))) <= r).
    { apply Q.max_lub; [change (inject_Z 10) with 10; lra|].
      pose proof (Math_round_upper (r * (30 # 100))). lra. }
    lra.
  - assert (C : Qle_bool (18 # 10) (r2n 20 (rnd (1 # 10)) - r1n 20 (rnd (1 # 10))) = false)
      by (vm_compute; reflexivity).
    apply Qnot_le_lt. intro H. apply Qle_bool_iff in H. congruence.
Qed.

Lemma needle_straddles_the_arc_witness :
  r1n (inject_Z 600 / 2) (1 # 2) < r2n (inject_Z 600 / 2) (1 # 2).
Proof.
  refine (proj1 (proj2 (proj2 (needle_straddles_the_arc 600 (1 # 2) _ _)))).
  - vm_compute. split; discriminate.
  - vm_compute. discriminate.
Defined.

(* ------------------------------------------------------------------ *)
(** ** The segmented value arc of [renderCardPNG] *)






(* ------------------------------------------------------------------ *)
(** ** Large numbers in [intish], and an infinite post count *)

Import Config Pagination.

Lemma to_double_exact (n : Z) : (Z.abs n <= 2 ^ 53)%Z -> to_double n = n.
Proof.
  intro H. unfold to_double. rewrite (Qfloor_comp _ _ (rnd_Z n H)). apply Qfloor_Z.
Qed.

Lemma isFinite_small (n : Z) : (Z.abs n <= 2 ^ 53)%Z -> isFinite n = true.
Proof.
  intro H. unfold isFinite. apply Z.ltb_lt.
  apply Z.le_lt_trans with (2 ^ 53)%Z; [exact H|].
  apply Z.ltb_lt. vm_compute. reflexivity.
Qed.

(** X15: the parser reads the first run of digits of the string, negated
    when a minus sign stands right before it; what comes before is
    skipped as long as it holds neither digit nor minus sign, and what
    follows the run is ignored.  The result is the double nearest to the
    number the run writes, or the default when that double is infinite:
    up to 2^53 it is the number itself, and 9007199254740993 reads as
    9007199254740992. *)
Theorem intish_reads_the_first_integer :
  forall (junk digits rest : string) (def : Z),
    Shapes.skipped junk = true ->
    Shapes.all_digits digits = true -> digits <> "" ->
    Shapes.no_leading_digit rest = true ->
    let n := digits_val (list_ascii_of_string digits) in
    (0 <= n)%Z
    /\ intish (junk ++ digits ++ rest) def
       = (if isFinite (to_double n) then to_double n else def)
    /\ intish (junk ++ "-" ++ digits ++ rest) def
       = (if isFinite (to_double (- n)) then to_double (- n) else def)
    /\ ((n <= 2 ^ 53)%Z ->
        intish (junk ++ digits ++ rest) def = n
        /\ intish (junk ++ "-" ++ digits ++ rest) def = (- n)%Z)
    /\ intish "9007199254740993" def = 9007199254740992%Z.
Proof.
  intros junk digits rest def Hj Hd Hne Hr n.
  assert (Hn : (0 <= n)%Z).
  { unfold n, digits_val. apply digits_val_nonneg_from; [exact Hd | lia]. }
  destruct digits as [|c ds]; [contradiction Hne; reflexivity|].
  assert (Hc : is_digit c = true).
  { unfold Shapes.all_digits in Hd. simpl in Hd.
    apply andb_true_iff in Hd. apply Hd. }
  assert (Hds : Shapes.all_digits ds = true).
  { unfold Shapes.all_digits in *. simpl in Hd.
    apply andb_true_iff in Hd. apply Hd. }
  assert (Hrun : leading_digits (String c ds ++ rest) = c :: list_ascii_of_string ds)
    by (apply (leading_digits_run (String c ds) rest); assumption).
  assert (Hpos : intish (junk ++ String c ds ++ rest) def
                 = (if isFinite (to_double n) then to_double n else def)).
  { unfold intish. rewrite (match_int_skips junk _ Hj).
    simpl match_int. rewrite Hc, (leading_digits_run ds rest Hds Hr).
    unfold parseInt. reflexivity. }
  assert (Hneg : intish (junk ++ "-" ++ String c ds ++ rest) def
                 = (if isFinite (to_double (- n)) then to_double (- n) else def)).
  { unfold intish. rewrite (match_int_skips junk _ Hj).
    change ("-" ++ String c ds ++ rest) with (String "-" (String c ds ++ rest)).
    cbn [match_int]. change (is_digit "-") with false. cbv iota.
    rewrite Ascii.eqb_refl, Hrun.
    unfold parseInt. reflexivity. }
  split; [exact Hn|]. split; [exact Hpos|]. split; [exact Hneg|].
  split.
  - intro Hsmall. rewrite Hpos, Hneg.
    rewrite (to_double_exact n), (to_double_exact (- n)) by lia.
    rewrite (isFinite_small n), (isFinite_small (- n)) by lia. split; reflexivity.
  - vm_compute. reflexivity.
Qed.

Lemma intish_reads_the_first_integer_witness :
  intish "150x" 0 = 150%Z /\ intish "w=-12px" 5 = (-12)%Z.
Proof.
  split.
  - apply (proj1 (proj2 (proj2 (proj2
             (intish_reads_the_first_integer "" "150" "x" 0 eq_refl eq_refl
                ltac:(discriminate) eq_refl))))).
    vm_compute. discriminate.
  - apply (proj2 (proj2 (proj2
             (intish_reads_the_first_integer "w=" "12" "px" 5 eq_refl eq_refl
                ltac:(discriminate) eq_refl)))).
    vm_compute. discriminate.
Defined.

Lemma collect_handler_upto_finite (fuel : nat) (a : api) (want : Q) :
  forall (call : nat) (c : list json) (cursor : string),
    collect_handler_upto fuel a (Finite want) call c cursor
    = collect_handler fuel a want call c cursor.
Proof.
  induction fuel as [|fuel IH]; intros call c cursor; cbn [collect_handler_upto collect_handler wants_more_upto].
  - reflexivity.
  - destruct (wants_more c want); [|reflexivity].
    destruct (a call cursor) as [|page has_next next]; [reflexivity|].
    destruct page as [|t page]; [reflexivity|].
    destruct (last_page has_next next); [reflexivity | apply IH].
Qed.

Lemma collect_handler_unbounded_spins (a : api) (next : string) :
  next <> "" ->
  (forall n c, exists t ts, a n c = ApiPage (t :: ts) true next) ->
  forall (fuel call : nat) (c : list json) (cursor : string),
    collect_handler_upto fuel a Unbounded call c cursor = None.
Proof.
  intros Hnext Hapi. induction fuel as [|fuel IH]; intros call c cursor;
    cbn [collect_handler_upto wants_more_upto]; [reflexivity|].
  destruct (Hapi call cursor) as (t & ts & ->).
  unfold last_page. cbn [negb orb].
  destruct (String.eqb next "") eqn:E; [apply String.eqb_eq in E; contradiction|].
  apply IH.
Qed.

(** X17: the loop of the canvas handlers ends when the post count asked
    for is finite: every pass either leaves the loop or adds at least one
    post, so it takes at most as many passes as posts are asked for,
    whatever the API answers.  [TWEET_COUNT] can also give an infinite
    count, and the handler has no page limit: against an API that keeps
    answering a page that is not empty, a next page and a cursor, the
    loop then never ends. *)
Theorem handler_loop_ends_for_finite_counts :
  forall (a : api) (want : Q) (next : string),
    next <> "" ->
    (exists o : outcome,
        forall fuel : nat,
          (Z.to_nat (Qceiling want) <= fuel)%nat ->
          collect_handler_upto fuel a (Finite want) 0 [] "" = Some o)
    /\ desired_of PlusInfinity = Unbounded
    /\ ((forall n c, exists t ts, a n c = ApiPage (t :: ts) true next) ->
        forall fuel : nat, collect_handler_upto fuel a Unbounded 0 [] "" = None).
Proof.
  intros a want next Hnext. split; [|split; [reflexivity|]].
  - destruct (collect_handler_terminates (Z.to_nat (Qceiling want)) a want 0 [] "")
      as [o Ho]; [simpl; lia|].
    exists o. intros fuel Hfuel. rewrite collect_handler_upto_finite.
    replace fuel with (Z.to_nat (Qceiling want) + (fuel - Z.to_nat (Qceiling want)))%nat
      by lia.
    apply collect_handler_more_fuel. exact Ho.
  - intros Hapi fuel. apply (collect_handler_unbounded_spins a next Hnext Hapi).
Qed.

Lemma handler_loop_ends_for_finite_counts_witness :
  (exists o : outcome,
      collect_handler_upto 25 (fun _ _ => ApiPage [JNull] true "c") (Finite 25) 0 [] ""
      = Some o)
  /\ collect_handler_upto 1000 (fun _ _ => ApiPage [JNull] true "c") Unbounded 0 [] ""
     = None.
Proof.
  destruct (handler_loop_ends_for_finite_counts (fun _ _ => ApiPage [JNull] true "c")
              25 "c") as ((o & Ho) & _ & Hspin).
  - discriminate.
  - split.
    + exists o. apply Ho. vm_compute. lia.
    + apply Hspin. intros n c. exists JNull, []. reflexivity.
Defined.
